(** * CAM Agent dashboard: event reconciliation, grouping, playback, filters,
    metrics and the reveal gate.

    A shallow embedding of the TypeScript sources of [ui/dashboard]:
      - [src/types/events.ts]          the event data model       (Module Events)
      - [src/lib/api.ts]               the event source adapter   (Module Api)
      - [src/App.tsx]                  buffers, merge, filters,
                                       playback, metrics          (Module App)
      - [features/timeline/Timeline]   the exchange grouper, the
                                       card stages and the
                                       reveal handler             (Module Timeline)
      - [features/timeline/PlaybackControls]
                                       the playback buttons and
                                       the slider                 (Module PlaybackControls)
      - [features/filters/FilterPanel] the category pills         (Module FilterPanel)
      - [features/console/LiveConsole] the prompt form            (Module LiveConsole)

    Conventions.  A JavaScript [string] is a [string] that holds its UTF-8
    text, one [ascii] per byte: equality, concatenation and the search for
    a character below 128 are those of the bytes, while the white space of
    [trim] and the order of [sort()] are defined on the characters.  An
    optional member ([undefined] or [null]) is an [option]; a
    [Map<string, V>] is a [gmap string V]; a [Set<string>] is a
    [gset string]; an array is a [list].
    React state is passed explicitly: a handler is a function from the old
    state to the new one.  Integer-valued numbers (indices, counters, array
    lengths) are [Z]; the one computation that leaves the integers, the
    judge-agreement percentage, is carried out on binary64 floats. *)

From Stdlib Require Import ZArith Floats Uint63 Ascii DecimalString DecimalNat.
From Stdlib Require Import Permutation Sorted.
From stdpp Require Import gmap strings list sorting.

Local Open Scope Z_scope.
#[local] Set Warnings "-clear-no-such-hyp".

(* ===================================================================== *)
(** * The event data model ([types/events.ts]) *)
(* ===================================================================== *)

Module Events.

(** [ViolationDetail]; [severity] is typed 'info' | 'warn' | 'block' but is
    whatever string the backend sent (the adapter only casts it). *)
Record ViolationDetail := {
  category : string;
  severity : string;
  violation_type : option string;
  clause_reference : option string;
  description : option string;
}.

Record EventSource := {
  model_id : string;
  provider : string;
  mode : option string;
  metadata : list (string * string);
}.

Record RunMetadata := {
  run_id : string;
  scenario_id : option string;
  started_at : string;
  tags : list (string * string);
}.

Inductive TimelineEventType :=
  | user_prompt
  | llm_response
  | judge_verdict
  | metric_snapshot
  | audit_record.

Record UserPromptPayload := {
  up_source : EventSource;
  prompt_text : string;
  prompt_redacted : option string;
  up_question_category : option string;
}.

Record LLMResponsePayload := {
  lr_source : EventSource;
  question_category : option string;
  prompt_preview : option string;
  completion_preview : option string;
  lr_latency_ms : option float;
  token_usage : list (string * float);
  context_tokens : option float;
  pii_redacted_text : option string;
  pii_raw_text : option string;
  pii_fields : option (list string);
}.

(** [verdict] is typed 'allow' | 'warn' | 'block'; the adapter stores
    [String(payload.verdict ?? 'allow')], so it is a string. *)
Record JudgeVerdictPayload := {
  jv_source : EventSource;
  verdict : string;
  score : option float;
  rationale_redacted : option string;
  rationale_raw : option string;
  violation : option ViolationDetail;
  jv_latency_ms : option float;
}.

(** The payload object of an event.  The type casts of the sources
    ([event.payload as LLMResponsePayload]) do nothing at run time: reading a
    member the object does not have gives [undefined].  The projections
    below are those member reads. *)
Inductive Payload :=
  | PromptPayload (p : UserPromptPayload)
  | ResponsePayload (r : LLMResponsePayload)
  | VerdictPayload (v : JudgeVerdictPayload).

Record TimelineEvent := {
  run : RunMetadata;
  exchange_id : string;
  turn_index : Z;
  event_type : TimelineEventType;
  payload : Payload;
  created_at : string;
}.

(** [payload.question_category] read through the cast to
    [LLMResponsePayload]. *)
Definition payload_question_category (p : Payload) : option string :=
  match p with
  | ResponsePayload r => question_category r
  | PromptPayload u => up_question_category u
  | VerdictPayload _ => None
  end.

(** [payload.verdict] read through the cast to [JudgeVerdictPayload]. *)
Definition payload_verdict (p : Payload) : option string :=
  match p with
  | VerdictPayload v => Some (verdict v)
  | _ => None
  end.

(** [payload.violation] read through the cast to [JudgeVerdictPayload]. *)
Definition payload_violation (p : Payload) : option ViolationDetail :=
  match p with
  | VerdictPayload v => violation v
  | _ => None
  end.

(** [payload.pii_raw_text]. *)
Definition payload_pii_raw_text (p : Payload) : option string :=
  match p with
  | ResponsePayload r => pii_raw_text r
  | _ => None
  end.

(** [payload.pii_redacted_text]. *)
Definition payload_pii_redacted_text (p : Payload) : option string :=
  match p with
  | ResponsePayload r => pii_redacted_text r
  | _ => None
  end.

(** [payload.prompt_preview]. *)
Definition payload_prompt_preview (p : Payload) : option string :=
  match p with
  | ResponsePayload r => prompt_preview r
  | _ => None
  end.

(** [payload.prompt_redacted] and [payload.prompt_text] read through the
    cast to [UserPromptPayload]. *)
Definition payload_prompt_redacted (p : Payload) : option string :=
  match p with
  | PromptPayload u => prompt_redacted u
  | _ => None
  end.

Definition payload_prompt_text (p : Payload) : option string :=
  match p with
  | PromptPayload u => Some (prompt_text u)
  | _ => None
  end.

(** The string a [TimelineEventType] is at run time. *)
Definition event_type_name (t : TimelineEventType) : string :=
  match t with
  | user_prompt => "user_prompt"
  | llm_response => "llm_response"
  | judge_verdict => "judge_verdict"
  | metric_snapshot => "metric_snapshot"
  | audit_record => "audit_record"
  end.

#[global] Instance TimelineEventType_eq_dec : EqDecision TimelineEventType.
Proof. solve_decision. Defined.

End Events.
Export Events.

(* ===================================================================== *)
(** * The event source adapter ([lib/api.ts]) *)
(* ===================================================================== *)

Module Api.

(** The parsed JSON of one backend event, read at the types the backend
    declares: a member that is missing or [null] is [None].  For
    [raw.payload.source] the test ['model_id' in raw] tells a missing key
    from a key holding [null], so [raw_model_id] has both layers. *)
Record RawSource := {
  raw_model_id : option (option string);
  raw_provider : option string;
  raw_mode : option string;
  raw_metadata : option (list (string * string));
}.

Record RawViolation := {
  raw_category : option string;
  raw_severity : option string;
  raw_violation_type : option string;
  raw_clause_reference : option string;
  raw_description : option string;
}.

Record RawPayload := {
  raw_source : option RawSource;
  raw_verdict : option string;
  raw_score : option float;
  raw_rationale_redacted : option string;
  raw_rationale_raw : option string;
  raw_violation : option RawViolation;
  raw_latency_ms : option float;
  raw_question_category : option string;
  raw_prompt_preview : option string;
  raw_completion_preview : option string;
  raw_token_usage : option (list (string * float));
  raw_context_tokens : option float;
  raw_pii_redacted_text : option string;
  raw_pii_raw_text : option string;
  raw_final_text : option string;
  raw_pii_fields : option (list string);
}.

Record RawRun := {
  raw_run_id : option string;
  raw_scenario_id : option string;
  raw_started_at : option string;
  raw_tags : option (list (string * string));
}.

Record RawEvent := {
  raw_created_at : option string;
  raw_run : option RawRun;
  raw_exchange_id : option string;
  raw_turn_index : option Z;
  raw_event_type : option string;
  raw_payload : option RawPayload;
}.

(** [raw.payload ?? {}]: the empty object has no member. *)
Definition empty_payload : RawPayload :=
  {| raw_source := None; raw_verdict := None; raw_score := None;
     raw_rationale_redacted := None; raw_rationale_raw := None;
     raw_violation := None; raw_latency_ms := None;
     raw_question_category := None; raw_prompt_preview := None;
     raw_completion_preview := None; raw_token_usage := None;
     raw_context_tokens := None; raw_pii_redacted_text := None;
     raw_pii_raw_text := None; raw_final_text := None;
     raw_pii_fields := None |}.

(** [x ?? d]. *)
Definition nullish {A} (x : option A) (d : A) : A := default d x.

(** [x ? String(x) : null] on a string member: the empty string is falsy. *)
Definition truthy_string (x : option string) : option string :=
  match x with
  | Some s => if decide (s = "") then None else Some s
  | None => None
  end.

Definition ensureSource (raw : option RawSource) : EventSource :=
  match raw with
  | Some r =>
      match raw_model_id r with
      | Some mid =>
          {| model_id := nullish mid "unknown-model";
             provider := nullish (raw_provider r) "pipeline";
             mode := truthy_string (raw_mode r);
             metadata := nullish (raw_metadata r) [] |}
      | None =>
          {| model_id := "unknown-model"; provider := "pipeline";
             mode := None; metadata := [] |}
      end
  | None =>
      {| model_id := "unknown-model"; provider := "pipeline";
         mode := None; metadata := [] |}
  end.

Definition ensureViolation (raw : option RawViolation) : option ViolationDetail :=
  match raw with
  | None => None
  | Some r =>
      Some {| category := nullish (raw_category r) "policy_violation";
              severity := nullish (raw_severity r) "warn";
              violation_type := truthy_string (raw_violation_type r);
              clause_reference := truthy_string (raw_clause_reference r);
              description := truthy_string (raw_description r) |}
  end.

Definition ensureStringArray (raw : option (list string)) : option (list string) := raw.

(** [a ?? b] where both are optional. *)
Definition orElse {A} (a b : option A) : option A :=
  match a with Some _ => a | None => b end.

(** [toTimelineEvent(raw)].  [now] is [new Date().toISOString()] at the
    time of the call. *)
Definition toTimelineEvent (now : string) (raw : RawEvent) : TimelineEvent :=
  let createdAt := nullish (raw_created_at raw) now in
  let base_run :=
    {| run_id := nullish (raw_run raw ≫= raw_run_id) "unknown-run";
       scenario_id := raw_run raw ≫= raw_scenario_id;
       started_at := nullish (raw_run raw ≫= raw_started_at) createdAt;
       tags := nullish (raw_run raw ≫= raw_tags) [] |} in
  let base_exchange_id := nullish (raw_exchange_id raw) "exchange-unknown" in
  let base_turn_index := nullish (raw_turn_index raw) 0 in
  let base_event_type := nullish (raw_event_type raw) "audit_record" in
  let payload := nullish (raw_payload raw) empty_payload in
  if decide (base_event_type = "judge_verdict") then
    {| run := base_run;
       exchange_id := base_exchange_id;
       turn_index := base_turn_index;
       event_type := judge_verdict;
       payload := VerdictPayload
         {| jv_source := ensureSource (raw_source payload);
            verdict := nullish (raw_verdict payload) "allow";
            score := raw_score payload;
            rationale_redacted :=
              orElse (raw_rationale_redacted payload) (raw_rationale_raw payload);
            rationale_raw := raw_rationale_raw payload;
            violation := ensureViolation (raw_violation payload);
            jv_latency_ms := raw_latency_ms payload |};
       created_at := createdAt |}
  else
    {| run := base_run;
       exchange_id := base_exchange_id;
       turn_index := base_turn_index;
       event_type := llm_response;
       payload := ResponsePayload
         {| lr_source := ensureSource (raw_source payload);
            question_category := raw_question_category payload;
            prompt_preview := raw_prompt_preview payload;
            completion_preview := raw_completion_preview payload;
            lr_latency_ms := raw_latency_ms payload;
            token_usage := nullish (raw_token_usage payload) [];
            context_tokens := raw_context_tokens payload;
            pii_redacted_text :=
              Some (nullish
                      (orElse (raw_pii_redacted_text payload)
                         (orElse (raw_pii_raw_text payload) (raw_final_text payload)))
                      "");
            pii_raw_text := raw_pii_raw_text payload;
            pii_fields := ensureStringArray (raw_pii_fields payload) |};
       created_at := createdAt |}.

(** [fetchTimeline] and [submitPrompt] map the adapter over the batch. *)
Definition normalizeBatch (now : string) (raws : list RawEvent) : list TimelineEvent :=
  map (toTimelineEvent now) raws.

(** ** The console options ([/console/options]) *)

Record ConsoleScenarioOption := {
  scenario_option_id : string;
  scenario_option_label : string;
  model : string;
  use_rag : bool;
}.

Record ConsoleJudgeOption := {
  judge_option_id : string;
  judge_option_label : string;
  available : bool;
  judge_option_description : option string;
}.

Record ConsoleOptions := {
  scenarios : list ConsoleScenarioOption;
  judges : list ConsoleJudgeOption;
}.

Record ConsoleSubmitParams := {
  prompt : string;
  scenarioId : string;
  judgeId : string;
}.

End Api.

(* ===================================================================== *)
(** * The application state and its derived views ([App.tsx]) *)
(* ===================================================================== *)

Module App.

(** ** The live-event buffer ([streamEvents]) *)

(** The test of [prev.some(...)] in the stream's [onEvent] handler. *)
Definition sameLogicalEvent (existing event : TimelineEvent) : bool :=
  bool_decide (exchange_id existing = exchange_id event)
  && bool_decide (event_type existing = event_type event)
  && bool_decide (created_at existing = created_at event).

(** [next.slice(-n)]: the last [n] elements. *)
Definition slice_last {A} (n : nat) (l : list A) : list A :=
  drop (length l - n)%nat l.

(** The state updater of [onEvent]: one delivery of a stream event. *)
Definition onEvent (prev : list TimelineEvent) (event : TimelineEvent)
  : list TimelineEvent :=
  if existsb (fun existing => sameLogicalEvent existing event) prev then prev
  else
    let next := prev ++ [event] in
    if decide (500 < length next)%nat then slice_last 500 next else next.

(** The composite key [`${event_type}|${exchange_id}|${created_at}`]. *)
Definition event_key (event : TimelineEvent) : string :=
  event_type_name (event_type event) +:+ "|" +:+ exchange_id event
    +:+ "|" +:+ created_at event.

(** The closure [push] of [combinedEvents], with its two captured
    variables [seen] and [merged] made explicit. *)
Definition push (st : gset string * list TimelineEvent) (event : TimelineEvent)
  : gset string * list TimelineEvent :=
  let key := event_key event in
  if decide (key ∈ st.1) then st
  else ({[ key ]} ∪ st.1, st.2 ++ [event]).

(** The state updater of [handlePromptSubmit]: the events a console
    submission returned are appended to the buffer, skipping keys already
    present.  This path has no bound on the length. *)
Definition onSubmitResult (prev events : list TimelineEvent) : list TimelineEvent :=
  (foldl push (list_to_set (map event_key prev), prev) events).2.

(** Everything that writes [streamEvents]: a stream delivery, a console
    submission, and the resets on run change or on arrival of the
    historical batch. *)
Inductive BufferAction :=
  | Deliver (event : TimelineEvent)
  | SubmitResult (events : list TimelineEvent)
  | ResetBuffer.

Definition bufferStep (prev : list TimelineEvent) (a : BufferAction)
  : list TimelineEvent :=
  match a with
  | Deliver event => onEvent prev event
  | SubmitResult events => onSubmitResult prev events
  | ResetBuffer => []
  end.

(** ** Reconciliation ([combinedEvents], [orderedEvents]) *)

Definition combinedEvents (fetchedEvents streamEvents : list TimelineEvent)
  : list TimelineEvent :=
  (foldl push (foldl push (∅, []) fetchedEvents) streamEvents).2.

Section Ordering.

(** [new Date(s).getTime()]: the epoch milliseconds of a timestamp string,
    [None] standing for [NaN] (a string that is not a date).  The parser
    is the host's; the development is parametric in it. *)
Variable Date_getTime : string -> option Z.

(** The comparator [(a, b) => getTime(a) - getTime(b)]; [None] is [NaN]. *)
Definition compareCreatedAt (a b : TimelineEvent) : option Z :=
  match Date_getTime (created_at a), Date_getTime (created_at b) with
  | Some ta, Some tb => Some (ta - tb)
  | _, _ => None
  end.

(** [SortCompare] of ECMAScript: a comparator result of [NaN] counts as
    [+0]. *)
Definition sortCompare (a b : TimelineEvent) : Z :=
  default 0 (compareCreatedAt a b).

(** [Array.prototype.sort] is stable, so for a consistent comparator its
    result is the one stable ordering; insertion of each element before
    the first later element that does not precede it computes it.  The
    comparator is consistent when every created-at string is a date.
    When one is not, it compares as NaN with every other and ECMAScript
    leaves the order to the engine: the definition then gives one
    permutation of the array, and what is stated about the order of the
    events in general assumes that the dates parse. *)
Fixpoint insertSorted (x : TimelineEvent) (l : list TimelineEvent)
  : list TimelineEvent :=
  match l with
  | [] => [x]
  | y :: l' =>
      if decide (sortCompare x y <= 0) then x :: y :: l'
      else y :: insertSorted x l'
  end.

Definition array_sort (l : list TimelineEvent) : list TimelineEvent :=
  foldr insertSorted [] l.

(** [combinedEvents.slice().sort(...)]. *)
Definition orderedEvents (combined : list TimelineEvent) : list TimelineEvent :=
  array_sort combined.

(** The reconciliation merge of the two feeds. *)
Definition merge (historical live : list TimelineEvent) : list TimelineEvent :=
  orderedEvents (combinedEvents historical live).

End Ordering.

(** ** Facets and filters *)

(** [String.prototype.trim] strips white space and line terminators from
    both ends: the code points U+0009 to U+000D, U+0020, U+00A0, U+1680,
    U+2000 to U+200A, U+2028, U+2029, U+202F, U+205F, U+3000 and U+FEFF.
    In UTF-8 text each of them is one of the byte sequences below, and a
    text starts (ends) with the character exactly when it starts (ends)
    with the sequence. *)
Definition utf8 (bytes : list N) : string :=
  String.string_of_list_ascii (ascii_of_N <$> bytes).

Definition whiteSpace : list string :=
  utf8 <$> [ [9%N]; [10%N]; [11%N]; [12%N]; [13%N]; [32%N];
             [194%N; 160%N];
             [225%N; 154%N; 128%N];
             [226%N; 128%N; 128%N]; [226%N; 128%N; 129%N]; [226%N; 128%N; 130%N];
             [226%N; 128%N; 131%N]; [226%N; 128%N; 132%N]; [226%N; 128%N; 133%N];
             [226%N; 128%N; 134%N]; [226%N; 128%N; 135%N]; [226%N; 128%N; 136%N];
             [226%N; 128%N; 137%N]; [226%N; 128%N; 138%N];
             [226%N; 128%N; 168%N]; [226%N; 128%N; 169%N]; [226%N; 128%N; 175%N];
             [226%N; 129%N; 159%N];
             [227%N; 128%N; 128%N];
             [239%N; 187%N; 191%N] ].

(** [s] without its start [w], when it starts with [w]. *)
Fixpoint dropPrefix (w s : string) : option string :=
  match w, s with
  | EmptyString, _ => Some s
  | String a w', String b s' => if Ascii.eqb a b then dropPrefix w' s' else None
  | String _ _, EmptyString => None
  end.

(** [s] without the member of [ws] it starts with, when there is one. *)
Fixpoint stripFirst (ws : list string) (s : string) : option string :=
  match ws with
  | [] => None
  | w :: ws' =>
      match dropPrefix w s with
      | Some rest => Some rest
      | None => stripFirst ws' s
      end
  end.

(** [s] without the members of [ws] it starts with, one after the other;
    [fuel] bounds their number, and the length of [s] is enough. *)
Fixpoint stripAll (fuel : nat) (ws : list string) (s : string) : string :=
  match fuel with
  | O => s
  | S fuel' =>
      match stripFirst ws s with
      | Some rest => stripAll fuel' ws rest
      | None => s
      end
  end.

Definition trimStart (s : string) : string :=
  stripAll (String.length s) whiteSpace s.

Definition trimEnd (s : string) : string :=
  String.rev (stripAll (String.length s) (String.rev <$> whiteSpace) (String.rev s)).

Definition trim (s : string) : string := trimEnd (trimStart s).

(** The category [exchangeQuestionCategory] stores for a response event:
    [rawCategory && rawCategory.trim().length > 0 ? rawCategory
     : 'Uncategorized']. *)
Definition questionCategoryOf (event : TimelineEvent) : string :=
  match payload_question_category (payload event) with
  | Some rawCategory =>
      if decide (rawCategory = "") then "Uncategorized"
      else if decide (trim rawCategory = "") then "Uncategorized"
      else rawCategory
  | None => "Uncategorized"
  end.

Definition exchangeQuestionCategory (ordered : list TimelineEvent)
  : gmap string string :=
  foldl (fun (m : gmap string string) event =>
           if decide (event_type event = llm_response)
           then <[ exchange_id event := questionCategoryOf event ]> m
           else m)
        ∅ ordered.

(** [payload.violation?.category?.trim() || 'policy_violation']. *)
Definition violationCategoryOf (event : TimelineEvent) : string :=
  match payload_violation (payload event) with
  | Some v =>
      if decide (trim (category v) = "") then "policy_violation"
      else trim (category v)
  | None => "policy_violation"
  end.

Definition exchangeViolationCategories (ordered : list TimelineEvent)
  : gmap string (gset string) :=
  foldl (fun (m : gmap string (gset string)) event =>
           if decide (event_type event = judge_verdict)
           then
             let m' := match m !! exchange_id event with
                       | Some _ => m
                       | None => <[ exchange_id event := ∅ ]> m
                       end in
             alter (fun s => {[ violationCategoryOf event ]} ∪ s)
                   (exchange_id event) m'
           else m)
        ∅ ordered.

(** The callback of [orderedEvents.filter] in [filteredEvents]. *)
Definition eventPasses
    (questionMap : gmap string string)
    (violationMap : gmap string (gset string))
    (selectedQuestionCategories selectedViolationCategories : gset string)
    (event : TimelineEvent) : bool :=
  let questionActive := bool_decide (0 < size selectedQuestionCategories)%nat in
  let violationActive := bool_decide (0 < size selectedViolationCategories)%nat in
  let questionMatches :=
    negb questionActive ||
    match questionMap !! exchange_id event with
    | Some questionCategory =>
        if decide (questionCategory = "") then false
        else bool_decide (questionCategory ∈ selectedQuestionCategories)
    | None => false
    end in
  let violationMatches :=
    negb violationActive ||
    match violationMap !! exchange_id event with
    | Some violationSet =>
        existsb (fun category => bool_decide (category ∈ selectedViolationCategories))
                (elements violationSet)
    | None => false
    end in
  questionMatches && violationMatches.

Definition filteredEvents (ordered : list TimelineEvent)
    (selectedQuestionCategories selectedViolationCategories : gset string)
  : list TimelineEvent :=
  let questionActive := bool_decide (0 < size selectedQuestionCategories)%nat in
  let violationActive := bool_decide (0 < size selectedViolationCategories)%nat in
  if negb questionActive && negb violationActive then ordered
  else
    List.filter
      (eventPasses (exchangeQuestionCategory ordered)
                   (exchangeViolationCategories ordered)
                   selectedQuestionCategories selectedViolationCategories)
      ordered.

(** The playback window: the events up to the clamped playback index. *)
Definition activeEvents (filtered : list TimelineEvent) (playbackIndex : Z)
  : list TimelineEvent :=
  if decide (length filtered = 0%nat) then []
  else
    let clampedIndex :=
      Z.min (Z.max playbackIndex (-1)) (Z.of_nat (length filtered) - 1) in
    if decide (clampedIndex < 0) then []
    else take (Z.to_nat (clampedIndex + 1)) filtered.

(** [showAllTurns ? activeEvents : activeEvents.slice(-1)]: what the
    timeline is given. *)
Definition displayEvents (active : list TimelineEvent) (showAllTurns : bool)
  : list TimelineEvent :=
  if showAllTurns then active else slice_last 1 active.

(** ** The playback controller *)

(** The three pieces of React state the playback handlers write; the
    speed is a fourth one, written by [handleSpeedChange] alone. *)
Record Playback := {
  playbackIndex : Z;
  isPlaying : bool;
  showAllTurns : bool;
}.

(** Each handler closes over [filteredEvents.length], here [len]. *)
Definition handlePlay (len : nat) (s : Playback) : Playback :=
  if decide (len = 0%nat) then s
  else
    {| isPlaying := true;
       showAllTurns := false;
       playbackIndex :=
         if decide (playbackIndex s >= Z.of_nat len - 1 \/ playbackIndex s < 0)
         then 0 else playbackIndex s |}.

Definition handlePause (s : Playback) : Playback :=
  {| isPlaying := false;
     showAllTurns := showAllTurns s;
     playbackIndex := playbackIndex s |}.

Definition handleStepForward (len : nat) (s : Playback) : Playback :=
  if decide (len = 0%nat) then s
  else
    {| isPlaying := false;
       showAllTurns := false;
       playbackIndex := Z.min (playbackIndex s + 1) (Z.of_nat len - 1) |}.

Definition handleStepBack (len : nat) (s : Playback) : Playback :=
  if decide (len = 0%nat) then s
  else
    {| isPlaying := false;
       showAllTurns := false;
       playbackIndex := Z.max (playbackIndex s - 1) (-1) |}.

Definition handleReset (s : Playback) : Playback :=
  {| isPlaying := false; playbackIndex := -1; showAllTurns := false |}.

Definition handleShowAll (len : nat) (s : Playback) : Playback :=
  if showAllTurns s then
    {| isPlaying := false; showAllTurns := false;
       playbackIndex := playbackIndex s |}
  else
    {| isPlaying := false; showAllTurns := true;
       playbackIndex := Z.of_nat len - 1 |}.

Definition handleScrub (len : nat) (index : Z) (s : Playback) : Playback :=
  if decide (len = 0%nat) then s
  else
    let clamped := Z.min (Z.max index 0) (Z.of_nat len - 1) in
    {| playbackIndex := clamped; isPlaying := false; showAllTurns := false |}.

(** The effect keyed on [filteredEvents.length]: it runs when that length
    has changed, with the new length [len]. *)
Definition lengthEffect (len : nat) (s : Playback) : Playback :=
  if decide (len = 0%nat) then
    {| playbackIndex := -1; isPlaying := false;
       showAllTurns := showAllTurns s |}
  else
    {| playbackIndex :=
         if decide (playbackIndex s < 0) then Z.of_nat len - 1
         else Z.min (playbackIndex s) (Z.of_nat len - 1);
       isPlaying := isPlaying s;
       showAllTurns := showAllTurns s |}.

(** The calls the claims on clamping range over. *)
Inductive PlaybackCall :=
  | Scrub (index : Z)
  | StepForward
  | StepBack.

Definition playbackCall (len : nat) (s : Playback) (c : PlaybackCall) : Playback :=
  match c with
  | Scrub i => handleScrub len i s
  | StepForward => handleStepForward len s
  | StepBack => handleStepBack len s
  end.

(** [clamp(x, lo, hi)] as the sources write it:
    [Math.min(Math.max(x, lo), hi)]. *)
Definition clamp (x lo hi : Z) : Z := Z.min (Z.max x lo) hi.

(** ** Metrics *)

(** A counter or an array length as a JavaScript number (exact below
    2^53). *)
Definition number_of_Z (z : Z) : float := PrimFloat.of_uint63 (Uint63.of_Z z).

(** The literal [0.4]: the binary64 number nearest to four tenths. *)
Definition point_four : float := 0x1.999999999999ap-2%float.

(** [`${Math.round(x)}`].  [Math.round] gives the integer nearest to [x],
    the larger one on a tie; an integer prints in decimal (below 10^21). *)
Definition roundedToString (x : float) : string :=
  match Prim2SF x with
  | S754_nan => "NaN"
  | S754_infinity s => if s then "-Infinity" else "Infinity"
  | S754_zero _ => "0"
  | S754_finite s m e =>
      let v := if s then Z.neg m else Z.pos m in
      let n := if decide (0 <= e) then v * 2 ^ e
               else (2 * v + 2 ^ (- e)) `div` (2 * 2 ^ (- e)) in
      NilZero.string_of_int (Z.to_int n)
  end.

(** The three counters of the [judgeEvents.forEach] loop. *)
Record VerdictCounts := {
  allowCount : Z;
  warnCount : Z;
  blockCount : Z;
}.

Definition countVerdict (c : VerdictCounts) (event : TimelineEvent) : VerdictCounts :=
  let verdict := payload_verdict (payload event) in
  if decide (verdict = Some "allow") then
    {| allowCount := allowCount c + 1; warnCount := warnCount c;
       blockCount := blockCount c |}
  else if decide (verdict = Some "warn") then
    {| allowCount := allowCount c; warnCount := warnCount c + 1;
       blockCount := blockCount c |}
  else if decide (verdict = Some "block") then
    {| allowCount := allowCount c; warnCount := warnCount c;
       blockCount := blockCount c + 1 |}
  else c.

(** The two metrics of [metrics] that depend on verdicts. *)
Record VerdictMetrics := {
  judgeAgreement : string;
  violationCount : Z;
}.

Definition metrics (active : list TimelineEvent) : VerdictMetrics :=
  let judgeEvents :=
    List.filter (fun event => bool_decide (event_type event = judge_verdict)) active in
  let totalJudge := Z.of_nat (length judgeEvents) in
  let counts :=
    foldl countVerdict {| allowCount := 0; warnCount := 0; blockCount := 0 |}
          judgeEvents in
  let weightedAgreement :=
    (number_of_Z (allowCount counts) + number_of_Z (warnCount counts) * point_four)%float in
  {| judgeAgreement :=
       if decide (totalJudge = 0) then "pending"
       else roundedToString ((weightedAgreement / number_of_Z totalJudge) * 100)%float
              +:+ "%";
     violationCount := warnCount counts + blockCount counts |}.

(** ** Live runs *)

(** [tags?.[key]]: the value of a tag, if the run has it. *)
Definition tagValue (key : string) (tags : list (string * string)) : option string :=
  snd <$> List.find (fun kv => bool_decide (kv.1 = key)) tags.

(** [String.prototype.toLowerCase] on the letters A to Z. *)
Definition lowerChar (c : ascii) : ascii :=
  let n := nat_of_ascii c in
  if ((65 <=? n)%nat && (n <=? 90)%nat)%bool then ascii_of_nat (n + 32) else c.

Fixpoint toLowerCase (s : string) : string :=
  match s with
  | EmptyString => EmptyString
  | String c s' => String (lowerChar c) (toLowerCase s')
  end.

(** [(run.tags?.ui_live ?? '').toLowerCase() === 'true']: the run is
    flagged live. *)
Definition isLiveRun (currentRun : RunMetadata) : bool :=
  bool_decide (toLowerCase (default "" (tagValue "ui_live" (tags currentRun))) = "true").

(** ** The reveal request ([handleRevealRequest], [recordReveal]) *)

Inductive RevealField := field_llm_response | field_judge_rationale.

Record RevealDetails := {
  rd_exchangeId : string;
  rd_field : RevealField;
}.

(** One [POST /reveal]: the audit call. *)
Record AuditCall := {
  ac_runId : string;
  ac_exchangeId : string;
  ac_field : RevealField;
}.

(** What a reveal callback does: the audit calls it issued, and the
    message of the error it threw, if it threw. *)
Definition RevealOutcome : Type := list AuditCall * option string.

(** Truthiness of a [string | null]. *)
Definition truthy (s : option string) : bool :=
  match s with
  | Some s => negb (bool_decide (s = ""))
  | None => false
  end.

(** [handleRevealRequest]; [backend call] is the error [recordReveal]
    throws for that call ([None]: the backend answered 2xx). *)
Definition handleRevealRequest
    (selectedRunId : option string) (usingDemoData : bool)
    (backend : AuditCall -> option string)
    (details : RevealDetails) : RevealOutcome :=
  match selectedRunId with
  | Some runId =>
      if negb (truthy selectedRunId) || usingDemoData
      then ([], Some "Reveal logging unavailable in demo mode")
      else
        let call := {| ac_runId := runId;
                       ac_exchangeId := rd_exchangeId details;
                       ac_field := rd_field details |} in
        ([call], backend call)
  | None => ([], Some "Reveal logging unavailable in demo mode")
  end.

(** The [allowReveal] property the timeline is rendered with. *)
Definition allowRevealProp (selectedRunId : option string) (usingDemoData : bool)
  : bool :=
  negb usingDemoData && truthy selectedRunId.

(** ** The pills of the filter panel *)

(** The state updaters [App] hands to the panel as [onToggleQuestion] and
    [onToggleViolation]: a copy of the set with the category removed when
    it was there, added when it was not. *)
Definition onToggleQuestion (category : string) (prev : gset string) : gset string :=
  if decide (category ∈ prev) then prev ∖ {[ category ]} else {[ category ]} ∪ prev.

Definition onToggleViolation (category : string) (prev : gset string) : gset string :=
  if decide (category ∈ prev) then prev ∖ {[ category ]} else {[ category ]} ∪ prev.

Definition activeFilterCount
    (selectedQuestionCategories selectedViolationCategories : gset string) : nat :=
  (size selectedQuestionCategories + size selectedViolationCategories)%nat.

(** [Array.prototype.sort()] without a comparator, on strings: ascending
    order of their UTF-16 code units, an equal start before its extensions.
    The code points of a UTF-8 text are read off its bytes, one to four
    bytes each; a byte that starts no sequence counts for itself (the text
    of a JavaScript string holds none).  A code point below 65536 is one
    code unit, a higher one is a pair of surrogates, which sorts before the
    code points U+E000 to U+FFFF. *)
Definition continuation (b : N) : bool := ((128 <=? b) && (b <? 192))%N.

Fixpoint codePoints (bytes : list N) : list N :=
  match bytes with
  | [] => []
  | b0 :: l1 =>
      if (b0 <? 128)%N then b0 :: codePoints l1
      else
        match l1 with
        | b1 :: l2 =>
            if ((192 <=? b0) && (b0 <? 224) && continuation b1)%N
            then ((b0 - 192) * 64 + (b1 - 128))%N :: codePoints l2
            else
              match l2 with
              | b2 :: l3 =>
                  if ((224 <=? b0) && (b0 <? 240) && continuation b1 && continuation b2)%N
                  then ((b0 - 224) * 4096 + (b1 - 128) * 64 + (b2 - 128))%N
                       :: codePoints l3
                  else
                    match l3 with
                    | b3 :: l4 =>
                        if ((240 <=? b0) && (b0 <? 248) && continuation b1
                            && continuation b2 && continuation b3)%N
                        then ((b0 - 240) * 262144 + (b1 - 128) * 4096
                              + (b2 - 128) * 64 + (b3 - 128))%N :: codePoints l4
                        else b0 :: codePoints l1
                    | [] => b0 :: codePoints l1
                    end
              | [] => b0 :: codePoints l1
              end
        | [] => [b0]
        end
  end.

Definition codeUnits (s : string) : list N :=
  codePoints (N_of_ascii <$> String.list_ascii_of_string s)
  ≫= fun cp => if (cp <? 65536)%N then [cp]
               else [(55296 + (cp - 65536) / 1024)%N; (56320 + (cp - 65536) mod 1024)%N].

Fixpoint unitsLe (a b : list N) : bool :=
  match a, b with
  | [], _ => true
  | _ :: _, [] => false
  | x :: a', y :: b' => (x <? y)%N || ((x =? y)%N && unitsLe a' b')
  end.

Definition codeUnitLe (a b : string) : Prop := unitsLe (codeUnits a) (codeUnits b) = true.

#[global] Instance codeUnitLe_dec : RelDecision codeUnitLe.
Proof. intros a b. unfold codeUnitLe. apply _. Defined.

Definition sortStrings (l : list string) : list string := merge_sort codeUnitLe l.

(** The categories offered as pills: the truthy values of
    [exchangeQuestionCategory], each once, sorted.  The set does not depend
    on the order in which the map is walked. *)
Definition availableQuestionCategories (questionMap : gmap string string)
  : list string :=
  let unique : gset string :=
    list_to_set
      (List.filter (fun value => negb (bool_decide (value = "")))
                   (snd <$> map_to_list questionMap)) in
  sortStrings (elements unique).

Definition availableViolationCategories (violationMap : gmap string (gset string))
  : list string :=
  let unique : gset string := ⋃ (snd <$> map_to_list violationMap) in
  sortStrings (elements unique).

(** ** The playback window, continued *)

(** [showAllTurns ? activeEvents.length : Math.min(activeEvents.length, 1)]. *)
Definition displayedCount (active : list TimelineEvent) (showAllTurns : bool) : Z :=
  if showAllTurns then Z.of_nat (length active)
  else Z.min (Z.of_nat (length active)) 1.

(** The effect keyed on [selectedRunId] and [combinedEvents.length]: it
    puts the index on the last of the combined events. *)
Definition combinedLengthEffect (combinedLength : nat) (s : Playback) : Playback :=
  {| playbackIndex :=
       if decide (0 < combinedLength)%nat then Z.of_nat combinedLength - 1 else -1;
     isPlaying := false;
     showAllTurns := false |}.

(** The autoplay effect, keyed on [isPlaying], [playbackIndex],
    [filteredEvents.length] and [playbackSpeed].  Its body either does
    nothing, or stops the playback, or arms one timer; the boolean tells
    whether a timer is armed. *)
Definition autoplayEffect (len : nat) (s : Playback) : Playback * bool :=
  if negb (isPlaying s) then (s, false)
  else if decide (len = 0%nat) then
    ({| playbackIndex := playbackIndex s; isPlaying := false;
        showAllTurns := showAllTurns s |}, false)
  else if decide (playbackIndex s >= Z.of_nat len - 1) then
    ({| playbackIndex := playbackIndex s; isPlaying := false;
        showAllTurns := showAllTurns s |}, false)
  else (s, true).

(** The callback of that timer. *)
Definition autoplayTimer (len : nat) (s : Playback) : Playback :=
  {| playbackIndex := Z.min (playbackIndex s + 1) (Z.of_nat len - 1);
     isPlaying := isPlaying s;
     showAllTurns := showAllTurns s |}.

(** ** Safety findings ([safetyViolations]) *)

(** [ViolationDetail & { count: number }]. *)
Record ViolationSummary := {
  summary_violation : ViolationDetail;
  count : Z;
}.

(** The key of a finding: its five members joined with a bar. *)
Definition violationKey (violation : ViolationDetail) : string :=
  category violation +:+ "|" +:+ severity violation
    +:+ "|" +:+ default "" (violation_type violation)
    +:+ "|" +:+ default "" (clause_reference violation)
    +:+ "|" +:+ default "" (description violation).

(** The [Map] [summaries] keeps its entries in the order in which their
    keys were first set; it is an association list here. *)
Definition summaries_get (key : string) (summaries : list (string * ViolationSummary))
  : option ViolationSummary :=
  snd <$> List.find (fun entry => bool_decide (entry.1 = key)) summaries.

Fixpoint summaries_set (key : string) (value : ViolationSummary)
    (summaries : list (string * ViolationSummary))
  : list (string * ViolationSummary) :=
  match summaries with
  | [] => [(key, value)]
  | entry :: rest =>
      if decide (entry.1 = key) then (key, value) :: rest
      else entry :: summaries_set key value rest
  end.

(** One turn of [relevantEvents.forEach]. *)
Definition summarize (summaries : list (string * ViolationSummary))
    (event : TimelineEvent) : list (string * ViolationSummary) :=
  match payload_violation (payload event) with
  | None => summaries
  | Some violation =>
      let key := violationKey violation in
      match summaries_get key summaries with
      | Some existing =>
          summaries_set key
            {| summary_violation := summary_violation existing;
               count := count existing + 1 |} summaries
      | None =>
          summaries_set key {| summary_violation := violation; count := 1 |} summaries
      end
  end.

Definition relevantEvents (showAllTurns : bool)
    (activeEvents displayEvents : list TimelineEvent) : list TimelineEvent :=
  List.filter (fun event => bool_decide (event_type event = judge_verdict))
              (if showAllTurns then activeEvents else displayEvents).

(** The findings as [Array.from(summaries.values())] lists them.  The
    memo then reorders this array by severity and category; the order is
    not part of the model. *)
Definition summarizedViolations (showAllTurns : bool)
    (activeEvents displayEvents : list TimelineEvent) : list ViolationSummary :=
  snd <$> foldl summarize [] (relevantEvents showAllTurns activeEvents displayEvents).

(** ** The console options effect *)

(** The effect keyed on the console options and the two selections.  Its
    first half settles the selected scenario. *)
Definition scenarioOptionEffect (data : option Api.ConsoleOptions)
    (selectedScenarioOption : option string) : option string :=
  let scenarios := default [] (Api.scenarios <$> data) in
  match scenarios with
  | [] => selectedScenarioOption
  | first :: _ =>
      if negb (truthy selectedScenarioOption) then Some (Api.scenario_option_id first)
      else if negb (existsb (fun option =>
                       bool_decide (Some (Api.scenario_option_id option)
                                    = selectedScenarioOption)) scenarios)
      then Some (Api.scenario_option_id first)
      else selectedScenarioOption
  end.

(** Its second half settles the selected judge. *)
Definition judgeOptionEffect (data : option Api.ConsoleOptions)
    (selectedJudgeOption : option string) : option string :=
  let judges := default [] (Api.judges <$> data) in
  match judges with
  | [] => selectedJudgeOption
  | _ :: _ =>
      let currentJudgeValid :=
        if truthy selectedJudgeOption then
          existsb (fun option =>
                     bool_decide (Some (Api.judge_option_id option) = selectedJudgeOption)
                     && Api.available option) judges
        else false in
      if currentJudgeValid then selectedJudgeOption
      else
        let fallback :=
          Api.orElse
            (List.find (fun option => bool_decide (Api.judge_option_id option = "none"))
                       judges)
            (Api.orElse (List.find Api.available judges) (head judges)) in
        match fallback with
        | Some option => Some (Api.judge_option_id option)
        | None => selectedJudgeOption
        end
  end.

End App.

(* ===================================================================== *)
(** * The timeline view ([features/timeline/Timeline.tsx]) *)
(* ===================================================================== *)

Module Timeline.

(** ** The exchange grouper *)

Record TurnGroup := {
  exchangeId : string;
  turnIndex : Z;
  createdAt : string;
  tg_run : RunMetadata;
  userPrompt : option Payload;
  response : option Payload;
  judges : list Payload;
}.

(** The loop keeps every group object in two places, the array
    [collection] and the map [map], and mutates it through either.  The
    array is the store of the objects; the map holds, for an exchange id,
    the position of its object in the array. *)
Record Grouping := {
  collection : list TurnGroup;
  map : gmap string nat;
}.

Definition newGroup (event : TimelineEvent) : TurnGroup :=
  {| exchangeId := exchange_id event;
     turnIndex := turn_index event;
     createdAt := created_at event;
     tg_run := run event;
     userPrompt := None;
     response := None;
     judges := [] |}.

(** The mutations of [entry] one event makes. *)
Definition absorb (event : TimelineEvent) (entry : TurnGroup) : TurnGroup :=
  let stamped :=
    {| exchangeId := exchangeId entry; turnIndex := turnIndex entry;
       createdAt := created_at event; tg_run := tg_run entry;
       userPrompt := userPrompt entry; response := response entry;
       judges := judges entry |} in
  match event_type event with
  | user_prompt =>
      {| exchangeId := exchangeId stamped; turnIndex := turnIndex stamped;
         createdAt := createdAt stamped; tg_run := tg_run stamped;
         userPrompt := Some (payload event); response := response stamped;
         judges := judges stamped |}
  | llm_response =>
      {| exchangeId := exchangeId stamped; turnIndex := turnIndex stamped;
         createdAt := createdAt stamped; tg_run := tg_run stamped;
         userPrompt := userPrompt stamped; response := Some (payload event);
         judges := judges stamped |}
  | judge_verdict =>
      {| exchangeId := exchangeId stamped; turnIndex := turnIndex stamped;
         createdAt := createdAt stamped; tg_run := tg_run stamped;
         userPrompt := userPrompt stamped; response := response stamped;
         judges := judges stamped ++ [payload event] |}
  | _ => stamped
  end.

(** One turn of [events.forEach]. *)
Definition groupStep (g : Grouping) (event : TimelineEvent) : Grouping :=
  let '(slot, g1) :=
    match map g !! exchange_id event with
    | Some slot => (slot, g)
    | None =>
        (length (collection g),
         {| collection := collection g ++ [newGroup event];
            map := <[ exchange_id event := length (collection g) ]> (map g) |})
    end in
  {| collection := alter (absorb event) slot (collection g1);
     map := map g1 |}.

Definition groups (events : list TimelineEvent) : list TurnGroup :=
  collection (foldl groupStep {| collection := []; map := ∅ |} events).

(** [liveMode]: some group belongs to a run flagged live. *)
Definition liveMode (gs : list TurnGroup) : bool :=
  existsb (fun group => App.isLiveRun (tg_run group)) gs.

(** ** The reveal handler *)

Record RevealFlags := {
  rf_response : bool;
  rf_rationale : bool;
}.

(** The three reveal maps of the component, each keyed by exchange id. *)
Record RevealState := {
  revealedMap : gmap string RevealFlags;
  revealErrors : gmap string (option string);
  pendingReveal : gmap string bool;
}.

Record TimelineProps := {
  allowReveal : bool;
  onReveal : option (App.RevealDetails -> App.RevealOutcome);
}.

Definition setError (id : string) (msg : option string) (st : RevealState)
  : RevealState :=
  {| revealedMap := revealedMap st;
     revealErrors := <[ id := msg ]> (revealErrors st);
     pendingReveal := pendingReveal st |}.

Definition setPending (id : string) (b : bool) (st : RevealState) : RevealState :=
  {| revealedMap := revealedMap st;
     revealErrors := revealErrors st;
     pendingReveal := <[ id := b ]> (pendingReveal st) |}.

(** [{ ...(prev[id] ?? {}), response: true }]. *)
Definition setResponseRevealed (id : string) (st : RevealState) : RevealState :=
  {| revealedMap :=
       <[ id := {| rf_response := true;
                   rf_rationale :=
                     match revealedMap st !! id with
                     | Some f => rf_rationale f
                     | None => false
                     end |} ]> (revealedMap st);
     revealErrors := revealErrors st;
     pendingReveal := pendingReveal st |}.

(** [Boolean(revealedMap[id]?.response)]: the disclosed flag. *)
Definition isResponseRevealed (id : string) (st : RevealState) : bool :=
  match revealedMap st !! id with
  | Some f => rf_response f
  | None => false
  end.

(** [handleRevealResponse] of one group, run to the end of its [finally]
    block: the state it leaves and the audit calls issued on the way. *)
Definition handleRevealResponse
    (props : TimelineProps) (group : TurnGroup) (st : RevealState)
  : RevealState * list App.AuditCall :=
  let id := exchangeId group in
  match onReveal props with
  | None => (setError id (Some "Reveal logging unavailable.") st, [])
  | Some callback =>
      if negb (allowReveal props) then
        (setError id (Some "Reveals disabled in demo mode.") st, [])
      else
        match response group with
        | None => (setError id (Some "Model response not available yet.") st, [])
        | Some responsePayload =>
            if negb (App.truthy (payload_pii_raw_text responsePayload)) then
              (setError id (Some "Full response not available.") st, [])
            else
              let st1 := setPending id true st in
              let '(calls, thrown) :=
                callback {| App.rd_exchangeId := id;
                            App.rd_field := App.field_llm_response |} in
              let st2 :=
                match thrown with
                | None => setError id None (setResponseRevealed id st1)
                | Some _ =>
                    setError id (Some "Failed to log reveal. Please retry.") st1
                end in
              (setPending id false st2, calls)
        end
  end.

(** The timeline as [App] renders it: [allowReveal] and [onReveal] are
    computed from the same [selectedRunId] and [usingDemoData]. *)
Definition appTimelineProps
    (selectedRunId : option string) (usingDemoData : bool)
    (backend : App.AuditCall -> option string) : TimelineProps :=
  {| allowReveal := App.allowRevealProp selectedRunId usingDemoData;
     onReveal := Some (App.handleRevealRequest selectedRunId usingDemoData backend) |}.

(** ** What a card shows *)

(** [runKey]: the run of the first event, or 'none'.  The effect keyed on
    it empties the three reveal maps. *)
Definition runKey (events : list TimelineEvent) : string :=
  match events with
  | [] => "none"
  | event :: _ => run_id (run event)
  end.

Definition clearedRevealState : RevealState :=
  {| revealedMap := ∅; revealErrors := ∅; pendingReveal := ∅ |}.

(** That effect, on a render whose events are [events] when the key of
    the render before was [previousKey]. *)
Definition runKeyEffect (previousKey : string) (events : list TimelineEvent)
    (st : RevealState) : RevealState :=
  if decide (runKey events = previousKey) then st else clearedRevealState.

(** [Boolean(pendingReveal[id])]. *)
Definition isRevealPending (id : string) (st : RevealState) : bool :=
  default false (pendingReveal st !! id).

(** [responseText]: the raw text once the response is revealed, the
    redacted text before. *)
Definition responseText (group : TurnGroup) (st : RevealState) : string :=
  match response group with
  | Some responsePayload =>
      if isResponseRevealed (exchangeId group) st
         && App.truthy (payload_pii_raw_text responsePayload)
      then default "" (payload_pii_raw_text responsePayload)
      else default "Awaiting response…" (payload_pii_redacted_text responsePayload)
  | None => "Awaiting model response…"
  end.

(** [promptText]. *)
Definition promptText (group : TurnGroup) : string :=
  default "Awaiting submission…"
    (Api.orElse (userPrompt group ≫= payload_prompt_redacted)
       (Api.orElse (userPrompt group ≫= payload_prompt_text)
          (response group ≫= payload_prompt_preview))).

(** [questionCategory]: the chip of the user card. *)
Definition questionCategory (group : TurnGroup) : option string :=
  Api.orElse (userPrompt group ≫= payload_question_category)
             (response group ≫= payload_question_category).

(** [primaryJudge]: the last verdict of the group; [severity] is its
    verdict. *)
Definition primaryJudge (group : TurnGroup) : option Payload := last (judges group).

Definition severity (group : TurnGroup) : option string :=
  primaryJudge group ≫= payload_verdict.

Definition judgeTone (group : TurnGroup) : string :=
  if decide (severity group = Some "block")
  then "border-compliance-block/70 bg-compliance-block/15"
  else if decide (severity group = Some "warn")
  then "border-compliance-warn/60 bg-compliance-warn/10"
  else "border-gray-100 bg-white".

(** ** The stages of a card *)

(** The stage of an exchange: 0 while only the query is lit, 1 once the
    response is, 2 once the verdict is.  The component keeps the stages
    twice, in the state [stageMap] and in the ref [stageRef], and keeps
    two sets of exchanges for which a timer is on its way.

    [stageMap] and [stageRef] are plain objects, read with [stages[id]]
    and written with [stages[id] = n] or [{ ...prev, [id]: n }].  The maps
    below hold their own properties.  For an exchange id that is the name
    of a property of [Object.prototype] a read of the source sees the
    inherited value where the map has none, and an assignment to
    '__proto__' is swallowed by the accessor: for these ids, which
    [ownKey] rules out, the readings and writings below are not those of
    the source. *)
Definition objectPrototypeKeys : list string :=
  [ "__proto__"; "constructor"; "hasOwnProperty"; "isPrototypeOf";
    "propertyIsEnumerable"; "toLocaleString"; "toString"; "valueOf";
    "__defineGetter__"; "__defineSetter__"; "__lookupGetter__";
    "__lookupSetter__" ].

Definition ownKey (id : string) : bool :=
  negb (bool_decide (id ∈ objectPrototypeKeys)).

Record StageState := {
  stageMap : gmap string Z;
  stageRef : gmap string Z;
  pendingStageRef : gset string;
  pendingJudgeRef : gset string;
}.

(** What the effect keyed on [runKey] leaves of it. *)
Definition clearedStageState : StageState :=
  {| stageMap := ∅; stageRef := ∅; pendingStageRef := ∅; pendingJudgeRef := ∅ |}.

(** A call of [setTimeout]: which of the two callbacks, for which
    exchange, after how many milliseconds. *)
Inductive TimerKind := ResponseTimer | JudgeTimer.

Record Timer := {
  timer_kind : TimerKind;
  timer_id : string;
  timer_delay : Z;
}.

(** [stageRef.current[id] ?? 0]. *)
Definition stageOr0 (stages : gmap string Z) (id : string) : Z :=
  default 0 (stages !! id).

(** One turn of [groups.forEach] when [liveMode] is off. *)
Definition settleGroup (st : StageState) (group : TurnGroup) : StageState :=
  {| stageMap := <[ exchangeId group := 2 ]> (stageMap st);
     stageRef := <[ exchangeId group := 2 ]> (stageRef st);
     pendingStageRef := pendingStageRef st;
     pendingJudgeRef := pendingJudgeRef st |}.

(** One turn of [groups.forEach((group, index) => ...)] when [liveMode]
    is on, on the state and the array [timers]. *)
Definition armGroup (acc : StageState * list Timer) (indexed : nat * TurnGroup)
  : StageState * list Timer :=
  let '(st, timers) := acc in
  let '(index, group) := indexed in
  let id := exchangeId group in
  let baseDelay := 260 + Z.of_nat index * 120 in
  let hasResponse := bool_decide (is_Some (response group)) in
  let hasJudgeVerdict := bool_decide (0 < length (judges group))%nat in
  let st1 :=
    match stageRef st !! id with
    | None =>
        {| stageMap := <[ id := 0 ]> (stageMap st);
           stageRef := <[ id := 0 ]> (stageRef st);
           pendingStageRef := pendingStageRef st;
           pendingJudgeRef := pendingJudgeRef st |}
    | Some _ => st
    end in
  let '(st2, timers2) :=
    if hasResponse && bool_decide (stageOr0 (stageRef st1) id < 1)
       && negb (bool_decide (id ∈ pendingStageRef st1))
    then
      ({| stageMap := stageMap st1; stageRef := stageRef st1;
          pendingStageRef := {[ id ]} ∪ pendingStageRef st1;
          pendingJudgeRef := pendingJudgeRef st1 |},
       timers ++ [{| timer_kind := ResponseTimer; timer_id := id;
                     timer_delay := baseDelay |}])
    else (st1, timers) in
  if hasJudgeVerdict && bool_decide (stageOr0 (stageRef st2) id < 2)
     && negb (bool_decide (id ∈ pendingJudgeRef st2))
  then
    ({| stageMap := stageMap st2; stageRef := stageRef st2;
        pendingStageRef := pendingStageRef st2;
        pendingJudgeRef := {[ id ]} ∪ pendingJudgeRef st2 |},
     timers2 ++ [{| timer_kind := JudgeTimer; timer_id := id;
                    timer_delay := baseDelay + 320 |}])
  else (st2, timers2).

(** The body of the effect keyed on [groups] and [liveMode]: the state it
    leaves and the timers it has armed.  Its cleanup clears these
    timers. *)
Definition stageEffect (groups : list TurnGroup) (liveMode : bool) (st : StageState)
  : StageState * list Timer :=
  match groups with
  | [] => (st, [])
  | _ :: _ =>
      if negb liveMode then
        let settled := foldl settleGroup st groups in
        ({| stageMap := stageMap settled; stageRef := stageRef settled;
            pendingStageRef := ∅; pendingJudgeRef := ∅ |}, [])
      else foldl armGroup (st, []) (imap (fun index group => (index, group)) groups)
  end.

(** The callback of a timer. *)
Definition timerCallback (timer : Timer) (st : StageState) : StageState :=
  let id := timer_id timer in
  match timer_kind timer with
  | ResponseTimer =>
      let nextStage := Z.max (stageOr0 (stageRef st) id) 1 in
      {| stageMap :=
           match stageMap st !! id with
           | Some existing =>
               if decide (existing >= nextStage) then stageMap st
               else <[ id := nextStage ]> (stageMap st)
           | None => <[ id := nextStage ]> (stageMap st)
           end;
         stageRef := <[ id := nextStage ]> (stageRef st);
         pendingStageRef := pendingStageRef st ∖ {[ id ]};
         pendingJudgeRef := pendingJudgeRef st |}
  | JudgeTimer =>
      {| stageMap :=
           match stageMap st !! id with
           | Some existing =>
               if decide (existing >= 2) then stageMap st
               else <[ id := 2 ]> (stageMap st)
           | None => <[ id := 2 ]> (stageMap st)
           end;
         stageRef := <[ id := 2 ]> (stageRef st);
         pendingStageRef := pendingStageRef st;
         pendingJudgeRef := pendingJudgeRef st ∖ {[ id ]} |}
  end.

(** [stage]: what the card of a group is drawn with. *)
Definition stage (group : TurnGroup) (liveMode : bool) (st : StageState) : Z :=
  default (if liveMode then 0 else 2) (stageMap st !! exchangeId group).

Definition llmStageClass (stage : Z) : string :=
  if decide (stage < 1) then "opacity-45 saturate-75"
  else if decide (stage = 1)
  then "ring-2 ring-primary-400/70 shadow-lg shadow-primary-300/40"
  else "border-primary-100 bg-primary-50/50 shadow-primary-200/30".

Definition judgeStageClass (stage : Z) : string :=
  if decide (stage < 2) then "opacity-45 saturate-75"
  else "ring-2 ring-compliance-safe/60 shadow-lg shadow-compliance-safe/30".

End Timeline.

(* ===================================================================== *)
(** * The playback controls ([features/timeline/PlaybackControls.tsx]) *)
(* ===================================================================== *)

Module PlaybackControls.

(** What the component derives from [totalEvents], [playbackIndex] and
    [isPlaying]: the slider and the [disabled] attribute of each button. *)
Definition disabled (totalEvents : nat) : bool := bool_decide (totalEvents = 0%nat).

Definition sliderValue (totalEvents : nat) (playbackIndex : Z) : Z :=
  if decide (totalEvents = 0%nat) then 0 else Z.max playbackIndex 0.

Definition sliderMax (totalEvents : nat) : Z :=
  if decide (totalEvents = 0%nat) then 0 else Z.of_nat totalEvents - 1.

Definition playDisabled (totalEvents : nat) (isPlaying : bool) : bool :=
  disabled totalEvents || isPlaying.

Definition pauseDisabled (totalEvents : nat) (isPlaying : bool) : bool :=
  disabled totalEvents || negb isPlaying.

Definition stepBackDisabled (totalEvents : nat) (playbackIndex : Z) : bool :=
  disabled totalEvents || bool_decide (playbackIndex <= -1).

Definition stepForwardDisabled (totalEvents : nat) (playbackIndex : Z) : bool :=
  disabled totalEvents || bool_decide (playbackIndex >= Z.of_nat totalEvents - 1).

End PlaybackControls.

(* ===================================================================== *)
(** * The filter panel ([features/filters/FilterPanel.tsx]) *)
(* ===================================================================== *)

Module FilterPanel.

(** The pills of one section: [categories.map(category =>
    renderPill(category, selected.has(category), ...))], each pill with
    its label and whether it is drawn active. *)
Definition pills (categories : list string) (selected : gset string)
  : list (string * bool) :=
  (fun category => (category, bool_decide (category ∈ selected))) <$> categories.

(** The 'Clear all' button is rendered. *)
Definition clearAllShown
    (selectedQuestionCategories selectedViolationCategories : gset string) : bool :=
  bool_decide (0 < size selectedQuestionCategories)%nat
  || bool_decide (0 < size selectedViolationCategories)%nat.

End FilterPanel.

(* ===================================================================== *)
(** * The live console ([features/console/LiveConsole.tsx]) *)
(* ===================================================================== *)

Module LiveConsole.

(** The two pieces of state of the form. *)
Record ConsoleState := {
  prompt : string;
  status : option string;
}.

(** [judgeOption]: the first listed judge with the selected id. *)
Definition judgeOption (options : option Api.ConsoleOptions)
    (selectedJudgeId : option string) : option Api.ConsoleJudgeOption :=
  options ≫= fun o =>
    List.find (fun option =>
                 bool_decide (Some (Api.judge_option_id option) = selectedJudgeId))
              (Api.judges o).

(** [canSubmit]; the send button is disabled when it is false. *)
Definition canSubmit (options : option Api.ConsoleOptions)
    (selectedScenarioId selectedJudgeId : option string) : bool :=
  App.truthy selectedScenarioId && App.truthy selectedJudgeId
  && match judgeOption options selectedJudgeId with
     | None => true
     | Some option =>
         bool_decide (Api.judge_option_id option = "none") || Api.available option
     end.

(** [handleSubmit], run to its end: the state it leaves and the calls of
    [onSubmit] it made.  [onSubmit params] is the error the call threw
    ([None]: it resolved). *)
Definition handleSubmit (options : option Api.ConsoleOptions)
    (selectedScenarioId selectedJudgeId : option string)
    (onSubmit : Api.ConsoleSubmitParams -> option string)
    (st : ConsoleState) : ConsoleState * list Api.ConsoleSubmitParams :=
  let noScenario :=
    ({| prompt := prompt st; status := Some "Select a base LLM before sending." |}, []) in
  let noJudge :=
    ({| prompt := prompt st; status := Some "Select a judge option before sending." |}, []) in
  if decide (App.trim (prompt st) = "") then (st, [])
  else
    match selectedScenarioId with
    | None => noScenario
    | Some scenarioId =>
        if negb (App.truthy selectedScenarioId)
           || negb (match options with
                    | Some o =>
                        existsb (fun option =>
                                   bool_decide (Api.scenario_option_id option = scenarioId))
                                (Api.scenarios o)
                    | None => false
                    end)
        then noScenario
        else
          match selectedJudgeId with
          | None => noJudge
          | Some judgeId =>
              if negb (App.truthy selectedJudgeId) then noJudge
              else
                let params :=
                  {| Api.prompt := prompt st; Api.scenarioId := scenarioId;
                     Api.judgeId := judgeId |} in
                match onSubmit params with
                | None =>
                    ({| prompt := ""; status := Some "Submitted for evaluation" |},
                     [params])
                | Some _ =>
                    ({| prompt := prompt st; status := Some "Failed to submit prompt" |},
                     [params])
                end
          end
    end.

End LiveConsole.

(* ===================================================================== *)
(** * Concrete dates and sample events *)
(* ===================================================================== *)

Module IsoDate.

(** The one form of timestamp every host parses alike: the full UTC form
    [YYYY-MM-DDTHH:mm:ss.sssZ] of the ECMAScript date-time string format,
    which is also what [toISOString] prints.  Any other string is taken as
    not a date here. *)

Definition digit (c : ascii) : option Z :=
  let n := nat_of_ascii c in
  if ((48 <=? n)%nat && (n <=? 57)%nat)%bool then Some (Z.of_nat n - 48) else None.

Fixpoint number (n : nat) (acc : Z) (s : string) : option (Z * string) :=
  match n with
  | O => Some (acc, s)
  | S n' =>
      match s with
      | String c s' => d ← digit c; number n' (10 * acc + d) s'
      | EmptyString => None
      end
  end.

Definition expect (c : ascii) (s : string) : option string :=
  match s with
  | String c' s' => if decide (c = c') then Some s' else None
  | EmptyString => None
  end.

Definition isLeap (y : Z) : bool :=
  ((y mod 4 =? 0) && negb (y mod 100 =? 0)) || (y mod 400 =? 0).

Definition daysInMonth (y m : Z) : Z :=
  if (m =? 2) then (if isLeap y then 29 else 28)
  else if (m =? 4) || (m =? 6) || (m =? 9) || (m =? 11) then 30
  else 31.

(** Days from 1970-01-01 to the given civil date. *)
Definition daysFromCivil (y m d : Z) : Z :=
  let y' := if m <=? 2 then y - 1 else y in
  let era := y' `div` 400 in
  let yoe := y' - era * 400 in
  let mp := (m + 9) `mod` 12 in
  let doy := (153 * mp + 2) `div` 5 + d - 1 in
  let doe := yoe * 365 + yoe `div` 4 - yoe `div` 100 + doy in
  era * 146097 + doe - 719468.

Definition getTime (s : string) : option Z :=
  '(year, s) ← number 4 0 s;
  s ← expect "-" s;
  '(month, s) ← number 2 0 s;
  s ← expect "-" s;
  '(day, s) ← number 2 0 s;
  s ← expect "T" s;
  '(hour, s) ← number 2 0 s;
  s ← expect ":" s;
  '(minute, s) ← number 2 0 s;
  s ← expect ":" s;
  '(second, s) ← number 2 0 s;
  s ← expect "." s;
  '(ms, s) ← number 3 0 s;
  s ← expect "Z" s;
  if decide (s = "" /\ 1 <= month <= 12 /\ 1 <= day <= daysInMonth year month
             /\ hour <= 23 /\ minute <= 59 /\ second <= 59)
  then Some ((((daysFromCivil year month day * 24 + hour) * 60 + minute) * 60
              + second) * 1000 + ms)
  else None.

End IsoDate.

Module Samples.

Definition sampleRun : RunMetadata :=
  {| run_id := "run-1"; scenario_id := Some "A";
     started_at := "2024-01-01T00:00:00.000Z"; tags := [] |}.

Definition sampleSource : EventSource :=
  {| model_id := "unknown-model"; provider := "pipeline"; mode := None;
     metadata := [] |}.

(** A response event of the shape the adapter builds, for a backend
    event with no redacted text of its own. *)
Definition responseEvent (id created : string)
    (category rawText : option string) : TimelineEvent :=
  {| run := sampleRun; exchange_id := id; turn_index := 0;
     event_type := llm_response;
     payload := ResponsePayload
       {| lr_source := sampleSource; question_category := category;
          prompt_preview := None; completion_preview := None;
          lr_latency_ms := None; token_usage := []; context_tokens := None;
          pii_redacted_text := Some (default "" rawText);
          pii_raw_text := rawText;
          pii_fields := None |};
     created_at := created |}.

(** A verdict event of the shape the adapter builds. *)
Definition verdictEvent (id created verdict : string)
    (violation : option ViolationDetail) : TimelineEvent :=
  {| run := sampleRun; exchange_id := id; turn_index := 0;
     event_type := judge_verdict;
     payload := VerdictPayload
       {| jv_source := sampleSource; verdict := verdict; score := None;
          rationale_redacted := None; rationale_raw := None;
          violation := violation; jv_latency_ms := None |};
     created_at := created |}.

(** The decimal numeral of a natural number. *)
Definition decimal (n : nat) : string := NilEmpty.string_of_uint (Nat.to_uint n).

(** [n] response events of [n] different exchanges, all of one time. *)
Definition manyResponses (n : nat) : list TimelineEvent :=
  (fun i => responseEvent ("ex-" +:+ decimal i) "2024-01-01T00:00:00.000Z" None None)
    <$> seq 0 n.

End Samples.

(* ===================================================================== *)
(** * The vocabulary of the properties *)
(* ===================================================================== *)

(** The key of the claims: the triple the composite key is built from. *)
Definition logicalKey (e : TimelineEvent) : TimelineEventType * string * string :=
  (event_type e, exchange_id e, created_at e).

(** The first event of a list that has a given composite key. *)
Definition firstWithKey (k : string) (l : list TimelineEvent) : option TimelineEvent :=
  List.find (fun e => bool_decide (App.event_key e = k)) l.

(** The invariant of the [push] loop: [seen] holds exactly the keys of
    [merged], and no key occurs twice in [merged]. *)
Definition pushInv (st : gset string * list TimelineEvent) : Prop :=
  st.1 = list_to_set (App.event_key <$> st.2) /\ NoDup (App.event_key <$> st.2).

(** The time the comparator reads off an event, for a date parser of the
    host. *)
Definition timeOf (Date_getTime : string -> option Z) (e : TimelineEvent)
  : option Z :=
  Date_getTime (created_at e).

(** [a] is not later than [b], both having a time. *)
Definition notLater (Date_getTime : string -> option Z) (a b : TimelineEvent)
  : Prop :=
  exists ta tb,
    timeOf Date_getTime a = Some ta /\ timeOf Date_getTime b = Some tb /\ ta <= tb.

(** The invariant of the [push] loop that survives two different events
    with one composite key: every merged key is in [seen], and the merged
    events have pairwise distinct triples. *)
Definition pushInvLogical (st : gset string * list TimelineEvent) : Prop :=
  (forall e, e ∈ st.2 -> App.event_key e ∈ st.1) /\ NoDup (logicalKey <$> st.2).

(** No console submission among the actions. *)
Definition isSubmit (a : App.BufferAction) : bool :=
  match a with App.SubmitResult _ => true | _ => false end.

(** The distinct elements of a list, each at its first occurrence. *)
Fixpoint firstSeen (ids : list string) : list string :=
  match ids with
  | [] => []
  | x :: l => x :: filter (fun y => y ≠ x) (firstSeen l)
  end.

(** The events of one exchange, in the order of the input. *)
Definition eventsOf (id : string) (evs : list TimelineEvent) : list TimelineEvent :=
  filter (fun e => exchange_id e = id) evs.

(** The events of one kind. *)
Definition ofType (t : TimelineEventType) (evs : list TimelineEvent)
  : list TimelineEvent :=
  filter (fun e => event_type e = t) evs.

(** What a group holds, said from the events of its exchange: the turn
    index and run of the first one, the created-at of the last one, the
    payload of the last prompt and of the last response, and the payloads
    of all verdicts in order. *)
Definition describes (evs : list TimelineEvent) (g : Timeline.TurnGroup) : Prop :=
  let mine := eventsOf (Timeline.exchangeId g) evs in
  exists first lastEvent,
    head mine = Some first /\ last mine = Some lastEvent
    /\ Timeline.turnIndex g = turn_index first
    /\ Timeline.tg_run g = run first
    /\ Timeline.createdAt g = created_at lastEvent
    /\ Timeline.userPrompt g = payload <$> last (ofType user_prompt mine)
    /\ Timeline.response g = payload <$> last (ofType llm_response mine)
    /\ Timeline.judges g = payload <$> ofType judge_verdict mine.

(** The invariant of the grouping loop after the events [evs]: the
    collection holds one group per exchange, in first-seen order; every
    group is described by the events of its exchange; and the map sends an
    exchange id to the position of its group. *)
Definition groupingInv (evs : list TimelineEvent) (g : Timeline.Grouping) : Prop :=
  Timeline.exchangeId <$> Timeline.collection g = firstSeen (exchange_id <$> evs)
  /\ Forall (describes evs) (Timeline.collection g)
  /\ forall id i,
       Timeline.map g !! id = Some i
       <-> (Timeline.exchangeId <$> Timeline.collection g) !! i = Some id.

(** The created-at string [s] is a latest one among the events [mine]: it
    is the created-at of one of them, and none of them is later. *)
Definition isLatestOf (Date_getTime : string -> option Z) (s : string)
    (mine : list TimelineEvent) : Prop :=
  (exists e, e ∈ mine /\ created_at e = s)
  /\ exists ts, Date_getTime s = Some ts
       /\ forall e, e ∈ mine ->
            exists te, Date_getTime (created_at e) = Some te /\ te <= ts.

(** The index is in the range of a sequence of [len] events, or -1. *)
Definition indexInRange (len : nat) (s : App.Playback) : Prop :=
  -1 <= App.playbackIndex s <= Z.of_nat len - 1.

(** Nothing plays over an empty filtered sequence.  This is so in every
    state the handlers are called in: [setIsPlaying(true)] occurs in
    [handlePlay] alone, behind its guard on the length, every other write
    of the flag is [setIsPlaying(false)], and the effect keyed on the
    length has stopped the playback when the sequence has become empty. *)
Definition idleWhenEmpty (len : nat) (s : App.Playback) : Prop :=
  len = 0%nat -> App.isPlaying s = false.

(** The playback state at mount. *)
Definition mountedPlayback : App.Playback :=
  {| App.playbackIndex := -1; App.isPlaying := false; App.showAllTurns := false |}.

(** The number of verdict events of the window. *)
Definition totalVerdictCount (active : list TimelineEvent) : Z :=
  Z.of_nat (length (ofType judge_verdict active)).

(** The number of verdict events of the window whose verdict is [v]. *)
Definition verdictCount (v : string) (active : list TimelineEvent) : Z :=
  Z.of_nat (length (filter (fun e => payload_verdict (payload e) = Some v)
                           (ofType judge_verdict active))).

(** The percentage of the claim read over the rationals:
    100 × (allow + 0.4 × warn) / total is (100 allow + 40 warn) / total, and
    rounding x to the nearest integer, a half going up, is the floor of
    x + 1/2. *)
Definition exactAgreementPercent (allow warn total : Z) : Z :=
  (2 * (100 * allow + 40 * warn) + total) `div` (2 * total).

(** A window of verdict events with the given verdicts. *)
Definition verdictWindow (verdicts : list string) : list TimelineEvent :=
  (fun v => Samples.verdictEvent "ex-1" "2024-01-01T00:00:00.000Z" v None)
    <$> verdicts.

(** The concatenation of a list of strings. *)
Definition concatStrings (ws : list string) : string := foldr String.append "" ws.

(** A string made of white space alone. *)
Definition whiteSpaceOnly (s : string) : Prop :=
  exists ws, Forall (fun w => w ∈ App.whiteSpace) ws /\ s = concatStrings ws.

(** [t] is [s] without the white space at its two ends: [s] is [t] between
    two runs of white space, and [t] neither starts nor ends with white
    space. *)
Definition trimmedOf (t s : string) : Prop :=
  (exists pre post, whiteSpaceOnly pre /\ whiteSpaceOnly post /\ s = pre +:+ t +:+ post)
  /\ (forall w r, w ∈ App.whiteSpace -> t <> w +:+ r)
  /\ (forall w r, w ∈ App.whiteSpace -> t <> r +:+ w).

(** No member is the start of another one. *)
Definition prefixFree (ws : list string) : Prop :=
  forall w w' r r', w ∈ ws -> w' ∈ ws -> w +:+ r = w' +:+ r' -> w = w'.

(** [w] is a start of [w'], and not all of it. *)
Definition properStart (w w' : string) : bool :=
  match App.dropPrefix w w' with
  | Some (String _ _) => true
  | _ => false
  end.

(** A filter is active when something is selected. *)
Definition filterActive (selected : gset string) : bool :=
  bool_decide (0 < size selected)%nat.

(** The response event an exchange ends up with: the last one in the
    ordered sequence. *)
Definition lastResponse (ordered : list TimelineEvent) (id : string)
  : option TimelineEvent :=
  last (ofType llm_response (eventsOf id ordered)).

(** The verdict events of an exchange. *)
Definition verdictsOf (ordered : list TimelineEvent) (id : string)
  : list TimelineEvent :=
  ofType judge_verdict (eventsOf id ordered).

(** The facets in the words of the claim: the category of the response of
    the exchange, or "Uncategorized" when absent; the violation categories
    of its verdicts. *)
Definition claimedCategory (ordered : list TimelineEvent) (id : string) : string :=
  default "Uncategorized"
    (lastResponse ordered id ≫= fun e => payload_question_category (payload e)).

Definition claimedViolations (ordered : list TimelineEvent) (id : string)
  : list string :=
  omap (fun e => category <$> payload_violation (payload e)) (verdictsOf ordered id).

Definition claimedPasses (selectedCategories selectedViolations : gset string)
    (ordered : list TimelineEvent) (id : string) : bool :=
  (negb (filterActive selectedCategories)
   || bool_decide (claimedCategory ordered id ∈ selectedCategories))
  && (negb (filterActive selectedViolations)
      || existsb (fun c => bool_decide (c ∈ selectedViolations))
                 (claimedViolations ordered id)).

(** The facets as the code derives them.  An exchange has a category only
    when it has a response event: the category of its last response, or
    "Uncategorized" when that is missing or blank.  Every verdict event
    gives a violation category: the trimmed category of its violation, or
    "policy_violation" when it has no violation or a blank category. *)
Definition categoryFacet (ordered : list TimelineEvent) (id : string)
  : option string :=
  App.questionCategoryOf <$> lastResponse ordered id.

Definition violationFacet (ordered : list TimelineEvent) (id : string)
  : list string :=
  App.violationCategoryOf <$> verdictsOf ordered id.

Definition exchangePasses (selectedCategories selectedViolations : gset string)
    (ordered : list TimelineEvent) (id : string) : bool :=
  (negb (filterActive selectedCategories)
   || match categoryFacet ordered id with
      | Some c => bool_decide (c ∈ selectedCategories)
      | None => false
      end)
  && (negb (filterActive selectedViolations)
      || existsb (fun c => bool_decide (c ∈ selectedViolations))
                 (violationFacet ordered id)).

(** [Boolean(responsePayload?.pii_raw_text)]: the requested field has a
    raw value to disclose. *)
Definition hasRawResponse (group : Timeline.TurnGroup) : bool :=
  match Timeline.response group with
  | Some responsePayload => App.truthy (payload_pii_raw_text responsePayload)
  | None => false
  end.

(** The same group, of another run. *)
Definition withRun (r : RunMetadata) (group : Timeline.TurnGroup) : Timeline.TurnGroup :=
  {| Timeline.exchangeId := Timeline.exchangeId group;
     Timeline.turnIndex := Timeline.turnIndex group;
     Timeline.createdAt := Timeline.createdAt group;
     Timeline.tg_run := r;
     Timeline.userPrompt := Timeline.userPrompt group;
     Timeline.response := Timeline.response group;
     Timeline.judges := Timeline.judges group |}.

(** The error recorded for an exchange. *)
Definition revealError (id : string) (st : Timeline.RevealState) : option string :=
  default None (Timeline.revealErrors st !! id).

(** The three kinds of local rejection. *)
Definition isUnavailable (msg : string) : Prop := msg = "Reveal logging unavailable.".
Definition isDisabled (msg : string) : Prop := msg = "Reveals disabled in demo mode.".
Definition isNotReady (msg : string) : Prop :=
  msg = "Model response not available yet." \/ msg = "Full response not available.".

(** The run is a demo run: the demo data set is shown, or no run is
    selected.  It is then that [App] renders the timeline with
    [allowReveal] false, and that no live channel is open. *)
Definition demoRun (selectedRunId : option string) (usingDemoData : bool) : bool :=
  usingDemoData || negb (App.truthy selectedRunId).


(* ===================================================================== *)
(** * The vocabulary of the further properties *)
(* ===================================================================== *)

(** One effect run of the autoplay followed by its timer, when it armed
    one. *)
Definition autoplayStep (len : nat) (s : App.Playback) : App.Playback :=
  let '(s', armed) := App.autoplayEffect len s in
  if armed then App.autoplayTimer len s' else s'.

(** Everything that writes the playback state while one run is shown: a
    click on a control, a move of the slider, a step of the autoplay, and
    a change of the length of the filtered sequence, which runs the
    effect keyed on it. *)
Inductive PlaybackEvent :=
  | ClickPlay
  | ClickPause
  | ClickStepForward
  | ClickStepBack
  | ClickReset
  | ClickShowAll
  | MoveSlider (index : Z)
  | AutoplayStep
  | FilteredLengthChanged (len : nat).

(** The state is the length of the filtered sequence the handlers close
    over, and the playback state. *)
Definition playbackStep (st : nat * App.Playback) (ev : PlaybackEvent)
  : nat * App.Playback :=
  let '(len, s) := st in
  match ev with
  | ClickPlay => (len, App.handlePlay len s)
  | ClickPause => (len, App.handlePause s)
  | ClickStepForward => (len, App.handleStepForward len s)
  | ClickStepBack => (len, App.handleStepBack len s)
  | ClickReset => (len, App.handleReset s)
  | ClickShowAll => (len, App.handleShowAll len s)
  | MoveSlider index => (len, App.handleScrub len index s)
  | AutoplayStep => (len, autoplayStep len s)
  | FilteredLengthChanged len' => (len', App.lengthEffect len' s)
  end.

(** The findings the relevant events carry, in order. *)
Definition violationsOf (relevant : list TimelineEvent) : list ViolationDetail :=
  omap (fun event => payload_violation (payload event)) relevant.

(** The summary of the findings with one key: the first of them, counted
    as many times as there are. *)
Definition summaryOf (key : string) (violations : list ViolationDetail)
  : option App.ViolationSummary :=
  match filter (fun v => App.violationKey v = key) violations with
  | [] => None
  | first :: rest =>
      Some {| App.summary_violation := first;
              App.count := Z.of_nat (length (first :: rest)) |}
  end.

(** The sum of the counters of a list of summaries. *)
Definition totalCount (summaries : list App.ViolationSummary) : Z :=
  foldr (fun summary total => App.count summary + total) 0 summaries.

(** The string holds the separator of the keys. *)
Fixpoint hasBar (s : string) : bool :=
  match s with
  | EmptyString => false
  | String c s' => Ascii.eqb c "|" || hasBar s'
  end.

(** None of the members a key has before its last one holds the
    separator. *)
Definition barFree (v : ViolationDetail) : Prop :=
  hasBar (category v) = false /\ hasBar (severity v) = false
  /\ hasBar (default "" (violation_type v)) = false
  /\ hasBar (default "" (clause_reference v)) = false.

(** Two findings with the same members, a missing member counting as the
    empty string. *)
Definition sameFinding (v v' : ViolationDetail) : Prop :=
  category v = category v' /\ severity v = severity v'
  /\ default "" (violation_type v) = default "" (violation_type v')
  /\ default "" (clause_reference v) = default "" (clause_reference v')
  /\ default "" (description v) = default "" (description v').

(** A selection is the id of a listed scenario. *)
Definition scenarioListed (scenarios : list Api.ConsoleScenarioOption)
    (selected : option string) : bool :=
  App.truthy selected
  && existsb (fun option => bool_decide (Some (Api.scenario_option_id option) = selected))
             scenarios.

(** A selection is the id of a listed judge that is available. *)
Definition judgeValid (judges : list Api.ConsoleJudgeOption)
    (selected : option string) : bool :=
  App.truthy selected
  && existsb (fun option =>
                bool_decide (Some (Api.judge_option_id option) = selected)
                && Api.available option) judges.

(** The judge the effect falls back to: the one called 'none', else the
    first available one, else the first one. *)
Definition judgeFallback (judges : list Api.ConsoleJudgeOption)
  : option Api.ConsoleJudgeOption :=
  Api.orElse
    (List.find (fun option => bool_decide (Api.judge_option_id option = "none")) judges)
    (Api.orElse (List.find Api.available judges) (head judges)).

(** A series of clicks on 'Reveal full response', each on the card of a
    group: the state they leave and the audit calls they issued, in
    order. *)
Definition revealClicks (props : Timeline.TimelineProps)
    (clicked : list Timeline.TurnGroup) (st : Timeline.RevealState)
  : Timeline.RevealState * list App.AuditCall :=
  foldl (fun acc group =>
           let result := Timeline.handleRevealResponse props group acc.1 in
           (result.1, acc.2 ++ result.2))
        (st, []) clicked.

(** The text a card shows while its response is not disclosed. *)
Definition redactedText (group : Timeline.TurnGroup) : string :=
  match Timeline.response group with
  | Some responsePayload =>
      default "Awaiting response…" (payload_pii_redacted_text responsePayload)
  | None => "Awaiting model response…"
  end.

(** The same event with another verdict, when it carries one. *)
Definition withVerdict (v : string) (e : TimelineEvent) : TimelineEvent :=
  {| run := run e; exchange_id := exchange_id e; turn_index := turn_index e;
     event_type := event_type e;
     payload :=
       match payload e with
       | VerdictPayload j =>
           VerdictPayload
             {| jv_source := jv_source j; verdict := v; score := score j;
                rationale_redacted := rationale_redacted j;
                rationale_raw := rationale_raw j; violation := violation j;
                jv_latency_ms := jv_latency_ms j |}
       | other => other
       end;
     created_at := created_at e |}.

(** The order the comparator of the sort leaves between two neighbours:
    the first does not compare as later than the second.  A comparison
    that gives NaN counts as equal. *)
Definition inOrder (Date_getTime : string -> option Z) (a b : TimelineEvent) : Prop :=
  App.sortCompare Date_getTime a b <= 0.

(** The component between two renders: its stage state and the timers
    that are armed. *)
Record StageMachine := {
  sm_state : Timeline.StageState;
  sm_timers : list Timeline.Timer;
}.

(** What moves it: a render in which [groups] or [liveMode] has changed,
    which runs the cleanup of the effect (the armed timers are cleared),
    the reset keyed on [runKey] when that has changed too, and the body
    of the effect; or the firing of one of the armed timers. *)
Inductive StageEvent :=
  | Rendered (runKeyChanged : bool) (groups : list Timeline.TurnGroup) (liveMode : bool)
  | TimerFired (n : nat).

Definition stageStep (m : StageMachine) (ev : StageEvent) : StageMachine :=
  match ev with
  | Rendered runKeyChanged groups liveMode =>
      let st := if runKeyChanged then Timeline.clearedStageState else sm_state m in
      let result := Timeline.stageEffect groups liveMode st in
      {| sm_state := result.1; sm_timers := result.2 |}
  | TimerFired n =>
      match sm_timers m !! n with
      | Some timer =>
          {| sm_state := Timeline.timerCallback timer (sm_state m);
             sm_timers := delete n (sm_timers m) |}
      | None => m
      end
  end.

(** The exchange ids of the rendered groups are keys the stage objects
    hold as their own. *)
Definition plainGroups (groups : list Timeline.TurnGroup) : bool :=
  forallb (fun group => Timeline.ownKey (Timeline.exchangeId group)) groups.

Definition plainEvent (ev : StageEvent) : bool :=
  match ev with
  | Rendered _ groups _ => plainGroups groups
  | TimerFired _ => true
  end.

Definition mountedStage : StageMachine :=
  {| sm_state := Timeline.clearedStageState; sm_timers := [] |}.

(** A response timer for the exchange is armed. *)
Definition responseTimerArmed (id : string) (timers : list Timeline.Timer) : Prop :=
  exists timer, timer ∈ timers /\ Timeline.timer_kind timer = Timeline.ResponseTimer
                /\ Timeline.timer_id timer = id.

(** The exchange waits for a response timer that is not armed. *)
Definition responseStageLost (id : string) (m : StageMachine) : Prop :=
  id ∈ Timeline.pendingStageRef (sm_state m)
  /\ ~ responseTimerArmed id (sm_timers m).

(** A render with [liveMode] on and the run key unchanged, or the firing
    of a timer. *)
Definition staysLive (ev : StageEvent) : bool :=
  match ev with
  | Rendered runKeyChanged _ liveMode => negb runKeyChanged && liveMode
  | TimerFired _ => true
  end.

(** Whether a turn of the live loop arms the response timer, and the
    judge timer, of a group. *)
Definition armsResponse (st : Timeline.StageState) (group : Timeline.TurnGroup) : bool :=
  bool_decide (is_Some (Timeline.response group))
  && bool_decide (Timeline.stageOr0 (Timeline.stageRef st) (Timeline.exchangeId group) < 1)
  && negb (bool_decide (Timeline.exchangeId group ∈ Timeline.pendingStageRef st)).

Definition armsJudge (st : Timeline.StageState) (group : Timeline.TurnGroup) : bool :=
  bool_decide (0 < length (Timeline.judges group))%nat
  && bool_decide (Timeline.stageOr0 (Timeline.stageRef st) (Timeline.exchangeId group) < 2)
  && negb (bool_decide (Timeline.exchangeId group ∈ Timeline.pendingJudgeRef st)).

(** A stage that is not yet recorded is recorded as 0. *)
Definition recorded (stages : gmap string Z) (id : string) : gmap string Z :=
  match stages !! id with
  | None => <[ id := 0 ]> stages
  | Some _ => stages
  end.

(** The two copies of the stages agree, and every stage is 0, 1 or 2. *)
Definition stagesConsistent (st : Timeline.StageState) : Prop :=
  Timeline.stageMap st = Timeline.stageRef st
  /\ forall id v, Timeline.stageMap st !! id = Some v -> 0 <= v <= 2.

(** What the live loop keeps: the response timers it has armed are for
    exchanges that are pending and below stage 1. *)
Definition armedResponsesPending (acc : Timeline.StageState * list Timeline.Timer) : Prop :=
  forall timer, timer ∈ acc.2 -> Timeline.timer_kind timer = Timeline.ResponseTimer ->
    Timeline.timer_id timer ∈ Timeline.pendingStageRef acc.1
    /\ Timeline.stageOr0 (Timeline.stageRef acc.1) (Timeline.timer_id timer) < 1.

(** What the live loop keeps of an exchange whose response timer is
    lost. *)
Definition lostInLoop (id : string) (acc : Timeline.StageState * list Timeline.Timer)
  : Prop :=
  id ∈ Timeline.pendingStageRef acc.1
  /\ ~ responseTimerArmed id acc.2
  /\ Timeline.stageMap acc.1 !! id <> Some 1.

(* ===================================================================== *)
(** * Properties of the adapter *)
(* ===================================================================== *)

Section AdapterProperties.

Import Api.

Lemma toTimelineEvent_verdict now raw :
  raw_event_type raw = Some "judge_verdict" ->
  event_type (toTimelineEvent now raw) = judge_verdict
  /\ exists v, payload (toTimelineEvent now raw) = VerdictPayload v.
Proof.
  intros Hty. unfold toTimelineEvent. rewrite Hty. simpl.
  split; [reflexivity | eexists; reflexivity].
Qed.

Lemma toTimelineEvent_other now raw :
  raw_event_type raw <> Some "judge_verdict" ->
  event_type (toTimelineEvent now raw) = llm_response
  /\ exists r, payload (toTimelineEvent now raw) = ResponsePayload r.
Proof.
  intros Hty. unfold toTimelineEvent.
  destruct (raw_event_type raw) as [ty|] eqn:E; simpl.
  - destruct (decide (ty = "judge_verdict")) as [->|Hne]; [congruence|].
    split; [reflexivity | eexists; reflexivity].
  - split; [reflexivity | eexists; reflexivity].
Qed.

End AdapterProperties.

(** C10.  Whatever the backend sent, the event the adapter returns is a
    judge verdict or an LLM response, never a prompt, a metric snapshot or
    an audit record: a raw event whose type is the string "judge_verdict"
    becomes a verdict event with a verdict-shaped payload, and every other
    raw event (a missing type, "user_prompt", "metric_snapshot",
    "audit_record", any other string) becomes an [llm_response] event with a
    response-shaped payload.  The same holds for every event of a batch
    ([fetchTimeline], [submitPrompt]). *)
Theorem toTimelineEvent_only_verdict_or_response :
  forall (now : string) (raw : Api.RawEvent),
    let e := Api.toTimelineEvent now raw in
    (event_type e = judge_verdict \/ event_type e = llm_response)
    /\ event_type e <> user_prompt
    /\ event_type e <> metric_snapshot
    /\ event_type e <> audit_record
    /\ (Api.raw_event_type raw <> Some "judge_verdict" ->
        event_type e = llm_response /\ exists r, payload e = ResponsePayload r)
    /\ (Api.raw_event_type raw = Some "judge_verdict" ->
        event_type e = judge_verdict /\ exists v, payload e = VerdictPayload v)
    /\ (forall ty, ty ∈ ["user_prompt"; "metric_snapshot"; "audit_record"] ->
        Api.raw_event_type raw = Some ty -> event_type e = llm_response)
    /\ (forall raws e', e' ∈ Api.normalizeBatch now raws ->
        event_type e' = judge_verdict \/ event_type e' = llm_response).
Proof.
  intros now raw e.
  assert (Hcases : forall r, event_type (Api.toTimelineEvent now r) = judge_verdict
                          \/ event_type (Api.toTimelineEvent now r) = llm_response).
  { intros r. destruct (decide (Api.raw_event_type r = Some "judge_verdict")) as [H|H].
    - left. by apply toTimelineEvent_verdict.
    - right. by apply toTimelineEvent_other. }
  split; [apply Hcases|].
  repeat split.
  - destruct (Hcases raw) as [H|H]; subst e; rewrite H; discriminate.
  - destruct (Hcases raw) as [H|H]; subst e; rewrite H; discriminate.
  - destruct (Hcases raw) as [H|H]; subst e; rewrite H; discriminate.
  - by apply toTimelineEvent_other.
  - apply toTimelineEvent_other. done.
  - by apply toTimelineEvent_verdict.
  - apply toTimelineEvent_verdict. done.
  - intros ty Hin Hraw. apply toTimelineEvent_other. rewrite Hraw.
    intros [= ->].
    repeat (apply elem_of_cons in Hin as [Hin|Hin]; [discriminate|]).
    by apply elem_of_nil in Hin.
  - intros raws e' Hin. unfold Api.normalizeBatch in Hin.
    apply list_elem_of_fmap in Hin as (r & -> & _). apply Hcases.
Qed.

(* ===================================================================== *)
(** * Properties of the reconciliation merge *)
(* ===================================================================== *)

Lemma event_key_logicalKey e1 e2 :
  logicalKey e1 = logicalKey e2 -> App.event_key e1 = App.event_key e2.
Proof. unfold logicalKey, App.event_key. by intros [= -> -> ->]. Qed.

Lemma firstWithKey_app k l1 l2 :
  firstWithKey k (l1 ++ l2) =
  match firstWithKey k l1 with
  | Some e => Some e
  | None => firstWithKey k l2
  end.
Proof.
  unfold firstWithKey. induction l1 as [|x l1 IH]; simpl; [done|].
  by destruct (bool_decide (App.event_key x = k)).
Qed.

Lemma firstWithKey_Some k l e :
  firstWithKey k l = Some e -> e ∈ l /\ App.event_key e = k.
Proof.
  unfold firstWithKey. intros Hf. apply find_some in Hf as [Hin Hk].
  apply bool_decide_eq_true in Hk. split; [by apply list_elem_of_In | done].
Qed.

Lemma firstWithKey_None k l :
  firstWithKey k l = None <-> k ∉ App.event_key <$> l.
Proof.
  unfold firstWithKey. induction l as [|x l IH]; simpl.
  - split; [intros _; apply not_elem_of_nil | done].
  - rewrite not_elem_of_cons. case_bool_decide as Hk.
    + split; [done | intros [Hne _]; congruence].
    + rewrite IH. split; [intros ?; split; [congruence | done] | by intros [_ ?]].
Qed.


Lemma pushInv_init : pushInv (∅, []).
Proof. split; simpl; [done | constructor]. Qed.

Lemma pushInv_of_list l :
  NoDup (App.event_key <$> l) -> pushInv (list_to_set (App.event_key <$> l), l).
Proof. by split. Qed.

Lemma push_seen st e :
  pushInv st -> App.event_key e ∈ st.1 -> App.push st e = st.
Proof. intros _ Hin. unfold App.push. by rewrite decide_True. Qed.

Lemma push_fresh st e :
  App.event_key e ∉ st.1 ->
  App.push st e = ({[ App.event_key e ]} ∪ st.1, st.2 ++ [e]).
Proof. intros Hin. unfold App.push. by rewrite decide_False. Qed.

Lemma push_pushInv st e : pushInv st -> pushInv (App.push st e).
Proof.
  intros [Hseen Hnd]. unfold App.push.
  destruct (decide (App.event_key e ∈ st.1)) as [Hin|Hin]; [by split|].
  split; simpl.
  - rewrite fmap_app, list_to_set_app_L, <- Hseen. simpl.
    by rewrite union_empty_r_L, (comm_L (∪)).
  - rewrite fmap_app. apply NoDup_app. split; [done|]. split.
    + intros k Hk Hk'. apply list_elem_of_singleton in Hk' as ->.
      apply Hin. rewrite Hseen. by apply elem_of_list_to_set.
    + apply NoDup_singleton.
Qed.

Lemma foldl_push_pushInv evs st :
  pushInv st -> pushInv (foldl App.push st evs).
Proof.
  revert st. induction evs as [|e evs IH]; intros st Hinv; simpl; [done|].
  apply IH. by apply push_pushInv.
Qed.

(** The loop looks a key up among the events merged so far, then among
    the events it is given: the first event found is the one it keeps. *)
Lemma foldl_push_first evs st k :
  pushInv st ->
  firstWithKey k (foldl App.push st evs).2 = firstWithKey k (st.2 ++ evs).
Proof.
  revert st. induction evs as [|e evs IH]; intros st Hinv; simpl.
  - by rewrite app_nil_r.
  - rewrite IH by (by apply push_pushInv).
    destruct (decide (App.event_key e ∈ st.1)) as [Hin|Hin].
    + rewrite push_seen by done.
      rewrite !firstWithKey_app. destruct (firstWithKey k st.2) eqn:E; [done|].
      unfold firstWithKey at 2. simpl. case_bool_decide as Hk; [|done].
      exfalso. apply firstWithKey_None in E. apply E.
      destruct Hinv as [Hseen _]. rewrite Hseen in Hin.
      apply elem_of_list_to_set in Hin. by rewrite <- Hk.
    + rewrite push_fresh by done. simpl.
      by rewrite <- app_assoc.
Qed.


Lemma combinedEvents_NoDup H L :
  NoDup (App.event_key <$> App.combinedEvents H L).
Proof.
  unfold App.combinedEvents.
  apply (foldl_push_pushInv L), (foldl_push_pushInv H), pushInv_init.
Qed.

Lemma combinedEvents_first H L k :
  firstWithKey k (App.combinedEvents H L) = firstWithKey k (H ++ L).
Proof.
  unfold App.combinedEvents.
  rewrite foldl_push_first by apply foldl_push_pushInv, pushInv_init.
  rewrite !firstWithKey_app, foldl_push_first by apply pushInv_init.
  done.
Qed.


Section SortProperties.

Variable Date_getTime : string -> option Z.


Lemma insertSorted_Permutation x l :
  App.insertSorted Date_getTime x l ≡ₚ x :: l.
Proof.
  induction l as [|y l IH]; simpl; [done|].
  destruct (decide _); [done|]. rewrite IH. apply Permutation_swap.
Qed.

Lemma array_sort_Permutation l : App.array_sort Date_getTime l ≡ₚ l.
Proof.
  unfold App.array_sort. induction l as [|x l IH]; simpl; [done|].
  by rewrite insertSorted_Permutation, IH.
Qed.







End SortProperties.



Example IsoDate_epoch : IsoDate.getTime "1970-01-01T00:00:00.000Z" = Some 0.
Proof. reflexivity. Qed.

Example IsoDate_2024 :
  IsoDate.getTime "2024-03-01T12:30:15.250Z" = Some 1709296215250.
Proof. reflexivity. Qed.

Example IsoDate_not_a_date : IsoDate.getTime "not a date" = None.
Proof. reflexivity. Qed.

(* ===================================================================== *)
(** * Properties of the live-event buffer *)
(* ===================================================================== *)

Lemma sameLogicalEvent_spec a b :
  App.sameLogicalEvent a b = true <-> logicalKey a = logicalKey b.
Proof.
  unfold App.sameLogicalEvent, logicalKey.
  rewrite !andb_true_iff, !bool_decide_eq_true. split.
  - by intros [[-> ->] ->].
  - by intros [= -> -> ->].
Qed.

Lemma existsb_sameLogicalEvent prev e :
  existsb (fun existing => App.sameLogicalEvent existing e) prev = true
  <-> logicalKey e ∈ logicalKey <$> prev.
Proof.
  rewrite existsb_exists, list_elem_of_fmap. split.
  - intros (x & Hin & Hs). exists x. apply sameLogicalEvent_spec in Hs.
    split; [done | by apply list_elem_of_In].
  - intros (x & Hk & Hin). exists x. split; [by apply list_elem_of_In|].
    by apply sameLogicalEvent_spec.
Qed.

Lemma slice_last_length {A} n (l : list A) :
  length (App.slice_last n l) = Nat.min n (length l).
Proof. unfold App.slice_last. rewrite length_drop. lia. Qed.

Lemma slice_last_all {A} n (l : list A) :
  (length l <= n)%nat -> App.slice_last n l = l.
Proof.
  intros Hle. unfold App.slice_last.
  replace (length l - n)%nat with 0%nat by lia. done.
Qed.

Lemma onEvent_duplicate prev e :
  logicalKey e ∈ logicalKey <$> prev -> App.onEvent prev e = prev.
Proof.
  intros Hin. apply existsb_sameLogicalEvent in Hin.
  unfold App.onEvent. by rewrite Hin.
Qed.

Lemma onEvent_new prev e :
  logicalKey e ∉ logicalKey <$> prev ->
  App.onEvent prev e = App.slice_last 500 (prev ++ [e]).
Proof.
  intros Hin. unfold App.onEvent.
  destruct (existsb _ prev) eqn:E.
  - exfalso. by apply Hin, existsb_sameLogicalEvent.
  - destruct (decide _) as [Hlt|Hge]; [done|].
    symmetry. apply slice_last_all. lia.
Qed.

Lemma slice_last_NoDup_keys n (l : list TimelineEvent) :
  NoDup (logicalKey <$> l) -> NoDup (logicalKey <$> App.slice_last n l).
Proof.
  unfold App.slice_last. rewrite fmap_drop. intros Hnd.
  eapply sublist_NoDup; [|apply sublist_drop]. done.
Qed.

Lemma onEvent_NoDup prev e :
  NoDup (logicalKey <$> prev) -> NoDup (logicalKey <$> App.onEvent prev e).
Proof.
  intros Hnd. destruct (decide (logicalKey e ∈ logicalKey <$> prev)) as [Hin|Hin].
  - by rewrite onEvent_duplicate.
  - rewrite onEvent_new by done. apply slice_last_NoDup_keys.
    rewrite fmap_app. apply NoDup_app. split; [done|]. split.
    + intros k Hk Hk'. apply list_elem_of_singleton in Hk' as ->. done.
    + apply NoDup_singleton.
Qed.

Lemma onEvent_length prev e :
  (length prev <= 500)%nat -> (length (App.onEvent prev e) <= 500)%nat.
Proof.
  intros Hle. destruct (decide (logicalKey e ∈ logicalKey <$> prev)) as [Hin|Hin].
  - by rewrite onEvent_duplicate.
  - rewrite onEvent_new, slice_last_length by done. lia.
Qed.

Lemma push_pushInvLogical st e :
  pushInvLogical st -> pushInvLogical (App.push st e).
Proof.
  intros [Hseen Hnd]. unfold App.push.
  destruct (decide (App.event_key e ∈ st.1)) as [Hin|Hin]; [by split|].
  split; simpl.
  - intros x Hx. apply elem_of_app in Hx as [Hx|Hx].
    + apply elem_of_union_r. by apply Hseen.
    + apply list_elem_of_singleton in Hx as ->. apply elem_of_union_l.
      by apply elem_of_singleton.
  - rewrite fmap_app. apply NoDup_app. split; [done|]. split.
    + intros k Hk Hk'. apply list_elem_of_singleton in Hk' as ->.
      apply list_elem_of_fmap in Hk as (x & Hkx & Hx).
      apply Hin. rewrite (event_key_logicalKey e x Hkx). by apply Hseen.
    + apply NoDup_singleton.
Qed.

Lemma foldl_push_pushInvLogical evs st :
  pushInvLogical st -> pushInvLogical (foldl App.push st evs).
Proof.
  revert st. induction evs as [|e evs IH]; intros st Hinv; simpl; [done|].
  apply IH. by apply push_pushInvLogical.
Qed.

Lemma onSubmitResult_NoDup prev events :
  NoDup (logicalKey <$> prev) ->
  NoDup (logicalKey <$> App.onSubmitResult prev events).
Proof.
  intros Hnd. unfold App.onSubmitResult.
  apply foldl_push_pushInvLogical. split; [|done]. simpl.
  intros e He. apply elem_of_list_to_set. by apply list_elem_of_fmap_2.
Qed.

Lemma bufferStep_NoDup prev a :
  NoDup (logicalKey <$> prev) -> NoDup (logicalKey <$> App.bufferStep prev a).
Proof.
  intros Hnd. destruct a; simpl.
  - by apply onEvent_NoDup.
  - by apply onSubmitResult_NoDup.
  - constructor.
Qed.

(** C9, as the code has it.  One delivery of a stream event [e] to a
    buffer [prev]: when an event with the triple of [e] is in [prev] the
    buffer is returned as it is, whatever its length; otherwise the result
    is the last 500 events of [prev] followed by [e], so it has at most 500
    events and ends in [e].  A delivery keeps a buffer of at most 500
    events at most 500 long and keeps the triples pairwise distinct.  Hence
    a buffer built from the empty one by deliveries and resets has at most
    500 events with pairwise distinct triples; and the triples stay
    pairwise distinct under console submissions too, which append without
    a bound on the length. *)
Theorem stream_buffer_delivery :
  forall (prev : list TimelineEvent) (e : TimelineEvent),
    (logicalKey e ∈ logicalKey <$> prev -> App.onEvent prev e = prev)
    /\ (logicalKey e ∉ logicalKey <$> prev ->
        App.onEvent prev e = App.slice_last 500 (prev ++ [e])
        /\ (length (App.onEvent prev e) <= 500)%nat
        /\ last (App.onEvent prev e) = Some e)
    /\ ((length prev <= 500)%nat -> (length (App.onEvent prev e) <= 500)%nat)
    /\ (NoDup (logicalKey <$> prev) -> NoDup (logicalKey <$> App.onEvent prev e))
    /\ (forall actions,
          forallb (fun a => negb (isSubmit a)) actions = true ->
          (length (foldl App.bufferStep [] actions) <= 500)%nat)
    /\ (forall actions, NoDup (logicalKey <$> foldl App.bufferStep [] actions)).
Proof.
  intros prev e.
  split; [apply onEvent_duplicate|].
  split.
  { intros Hnew. rewrite onEvent_new by done. split; [done|]. split.
    - rewrite slice_last_length. lia.
    - unfold App.slice_last. rewrite drop_app_le.
      + apply last_snoc.
      + rewrite length_app. simpl. lia. }
  split; [apply onEvent_length|].
  split; [apply onEvent_NoDup|].
  split.
  - intros actions.
    assert (Hgen : forall buf, (length buf <= 500)%nat ->
      forallb (fun a => negb (isSubmit a)) actions = true ->
      (length (foldl App.bufferStep buf actions) <= 500)%nat).
    { induction actions as [|a actions IH]; intros buf Hlen Hall; simpl; [done|].
      simpl in Hall. apply andb_true_iff in Hall as [Ha Hall].
      apply IH; [|done]. destruct a; simpl in *; [by apply onEvent_length|done|lia]. }
    apply Hgen. simpl. lia.
  - intros actions.
    assert (Hgen : forall buf, NoDup (logicalKey <$> buf) ->
      NoDup (logicalKey <$> foldl App.bufferStep buf actions)).
    { induction actions as [|a actions IH]; intros buf Hnd; simpl; [done|].
      apply IH. by apply bufferStep_NoDup. }
    apply Hgen. constructor.
Qed.

Lemma decimal_inj i j : Samples.decimal i = Samples.decimal j -> i = j.
Proof.
  unfold Samples.decimal. intros Heq.
  apply (f_equal NilEmpty.uint_of_string) in Heq.
  rewrite !NilEmpty.usu in Heq. injection Heq as Heq.
  by apply Unsigned.to_uint_inj.
Qed.

Lemma manyResponses_NoDup n : NoDup (logicalKey <$> Samples.manyResponses n).
Proof.
  unfold Samples.manyResponses. rewrite <- list_fmap_compose.
  apply NoDup_fmap_2; [|apply NoDup_seq].
  intros i j [= Heq]. by apply decimal_inj.
Qed.

(** Deliveries of new events to a buffer with room append them. *)
Lemma deliveries_append evs prev :
  NoDup (logicalKey <$> prev ++ evs) -> (length (prev ++ evs) <= 500)%nat ->
  foldl App.bufferStep prev (App.Deliver <$> evs) = prev ++ evs.
Proof.
  revert prev. induction evs as [|e evs IH]; intros prev Hnd Hlen; simpl.
  - by rewrite app_nil_r.
  - assert (Hstep : App.onEvent prev e = prev ++ [e]).
    { rewrite onEvent_new.
      - apply slice_last_all. rewrite length_app in *. simpl in *. lia.
      - rewrite fmap_app in Hnd. apply NoDup_app in Hnd as (_ & Hnd & _).
        intros Hin. apply (Hnd _ Hin). simpl. apply elem_of_cons. by left. }
    rewrite Hstep, IH; rewrite <- app_assoc; done.
Qed.

(** A full buffer, one event appended by a console submission, then a
    delivery of an event the buffer already holds. *)
Lemma buffer_submit_then_duplicate delivered submitted again :
  NoDup (logicalKey <$> delivered) -> length delivered = 500%nat ->
  again ∈ delivered ->
  App.event_key submitted ∉ App.event_key <$> delivered ->
  length (foldl App.bufferStep [] (App.Deliver <$> delivered)) = 500%nat
  /\ length (foldl App.bufferStep []
               ((App.Deliver <$> delivered) ++ [App.SubmitResult [submitted]]))
     = 501%nat
  /\ length (App.bufferStep
               (foldl App.bufferStep []
                  ((App.Deliver <$> delivered) ++ [App.SubmitResult [submitted]]))
               (App.Deliver again))
     = 501%nat.
Proof.
  intros Hnd Hlen Hagain Hfresh.
  assert (Hfill : foldl App.bufferStep [] (App.Deliver <$> delivered) = delivered).
  { apply (deliveries_append delivered []).
    - by rewrite app_nil_l.
    - rewrite app_nil_l. lia. }
  assert (Hbefore : foldl App.bufferStep []
            ((App.Deliver <$> delivered) ++ [App.SubmitResult [submitted]])
          = delivered ++ [submitted]).
  { rewrite foldl_app, Hfill. cbn [foldl App.bufferStep].
    unfold App.onSubmitResult. cbn [foldl].
    rewrite push_fresh; [done|]. cbn [fst].
    by rewrite elem_of_list_to_set. }
  rewrite Hfill, Hbefore. split; [done|]. split.
  - rewrite length_app, Hlen. done.
  - cbn [App.bufferStep]. rewrite onEvent_duplicate.
    + rewrite length_app, Hlen. done.
    + rewrite fmap_app. apply elem_of_app. left. by apply list_elem_of_fmap_2.
Qed.

(** C9 fails as stated.  Five hundred stream events fill the buffer; a
    console submission for the same run appends one more event, unbounded;
    the stream then delivers an event that is already in the buffer, and the
    handler returns the buffer unchanged: after that delivery it holds 501
    events. *)
Lemma stream_buffer_above_500_after_delivery :
  let delivered := Samples.manyResponses 500 in
  let submitted :=
    Samples.verdictEvent "ex-0" "2024-01-01T00:00:01.000Z" "allow" None in
  let again := Samples.responseEvent "ex-0" "2024-01-01T00:00:00.000Z" None None in
  let before :=
    foldl App.bufferStep [] ((App.Deliver <$> delivered) ++ [App.SubmitResult [submitted]]) in
  length (foldl App.bufferStep [] (App.Deliver <$> delivered)) = 500%nat
  /\ length before = 501%nat
  /\ length (App.bufferStep before (App.Deliver again)) = 501%nat.
Proof.
  cbv zeta. apply buffer_submit_then_duplicate.
  - apply manyResponses_NoDup.
  - unfold Samples.manyResponses. by rewrite length_fmap, length_seq.
  - unfold Samples.manyResponses. apply list_elem_of_fmap.
    exists 0%nat. split; [reflexivity|]. apply elem_of_seq. lia.
  - intros Hin. apply list_elem_of_fmap in Hin as (x & Hkey & Hx).
    unfold Samples.manyResponses in Hx.
    apply list_elem_of_fmap in Hx as (i & -> & _). discriminate Hkey.
Qed.

(* ===================================================================== *)
(** * Properties of the exchange grouper *)
(* ===================================================================== *)

Lemma firstSeen_elem_of ids x : x ∈ firstSeen ids <-> x ∈ ids.
Proof.
  induction ids as [|y l IH]; simpl; [done|].
  rewrite !elem_of_cons, list_elem_of_filter, IH.
  destruct (decide (x = y)); tauto.
Qed.

Lemma firstSeen_NoDup ids : NoDup (firstSeen ids).
Proof.
  induction ids as [|y l IH]; simpl; [constructor|].
  apply NoDup_cons. split.
  - rewrite list_elem_of_filter. intros [Hne _]. by apply Hne.
  - by apply NoDup_filter.
Qed.

Lemma firstSeen_snoc ids x :
  firstSeen (ids ++ [x]) = if decide (x ∈ ids) then firstSeen ids else firstSeen ids ++ [x].
Proof.
  induction ids as [|y l IH]; simpl; [done|].
  rewrite IH. destruct (decide (x ∈ l)) as [Hin|Hin].
  - rewrite decide_True; [done|]. by apply elem_of_cons; right.
  - rewrite filter_app. destruct (decide (x = y)) as [->|Hne].
    + rewrite decide_True by (apply elem_of_cons; by left).
      rewrite filter_cons_False by naive_solver. simpl. by rewrite app_nil_r.
    + rewrite decide_False by (rewrite elem_of_cons; by intros [?|?]).
      by rewrite filter_cons_True.
Qed.

Lemma eventsOf_snoc id evs e :
  eventsOf id (evs ++ [e]) =
  eventsOf id evs ++ (if decide (exchange_id e = id) then [e] else []).
Proof.
  unfold eventsOf. rewrite filter_app. f_equal.
Qed.

Lemma eventsOf_nil id evs : id ∉ exchange_id <$> evs -> eventsOf id evs = [].
Proof.
  intros Hin. unfold eventsOf. induction evs as [|e evs IH]; [done|].
  rewrite fmap_cons, not_elem_of_cons in Hin. destruct Hin as [Hne Hin].
  rewrite filter_cons_False by done. by apply IH.
Qed.

Lemma ofType_snoc t evs e :
  ofType t (evs ++ [e]) = ofType t evs ++ (if decide (event_type e = t) then [e] else []).
Proof.
  unfold ofType. rewrite filter_app. f_equal.
Qed.

Lemma absorb_exchangeId e g :
  Timeline.exchangeId (Timeline.absorb e g) = Timeline.exchangeId g.
Proof. unfold Timeline.absorb. by destruct (event_type e). Qed.

(** A first event makes the group that describes it alone. *)
Lemma describes_new evs e :
  exchange_id e ∉ exchange_id <$> evs ->
  describes (evs ++ [e]) (Timeline.absorb e (Timeline.newGroup e)).
Proof.
  intros Hnew. unfold describes. rewrite absorb_exchangeId. simpl.
  rewrite eventsOf_snoc, (eventsOf_nil _ _ Hnew), decide_True by done. simpl.
  exists e, e. unfold Timeline.absorb, ofType.
  destruct (event_type e) eqn:E; simpl;
    rewrite ?filter_cons_True, ?filter_cons_False by (rewrite E; done);
    rewrite ?E; simpl; repeat split; try done;
    try (rewrite filter_cons_False by (rewrite E; done); done);
    try (rewrite filter_cons_True by (rewrite E; done); done).
Qed.

(** A further event of the exchange updates the description. *)
Lemma describes_absorb evs e g :
  Timeline.exchangeId g = exchange_id e ->
  describes evs g -> describes (evs ++ [e]) (Timeline.absorb e g).
Proof.
  intros Hid (first & lastEvent & Hhead & Hlast & Hti & Hrun & Hca & Hup & Hresp & Hj).
  unfold describes. rewrite absorb_exchangeId, Hid.
  rewrite eventsOf_snoc, decide_True by done.
  rewrite Hid in *. set (mine := eventsOf (exchange_id e) evs) in *.
  exists first, e.
  assert (Hhead' : head (mine ++ [e]) = Some first).
  { destruct mine; [done|]. simpl in *. done. }
  rewrite !ofType_snoc, last_snoc.
  unfold Timeline.absorb.
  destruct (event_type e) eqn:E; simpl;
    repeat (destruct (decide _) as [?|?]; try congruence);
    rewrite ?app_nil_r, ?last_snoc, ?fmap_app; simpl;
    repeat split; congruence.
Qed.

(** An event of another exchange leaves the description as it is. *)
Lemma describes_other evs e g :
  Timeline.exchangeId g ≠ exchange_id e ->
  describes evs g -> describes (evs ++ [e]) g.
Proof.
  intros Hid Hd. unfold describes in *.
  rewrite eventsOf_snoc, decide_False by done. by rewrite app_nil_r.
Qed.

Lemma groupingInv_init : groupingInv [] {| Timeline.collection := []; Timeline.map := ∅ |}.
Proof.
  split; [done|]. split; [constructor|]. intros id i. simpl.
  rewrite lookup_empty, lookup_nil. done.
Qed.

Lemma groupStep_groupingInv evs g e :
  groupingInv evs g -> groupingInv (evs ++ [e]) (Timeline.groupStep g e).
Proof.
  intros (Hids & Hdesc & Hmap). unfold Timeline.groupStep.
  assert (Hnd : NoDup (Timeline.exchangeId <$> Timeline.collection g))
    by (rewrite Hids; apply firstSeen_NoDup).
  destruct (Timeline.map g !! exchange_id e) as [slot|] eqn:Hslot.
  - (* the exchange has a group: it is updated in place *)
    pose proof (proj1 (Hmap _ _) Hslot) as Hat.
    assert (Hseen : exchange_id e ∈ exchange_id <$> evs).
    { apply firstSeen_elem_of. rewrite <- Hids. by eapply list_elem_of_lookup_2. }
    assert (Hsame : Timeline.exchangeId <$>
                      alter (Timeline.absorb e) slot (Timeline.collection g)
                    = Timeline.exchangeId <$> Timeline.collection g).
    { apply list_eq. intros j. rewrite !list_lookup_fmap.
      destruct (decide (slot = j)) as [<-|Hne].
      - rewrite list_lookup_alter_eq.
        destruct (Timeline.collection g !! slot); simpl; [|done].
        by rewrite absorb_exchangeId.
      - by rewrite list_lookup_alter_ne. }
    unfold groupingInv. cbn [Timeline.collection Timeline.map]. split.
    { by rewrite Hsame, Hids, fmap_snoc, firstSeen_snoc, decide_True. }
    split; [|by rewrite Hsame].
    apply Forall_lookup. intros j x Hx.
    destruct (decide (slot = j)) as [<-|Hne].
    + rewrite list_lookup_alter_eq in Hx.
      rewrite list_lookup_fmap in Hat.
      destruct (Timeline.collection g !! slot) as [old|] eqn:Hold; [|done].
      simpl in Hx, Hat. injection Hx as <-. injection Hat as Hid.
      apply describes_absorb; [done|]. by eapply Forall_lookup_1.
    + rewrite list_lookup_alter_ne in Hx by done.
      apply describes_other; [|by eapply Forall_lookup_1].
      intros Hid. apply Hne. eapply NoDup_lookup; [exact Hnd|exact Hat|].
      by rewrite list_lookup_fmap, Hx, <- Hid.
  - (* a new exchange: its group is appended *)
    assert (Hnew : exchange_id e ∉ exchange_id <$> evs).
    { rewrite <- firstSeen_elem_of, <- Hids. intros Hin.
      apply list_elem_of_lookup in Hin as [i Hi].
      apply Hmap in Hi. congruence. }
    assert (Hcoll : alter (Timeline.absorb e) (length (Timeline.collection g))
                      (Timeline.collection g ++ [Timeline.newGroup e])
                    = Timeline.collection g ++ [Timeline.absorb e (Timeline.newGroup e)]).
    { rewrite alter_app_r_alt by done. by rewrite Nat.sub_diag. }
    unfold groupingInv. cbn [Timeline.collection Timeline.map].
    rewrite Hcoll. split.
    { by rewrite !fmap_snoc, Hids, firstSeen_snoc, decide_False, absorb_exchangeId. }
    split.
    { apply Forall_app. split.
      - eapply Forall_impl; [exact Hdesc|]. intros x Hx.
        apply describes_other; [|done]. intros Hid. apply Hnew.
        destruct Hx as (first & _ & Hhead & _).
        assert (Hin : first ∈ eventsOf (Timeline.exchangeId x) evs).
        { destruct (eventsOf _ evs); [done|]. injection Hhead as ->.
          apply elem_of_cons. by left. }
        unfold eventsOf in Hin. apply list_elem_of_filter in Hin as [Hfid Hin].
        rewrite <- Hid, <- Hfid. by apply list_elem_of_fmap_2.
      - apply Forall_singleton. by apply describes_new. }
    intros id i. rewrite fmap_snoc, absorb_exchangeId. simpl.
    destruct (decide (id = exchange_id e)) as [->|Hne].
    + rewrite lookup_insert_eq. split.
      * intros [= <-]. rewrite lookup_app_r by (by rewrite length_fmap).
        by rewrite length_fmap, Nat.sub_diag.
      * intros Hi. f_equal.
        destruct (decide (i < length (Timeline.collection g))%nat) as [Hlt|Hge].
        -- rewrite lookup_app_l in Hi by (by rewrite length_fmap).
           apply Hmap in Hi. congruence.
        -- apply lookup_lt_Some in Hi. rewrite length_app, length_fmap in Hi.
           simpl in Hi. lia.
    + rewrite lookup_insert_ne by done. rewrite Hmap. split.
      * intros Hi. by apply lookup_app_l_Some.
      * intros Hi. apply lookup_app_Some in Hi as [Hi|[Hlen Hi]]; [done|].
        rewrite length_fmap in Hi.
        apply list_lookup_singleton_Some in Hi as [_ Hi]. congruence.
Qed.

Lemma groups_groupingInv evs :
  exists g, Timeline.groups evs = Timeline.collection g /\ groupingInv evs g.
Proof.
  unfold Timeline.groups. eexists. split; [done|].
  induction evs as [|e evs IH] using rev_ind; simpl.
  - apply groupingInv_init.
  - rewrite foldl_app. simpl. by apply groupStep_groupingInv.
Qed.

(** C2.  For every event sequence the grouper produces one exchange per
    distinct exchange id, in first-seen order of the ids.  The verdict list
    of an exchange holds the payloads of the verdict events of that
    exchange, all of them and in order, so its length is their number: a
    verdict event appends.  The prompt and the response of an exchange are
    the payloads of its last prompt event and of its last response event: a
    later one overwrites. *)
Theorem groups_one_exchange_per_id :
  forall evs : list TimelineEvent,
    let gs := Timeline.groups evs in
    Timeline.exchangeId <$> gs = firstSeen (exchange_id <$> evs)
    /\ NoDup (Timeline.exchangeId <$> gs)
    /\ (forall id, id ∈ Timeline.exchangeId <$> gs <-> id ∈ exchange_id <$> evs)
    /\ Forall (fun g =>
         let mine := eventsOf (Timeline.exchangeId g) evs in
         Timeline.judges g = payload <$> ofType judge_verdict mine
         /\ length (Timeline.judges g) = length (ofType judge_verdict mine)
         /\ Timeline.userPrompt g = payload <$> last (ofType user_prompt mine)
         /\ Timeline.response g = payload <$> last (ofType llm_response mine)) gs
    /\ (forall e g,
          (event_type e = judge_verdict ->
           Timeline.judges (Timeline.absorb e g) = Timeline.judges g ++ [payload e])
          /\ (event_type e = llm_response ->
              Timeline.response (Timeline.absorb e g) = Some (payload e))
          /\ (event_type e = user_prompt ->
              Timeline.userPrompt (Timeline.absorb e g) = Some (payload e))
          /\ (event_type e <> judge_verdict ->
              Timeline.judges (Timeline.absorb e g) = Timeline.judges g)).
Proof.
  intros evs gs. destruct (groups_groupingInv evs) as (g & Hg & Hids & Hdesc & _).
  subst gs. rewrite Hg.
  split; [done|]. split; [rewrite Hids; apply firstSeen_NoDup|].
  split; [intros id; rewrite Hids; apply firstSeen_elem_of|].
  split.
  - eapply Forall_impl; [exact Hdesc|]. intros x (first & lastEvent & H).
    destruct H as (_ & _ & _ & _ & _ & Hup & Hresp & Hj).
    cbv zeta. rewrite Hj, length_fmap. done.
  - intros e x. unfold Timeline.absorb.
    repeat split; intros Hty; destruct (event_type e); done.
Qed.

Lemma notLater_trans getTime : Transitive (notLater getTime).
Proof.
  intros a b c (ta & tb & Ha & Hb & Hab) (tb' & tc & Hb' & Hc & Hbc).
  exists ta, tc. repeat split; [done..|]. unfold timeOf in *.
  rewrite Hb in Hb'. injection Hb' as <-. lia.
Qed.

Lemma StronglySorted_sublist {A} (R : relation A) k l :
  sublist k l -> StronglySorted R l -> StronglySorted R k.
Proof.
  induction 1 as [|x k l Hsub IH|x k l Hsub IH]; intros Hs.
  - constructor.
  - apply StronglySorted_inv in Hs as [Hs Hall]. constructor; [by apply IH|].
    apply Forall_forall. intros y Hy.
    eapply Forall_forall in Hall; [exact Hall|].
    by apply (sublist_subseteq _ _ Hsub).
  - apply StronglySorted_inv in Hs as [Hs _]. by apply IH.
Qed.

Lemma StronglySorted_last_latest getTime l x :
  Forall (fun e => is_Some (timeOf getTime e)) l ->
  StronglySorted (notLater getTime) l -> last l = Some x ->
  forall e, e ∈ l -> notLater getTime e x.
Proof.
  intros Hvalid Hsorted. revert x.
  induction Hsorted as [|y l Hs IH Hall]; intros x Hlast e Hin; [done|].
  apply Forall_cons in Hvalid as [[ty Hy] Hvalid].
  destruct l as [|z l].
  - injection Hlast as <-. apply list_elem_of_singleton in Hin as ->.
    exists ty, ty. repeat split; [done..|lia].
  - rewrite last_cons_cons in Hlast.
    assert (Hx : x ∈ z :: l) by (apply last_Some_elem_of; done).
    apply elem_of_cons in Hin as [->|Hin].
    + eapply Forall_forall in Hall; [exact Hall|done].
    + by apply IH.
Qed.

(** C7, as the code has it.  The created-at of a group is the created-at
    of the last event of its exchange, in the order of the input.  When
    the input is in ascending order of time, as the merge delivers it, that
    is a latest created-at of the exchange. *)
Theorem groups_createdAt_of_last_event :
  forall evs : list TimelineEvent,
    Forall (fun g =>
      exists lastEvent,
        last (eventsOf (Timeline.exchangeId g) evs) = Some lastEvent
        /\ Timeline.createdAt g = created_at lastEvent) (Timeline.groups evs)
    /\ (forall Date_getTime : string -> option Z,
          (forall e, e ∈ evs -> is_Some (Date_getTime (created_at e))) ->
          Sorted (notLater Date_getTime) evs ->
          Forall (fun g =>
            isLatestOf Date_getTime (Timeline.createdAt g)
                       (eventsOf (Timeline.exchangeId g) evs))
            (Timeline.groups evs)).
Proof.
  intros evs. destruct (groups_groupingInv evs) as (g & Hg & _ & Hdesc & _).
  rewrite Hg. split.
  - eapply Forall_impl; [exact Hdesc|]. intros x (first & lastEvent & H).
    destruct H as (_ & Hlast & _ & _ & Hca & _). by exists lastEvent.
  - intros getTime Hvalid Hsorted.
    eapply Forall_impl; [exact Hdesc|]. intros x (first & lastEvent & H).
    destruct H as (_ & Hlast & _ & _ & Hca & _).
    set (mine := eventsOf (Timeline.exchangeId x) evs) in *.
    assert (Hsub : sublist mine evs) by apply sublist_filter.
    assert (Hlatest : forall e, e ∈ mine -> notLater getTime e lastEvent).
    { apply StronglySorted_last_latest; [| |done].
      - apply Forall_forall. intros e He. apply Hvalid.
        by apply (sublist_subseteq _ _ Hsub).
      - eapply StronglySorted_sublist; [exact Hsub|].
        apply Sorted_StronglySorted; [apply notLater_trans | done]. }
    assert (Hin : lastEvent ∈ mine) by (by apply last_Some_elem_of).
    split; [exists lastEvent; by split|].
    destruct (Hlatest _ Hin) as (tl & _ & Htl & _ & _).
    exists tl. rewrite Hca. split; [done|]. intros e He.
    destruct (Hlatest _ He) as (te & tl' & Hte & Htl' & Hle).
    exists te. split; [done|]. unfold timeOf in *. congruence.
Qed.

(** C7 fails as stated.  A verdict stamped 00:00:02 is followed in the
    input by the response of the same exchange, stamped 00:00:01: the group
    ends with the created-at of the response, the earlier of the two. *)
Lemma groups_createdAt_not_the_maximum :
  let verdict :=
    Samples.verdictEvent "ex-1" "2024-01-01T00:00:02.000Z" "allow" None in
  let response :=
    Samples.responseEvent "ex-1" "2024-01-01T00:00:01.000Z" None None in
  let evs := [verdict; response] in
  Timeline.createdAt <$> Timeline.groups evs = ["2024-01-01T00:00:01.000Z"]
  /\ eventsOf "ex-1" evs = [verdict; response]
  /\ IsoDate.getTime (created_at verdict) = Some 1704067202000
  /\ IsoDate.getTime "2024-01-01T00:00:01.000Z" = Some 1704067201000
  /\ ~ isLatestOf IsoDate.getTime "2024-01-01T00:00:01.000Z" (eventsOf "ex-1" evs).
Proof.
  cbv zeta.
  assert (Hmine : eventsOf "ex-1"
            [Samples.verdictEvent "ex-1" "2024-01-01T00:00:02.000Z" "allow" None;
             Samples.responseEvent "ex-1" "2024-01-01T00:00:01.000Z" None None]
          = [Samples.verdictEvent "ex-1" "2024-01-01T00:00:02.000Z" "allow" None;
             Samples.responseEvent "ex-1" "2024-01-01T00:00:01.000Z" None None])
    by (vm_compute; reflexivity).
  assert (Hlate : IsoDate.getTime "2024-01-01T00:00:02.000Z" = Some 1704067202000)
    by (vm_compute; reflexivity).
  assert (Hearly : IsoDate.getTime "2024-01-01T00:00:01.000Z" = Some 1704067201000)
    by (vm_compute; reflexivity).
  split; [vm_compute; reflexivity|]. split; [exact Hmine|].
  split; [exact Hlate|]. split; [exact Hearly|].
  rewrite Hmine. intros (_ & ts & Hts & Hall).
  destruct (Hall (Samples.verdictEvent "ex-1" "2024-01-01T00:00:02.000Z" "allow" None))
    as (te & Hte & Hle).
  - apply elem_of_cons. by left.
  - cbn [created_at Samples.verdictEvent] in Hte. rewrite Hlate in Hte.
    rewrite Hearly in Hts. injection Hts as <-. injection Hte as <-. lia.
Qed.

(* ===================================================================== *)
(** * Properties of the playback controller *)
(* ===================================================================== *)

Lemma playbackCall_indexInRange len s c :
  indexInRange len s -> indexInRange len (App.playbackCall len s c).
Proof.
  unfold indexInRange. intros Hr.
  destruct c as [i| |]; simpl;
    unfold App.handleScrub, App.handleStepForward, App.handleStepBack;
    destruct (decide (len = 0%nat)); simpl; lia.
Qed.

Lemma playbackCalls_indexInRange len calls s :
  indexInRange len s -> indexInRange len (foldl (App.playbackCall len) s calls).
Proof.
  revert s. induction calls as [|c calls IH]; intros s Hr; simpl; [done|].
  by apply IH, playbackCall_indexInRange.
Qed.

Lemma playbackCall_idleWhenEmpty len s c :
  idleWhenEmpty len s -> idleWhenEmpty len (App.playbackCall len s c).
Proof.
  unfold idleWhenEmpty. intros Hidle Hlen.
  destruct c as [i| |]; simpl;
    unfold App.handleScrub, App.handleStepForward, App.handleStepBack;
    rewrite decide_True by done; auto.
Qed.

Lemma playbackCalls_idleWhenEmpty len calls s :
  idleWhenEmpty len s -> idleWhenEmpty len (foldl (App.playbackCall len) s calls).
Proof.
  revert s. induction calls as [|c calls IH]; intros s Hidle; simpl; [done|].
  by apply IH, playbackCall_idleWhenEmpty.
Qed.

(** Every writer of the playback state keeps [idleWhenEmpty]: the clicks,
    the slider, the autoplay and the change of the filtered length with
    its effect; the effect keyed on the number of combined events stops
    the playback. *)
Lemma playbackStep_idleWhenEmpty st ev :
  idleWhenEmpty st.1 st.2 ->
  idleWhenEmpty (playbackStep st ev).1 (playbackStep st ev).2.
Proof.
  destruct st as [len s]. unfold idleWhenEmpty. cbn [fst snd]. intros Hidle.
  destruct ev; cbn [playbackStep fst snd]; intros Hlen.
  - unfold App.handlePlay. rewrite decide_True by done. auto.
  - done.
  - unfold App.handleStepForward. rewrite decide_True by done. auto.
  - unfold App.handleStepBack. rewrite decide_True by done. auto.
  - done.
  - unfold App.handleShowAll. by destruct (App.showAllTurns s).
  - unfold App.handleScrub. rewrite decide_True by done. auto.
  - unfold autoplayStep, App.autoplayEffect. rewrite (Hidle Hlen). simpl. auto.
  - unfold App.lengthEffect. by rewrite decide_True by done.
Qed.

Lemma playbackSteps_idleWhenEmpty events :
  let st := foldl playbackStep (0%nat, mountedPlayback) events in
  idleWhenEmpty st.1 st.2.
Proof.
  cbv zeta.
  assert (H0 : idleWhenEmpty (0%nat, mountedPlayback).1 (0%nat, mountedPlayback).2) by done.
  revert H0. generalize (0%nat, mountedPlayback).
  induction events as [|ev events IH]; intros st Hst; simpl; [done|].
  by apply IH, playbackStep_idleWhenEmpty.
Qed.

Lemma combinedLengthEffect_idleWhenEmpty combinedLength len s :
  idleWhenEmpty len (App.combinedLengthEffect combinedLength s).
Proof. done. Qed.

(** C3.  In a state the handlers can be called in (nothing plays over an
    empty sequence), from an index in [-1, len-1] over a sequence of fixed
    length [len]: after any sequence of scrub, step-forward and step-back
    calls the index is in [-1, len-1], and in the state reached a step
    forward or back sets the index to clamp(index ± 1, -1, len-1) and
    leaves nothing playing, and scrub(i) sets the index to
    clamp(i, 0, len-1) and leaves nothing playing. *)
Theorem playback_index_clamped :
  forall (len : nat) (s : App.Playback) (calls : list App.PlaybackCall),
    indexInRange len s -> idleWhenEmpty len s ->
    let s' := foldl (App.playbackCall len) s calls in
    indexInRange len s'
    /\ (App.playbackIndex (App.handleStepForward len s')
        = App.clamp (App.playbackIndex s' + 1) (-1) (Z.of_nat len - 1)
        /\ App.isPlaying (App.handleStepForward len s') = false)
    /\ (App.playbackIndex (App.handleStepBack len s')
        = App.clamp (App.playbackIndex s' - 1) (-1) (Z.of_nat len - 1)
        /\ App.isPlaying (App.handleStepBack len s') = false)
    /\ (forall i,
          App.playbackIndex (App.handleScrub len i s')
          = App.clamp i 0 (Z.of_nat len - 1)
          /\ App.isPlaying (App.handleScrub len i s') = false).
Proof.
  intros len s calls Hr Hidle s'.
  assert (Hr' : indexInRange len s') by (by apply playbackCalls_indexInRange).
  assert (Hidle' : idleWhenEmpty len s') by (by apply playbackCalls_idleWhenEmpty).
  clearbody s'. split; [exact Hr'|].
  unfold indexInRange, idleWhenEmpty in *.
  unfold App.handleStepForward, App.handleStepBack, App.handleScrub, App.clamp.
  destruct (decide (len = 0%nat)) as [Hlen|Hne]; simpl.
  - rewrite (Hidle' Hlen). subst len. simpl in *. repeat split; try done; lia.
  - repeat split; try done; lia.
Qed.

(** The claim about clamping applies: a sequence of three events, the
    index on the middle one, playing. *)
Lemma playback_index_clamped_witness :
  let s := {| App.playbackIndex := 1; App.isPlaying := true;
              App.showAllTurns := false |} in
  let s' := foldl (App.playbackCall 3) s [App.StepForward; App.Scrub 7; App.StepBack] in
  (indexInRange 3 s /\ idleWhenEmpty 3 s)
  /\ App.playbackIndex s' = 1
  /\ App.playbackIndex (App.handleStepForward 3 s') = 2
  /\ App.isPlaying (App.handleStepForward 3 s') = false
  /\ App.playbackIndex (App.handleScrub 3 7 s') = 2.
Proof.
  cbv zeta.
  assert (Hr : indexInRange 3
    {| App.playbackIndex := 1; App.isPlaying := true; App.showAllTurns := false |})
    by (unfold indexInRange; simpl; lia).
  assert (Hidle : idleWhenEmpty 3
    {| App.playbackIndex := 1; App.isPlaying := true; App.showAllTurns := false |})
    by (intros Hlen; discriminate Hlen).
  destruct (playback_index_clamped 3
    {| App.playbackIndex := 1; App.isPlaying := true; App.showAllTurns := false |}
    [App.StepForward; App.Scrub 7; App.StepBack] Hr Hidle) as (_ & [Hf Hp] & _ & Hs).
  split; [by split|]. split; [reflexivity|].
  split; [rewrite Hf; reflexivity|]. split; [exact Hp|].
  rewrite (proj1 (Hs 7)). reflexivity.
Defined.

(** C4, as the code has it.  When the filtered sequence has become empty
    the effect keyed on its length sets the index to -1 and stops playing.
    When its length has changed to a [len] that is not zero (so also when
    it has shrunk and is not empty), the effect turns an index that is not
    negative into min(index, len-1), which is that index clamped into
    [-1, len-1], and it turns a negative index (-1, nothing shown) into
    len-1, the last position. *)
Theorem length_effect_index :
  forall (len : nat) (s : App.Playback),
    (len = 0%nat ->
     App.playbackIndex (App.lengthEffect len s) = -1
     /\ App.isPlaying (App.lengthEffect len s) = false)
    /\ (len <> 0%nat -> 0 <= App.playbackIndex s ->
        App.playbackIndex (App.lengthEffect len s)
        = App.clamp (App.playbackIndex s) (-1) (Z.of_nat len - 1)
        /\ App.playbackIndex (App.lengthEffect len s)
           = Z.min (App.playbackIndex s) (Z.of_nat len - 1))
    /\ (len <> 0%nat -> App.playbackIndex s < 0 ->
        App.playbackIndex (App.lengthEffect len s) = Z.of_nat len - 1).
Proof.
  intros len s. unfold App.lengthEffect, App.clamp.
  destruct (decide (len = 0%nat)) as [->|Hne]; simpl.
  - repeat split; done.
  - destruct (decide (App.playbackIndex s < 0)); repeat split; try done; lia.
Qed.

(** C4 fails as stated.  The sequence shrinks to three events while the
    index is -1: the index does not stay -1, it moves to 2, the last
    position, although -1 clamped into [-1, 2] is -1. *)
Lemma length_effect_moves_minus_one :
  let s := {| App.playbackIndex := -1; App.isPlaying := false;
              App.showAllTurns := false |} in
  App.playbackIndex (App.lengthEffect 3 s) = 2
  /\ App.clamp (App.playbackIndex s) (-1) (3 - 1) = -1.
Proof. cbv zeta. split; reflexivity. Qed.

(* ===================================================================== *)
(** * Properties of the metrics *)
(* ===================================================================== *)

Lemma List_filter_bool_decide {A} (P : A -> Prop) `{!forall x, Decision (P x)} l :
  List.filter (fun x => bool_decide (P x)) l = filter P l.
Proof.
  induction l as [|x l IH]; simpl; [done|].
  rewrite filter_cons. case_bool_decide; destruct (decide (P x)); try done.
  by f_equal.
Qed.

Lemma countVerdict_step c e :
  let one v := if decide (payload_verdict (payload e) = Some v) then 1 else 0 in
  App.countVerdict c e =
  {| App.allowCount := App.allowCount c + one "allow";
     App.warnCount := App.warnCount c + one "warn";
     App.blockCount := App.blockCount c + one "block" |}.
Proof.
  cbv zeta. unfold App.countVerdict. destruct c as [a w b]. simpl.
  repeat case_decide; simplify_eq; f_equal; lia.
Qed.

Lemma foldl_countVerdict evs c :
  let n v := Z.of_nat (length (filter (fun e => payload_verdict (payload e) = Some v) evs)) in
  foldl App.countVerdict c evs =
  {| App.allowCount := App.allowCount c + n "allow";
     App.warnCount := App.warnCount c + n "warn";
     App.blockCount := App.blockCount c + n "block" |}.
Proof.
  cbv zeta. revert c. induction evs as [|e evs IH]; intros c.
  - destruct c. simpl. f_equal; lia.
  - cbn [foldl]. rewrite IH, countVerdict_step, !filter_cons.
    cbn [App.allowCount App.warnCount App.blockCount].
    repeat case_decide; cbn [length]; f_equal; lia.
Qed.

Lemma append_percent_not_pending s : s +:+ "%" <> "pending".
Proof.
  do 7 (destruct s as [|? s]; [discriminate|]; simpl; intros [= ? H]; revert H).
  destruct s; discriminate.
Qed.

(** C5, as the code has it.  Over the events of the playback window, with
    [allow], [warn], [block] and [total] the numbers of verdict events
    whose verdict is allow, warn, block, and of all verdict events: the
    judge agreement is "pending" exactly when [total] is zero; otherwise it
    is the text of Math.round(((allow + warn × 0.4) / total) × 100), each
    operation a binary64 one in this order, followed by "%"; the
    violations flagged are [warn + block].  The window {allow, allow, warn,
    block} gives "60%" and 2. *)
Theorem metrics_judge_agreement :
  forall active : list TimelineEvent,
    let total := totalVerdictCount active in
    let allow := verdictCount "allow" active in
    let warn := verdictCount "warn" active in
    let block := verdictCount "block" active in
    (App.judgeAgreement (App.metrics active) = "pending" <-> total = 0)
    /\ (total <> 0 ->
        App.judgeAgreement (App.metrics active)
        = App.roundedToString
            (((App.number_of_Z allow + App.number_of_Z warn * App.point_four)
              / App.number_of_Z total) * 100)%float +:+ "%")
    /\ App.violationCount (App.metrics active) = warn + block
    /\ App.metrics (verdictWindow ["allow"; "allow"; "warn"; "block"])
       = {| App.judgeAgreement := "60%"; App.violationCount := 2 |}.
Proof.
  intros active total allow warn block.
  assert (Hm : App.metrics active =
    {| App.judgeAgreement :=
         if decide (total = 0) then "pending"
         else App.roundedToString
                (((App.number_of_Z allow + App.number_of_Z warn * App.point_four)
                  / App.number_of_Z total) * 100)%float +:+ "%";
       App.violationCount := warn + block |}).
  { unfold App.metrics. rewrite List_filter_bool_decide.
    fold (ofType judge_verdict active). rewrite foldl_countVerdict.
    cbn [App.allowCount App.warnCount App.blockCount].
    rewrite !Z.add_0_l. reflexivity. }
  rewrite Hm. cbn [App.judgeAgreement App.violationCount].
  split; [|split; [|split]].
  - destruct (decide (total = 0)) as [H0|H0]; [done|].
    split; [|done]. intros Hp. by apply append_percent_not_pending in Hp.
  - intros H0. by rewrite decide_False.
  - done.
  - vm_compute. reflexivity.
Qed.

(** C5 fails as stated.  A window of 3 allow, 9 warn and 12 block verdicts
    has the exact percentage 100 × (3 + 0.4 × 9) / 24 = 27.5, which rounds
    to 28; the code shows "27%".  In binary64 the sum 3 + 9 × 0.4 is the
    number nearest to 6.6, a little below it; divided by 24 it is
    0.27499999999999997, and times 100 it is 27.499999999999996, which
    Math.round takes to 27.  Evaluated in the order the claim writes it,
    100 × 6.6 / 24, the binary64 result is 27.5 and rounds to 28. *)
Lemma metrics_agreement_differs_from_exact_rounding :
  let window :=
    verdictWindow (replicate 3 "allow" ++ replicate 9 "warn" ++ replicate 12 "block") in
  totalVerdictCount window = 24
  /\ verdictCount "allow" window = 3
  /\ verdictCount "warn" window = 9
  /\ App.judgeAgreement (App.metrics window) = "27%"
  /\ 2 * (100 * 3 + 40 * 9) = 55 * 24
  /\ exactAgreementPercent 3 9 24 = 28
  /\ App.roundedToString
       ((100 * (App.number_of_Z 3 + App.point_four * App.number_of_Z 9))
        / App.number_of_Z 24)%float = "28".
Proof. cbv zeta. repeat split; vm_compute; reflexivity. Qed.

(* ===================================================================== *)
(** * Properties of the filters *)
(* ===================================================================== *)

Lemma string_app_nil_l (s : string) : "" +:+ s = s.
Proof. reflexivity. Qed.

Lemma string_app_cons (c : ascii) (s t : string) : String c s +:+ t = String c (s +:+ t).
Proof. reflexivity. Qed.

Lemma string_app_nil_r (s : string) : s +:+ "" = s.
Proof. induction s as [|c s IH]; [done|]. by rewrite string_app_cons, IH. Qed.

Lemma string_app_assoc (a b c : string) : (a +:+ b) +:+ c = a +:+ b +:+ c.
Proof.
  induction a as [|x a IH]; [done|]. by rewrite !string_app_cons, IH.
Qed.

Lemma string_app_length (a b : string) :
  String.length (a +:+ b) = (String.length a + String.length b)%nat.
Proof. induction a as [|x a IH]; [done|]. rewrite string_app_cons. simpl. by rewrite IH. Qed.

Lemma string_rev_app_spec (a b : string) : String.rev_app a b = String.rev a +:+ b.
Proof.
  unfold String.rev. revert b. induction a as [|x a IH]; intros b; simpl; [done|].
  rewrite IH, (IH (String x "")), string_app_assoc. done.
Qed.

Lemma string_rev_cons (x : ascii) (a : string) :
  String.rev (String x a) = String.rev a +:+ String x "".
Proof. unfold String.rev at 1. simpl. apply string_rev_app_spec. Qed.

Lemma string_rev_app (a b : string) : String.rev (a +:+ b) = String.rev b +:+ String.rev a.
Proof.
  induction a as [|x a IH].
  - by rewrite string_app_nil_l, string_app_nil_r.
  - by rewrite string_app_cons, !string_rev_cons, IH, string_app_assoc.
Qed.

Lemma string_rev_involutive (a : string) : String.rev (String.rev a) = a.
Proof.
  induction a as [|x a IH]; [done|].
  by rewrite string_rev_cons, string_rev_app, IH.
Qed.

Lemma string_rev_length (a : string) : String.length (String.rev a) = String.length a.
Proof.
  induction a as [|x a IH]; [done|].
  rewrite string_rev_cons, string_app_length, IH. simpl. lia.
Qed.

Lemma dropPrefix_Some w s r : App.dropPrefix w s = Some r <-> s = w +:+ r.
Proof.
  revert s. induction w as [|a w IH]; intros s; simpl.
  - rewrite string_app_nil_l. split; [by intros [= ->] | by intros ->].
  - rewrite string_app_cons. destruct s as [|b s]; [done|].
    destruct (Ascii.eqb_spec a b) as [->|Hne].
    + rewrite IH. split; [by intros -> | by intros [= ->]].
    + split; [done | intros [= <- _]; done].
Qed.

Lemma stripFirst_Some ws s r :
  App.stripFirst ws s = Some r -> exists w, w ∈ ws /\ s = w +:+ r.
Proof.
  induction ws as [|w ws IH]; simpl; [done|].
  destruct (App.dropPrefix w s) as [r'|] eqn:Hd.
  - intros [= ->]. exists w. split; [apply list_elem_of_here|]. by apply dropPrefix_Some.
  - intros H. destruct (IH H) as (w' & Hin & ->). exists w'.
    split; [by apply list_elem_of_further|done].
Qed.

Lemma stripFirst_None ws s :
  App.stripFirst ws s = None <-> forall w r, w ∈ ws -> s <> w +:+ r.
Proof.
  induction ws as [|w ws IH]; simpl.
  - split; [|done]. intros _ w r Hin. by apply elem_of_nil in Hin.
  - destruct (App.dropPrefix w s) as [r'|] eqn:Hd.
    + split; [done|]. intros H. apply dropPrefix_Some in Hd.
      destruct (H w r' (list_elem_of_here _ _) Hd).
    + rewrite IH. split.
      * intros H w' r [->|Hin]%elem_of_cons; [|by apply H].
        intros Hs. apply dropPrefix_Some in Hs. congruence.
      * intros H w' r Hin. apply H. by apply list_elem_of_further.
Qed.

Lemma stripAll_spec ws fuel s :
  Forall (fun w => w <> "") ws ->
  (String.length s <= fuel)%nat ->
  exists pre,
    Forall (fun w => w ∈ ws) pre
    /\ s = concatStrings pre +:+ App.stripAll fuel ws s
    /\ App.stripFirst ws (App.stripAll fuel ws s) = None.
Proof.
  intros Hne. revert s. induction fuel as [|fuel IH]; intros s Hlen.
  - destruct s; [|simpl in Hlen; lia]. exists []. simpl. split; [done|]. split; [done|].
    apply stripFirst_None. intros w r Hin Hs.
    rewrite Forall_forall in Hne. apply (Hne w Hin).
    destruct w; [done|]. by rewrite string_app_cons in Hs.
  - cbn [App.stripAll]. destruct (App.stripFirst ws s) as [r|] eqn:Hs.
    + destruct (stripFirst_Some _ _ _ Hs) as (w & Hin & ->).
      assert (Hw : w <> "") by (rewrite Forall_forall in Hne; by apply Hne).
      rewrite string_app_length in Hlen.
      assert (0 < String.length w)%nat by (destruct w; [done|simpl; lia]).
      destruct (IH r ltac:(lia)) as (pre & Hpre & Hr & Hnone).
      exists (w :: pre). split; [by constructor|]. split; [|done].
      unfold concatStrings in *. cbn [foldr]. rewrite string_app_assoc. by rewrite <- Hr.
    + exists []. split; [done|]. split; [done|]. exact Hs.
Qed.

Lemma string_app_inv_l (a r r' : string) : a +:+ r = a +:+ r' -> r = r'.
Proof. induction a as [|x a IH]; [done|]. rewrite !string_app_cons. intros [= H]. auto. Qed.

Lemma nonempty_length (ws : list string) (w : string) :
  Forall (fun w => w <> "") ws -> w ∈ ws -> (0 < String.length w)%nat.
Proof.
  rewrite Forall_forall. intros Hne Hin. specialize (Hne w Hin).
  destruct w; [done|simpl; lia].
Qed.

Lemma stripAll_fuel ws fuel fuel' s :
  Forall (fun w => w <> "") ws ->
  (String.length s <= fuel)%nat -> (String.length s <= fuel')%nat ->
  App.stripAll fuel ws s = App.stripAll fuel' ws s.
Proof.
  intros Hne. revert fuel' s. induction fuel as [|fuel IH]; intros fuel' s Hl Hl'.
  - destruct s; [|simpl in Hl; lia]. destruct fuel'; [done|]. cbn [App.stripAll].
    destruct (App.stripFirst ws "") as [r|] eqn:Hs; [|done].
    destruct (stripFirst_Some _ _ _ Hs) as (w & Hin & Heq).
    pose proof (nonempty_length _ _ Hne Hin). destruct w; [simpl in *; lia|done].
  - cbn [App.stripAll]. destruct (App.stripFirst ws s) as [r|] eqn:Hs.
    + destruct (stripFirst_Some _ _ _ Hs) as (w & Hin & ->).
      pose proof (nonempty_length _ _ Hne Hin).
      rewrite string_app_length in Hl, Hl'.
      destruct fuel' as [|fuel']; [lia|]. cbn [App.stripAll]. rewrite Hs.
      apply IH; lia.
    + destruct fuel'; [done|]. cbn [App.stripAll]. by rewrite Hs.
Qed.

Lemma stripAll_concat ws fuel fuel' pre r :
  Forall (fun w => w <> "") ws -> prefixFree ws ->
  Forall (fun w => w ∈ ws) pre ->
  (String.length (concatStrings pre +:+ r) <= fuel)%nat ->
  (String.length r <= fuel')%nat ->
  App.stripAll fuel ws (concatStrings pre +:+ r) = App.stripAll fuel' ws r.
Proof.
  intros Hne Hfree Hpre. revert fuel. induction Hpre as [|w pre Hin Hpre IH]; intros fuel Hlen Hlen'.
  - unfold concatStrings in *. simpl in *. rewrite string_app_nil_l in *.
    by apply stripAll_fuel.
  - unfold concatStrings in *. cbn [foldr] in *. rewrite string_app_assoc in *.
    pose proof (nonempty_length _ _ Hne Hin).
    rewrite string_app_length in Hlen.
    destruct fuel as [|fuel]; [lia|]. cbn [App.stripAll].
    destruct (App.stripFirst ws (w +:+ foldr String.append "" pre +:+ r)) as [r0|] eqn:Hs.
    + destruct (stripFirst_Some _ _ _ Hs) as (w' & Hin' & Heq).
      assert (w = w') by (eapply Hfree; eauto). subst w'.
      apply string_app_inv_l in Heq. subst r0.
      apply IH; [lia|done].
    + rewrite stripFirst_None in Hs. destruct (Hs w _ Hin eq_refl).
Qed.

Lemma string_app_eq_prefix (w w' r r' : string) :
  w +:+ r = w' +:+ r' ->
  (exists x, w' = w +:+ x) \/ (exists x, w = w' +:+ x).
Proof.
  revert w'. induction w as [|a w IH]; intros w' Heq.
  - left. by exists w'.
  - destruct w' as [|b w']; [right; by exists (String a w)|].
    rewrite !string_app_cons in Heq. injection Heq as -> Heq.
    destruct (IH _ Heq) as [[x ->]|[x ->]]; [left|right]; by exists x.
Qed.

Lemma prefixFree_check (ws : list string) :
  forallb (fun w => forallb (fun w' => negb (properStart w w')) ws) ws = true ->
  prefixFree ws.
Proof.
  intros Hchk w w' r r' Hin Hin' Heq.
  assert (Hno : forall a b x, a ∈ ws -> b ∈ ws -> b = a +:+ x -> x = "").
  { intros a b x Ha Hb Hx.
    rewrite forallb_forall in Hchk. specialize (Hchk a (proj1 (list_elem_of_In _ _) Ha)).
    rewrite forallb_forall in Hchk. specialize (Hchk b (proj1 (list_elem_of_In _ _) Hb)).
    unfold properStart in Hchk. apply dropPrefix_Some in Hx. rewrite Hx in Hchk.
    by destruct x. }
  destruct (string_app_eq_prefix _ _ _ _ Heq) as [[x Hx]|[x Hx]].
  - rewrite (Hno _ _ _ Hin Hin' Hx), string_app_nil_r in Hx. done.
  - rewrite (Hno _ _ _ Hin' Hin Hx), string_app_nil_r in Hx. done.
Qed.

Lemma whiteSpace_nonempty : Forall (fun w => w <> "") App.whiteSpace.
Proof. repeat constructor; discriminate. Qed.

Lemma whiteSpace_prefixFree : prefixFree App.whiteSpace.
Proof. apply prefixFree_check. vm_compute. reflexivity. Qed.

Lemma whiteSpace_rev_nonempty : Forall (fun w => w <> "") (String.rev <$> App.whiteSpace).
Proof. repeat constructor; discriminate. Qed.

Lemma concatStrings_app (a b : list string) :
  concatStrings (a ++ b) = concatStrings a +:+ concatStrings b.
Proof.
  unfold concatStrings. induction a as [|x a IH]; [done|].
  simpl. by rewrite IH, string_app_assoc.
Qed.

Lemma concatStrings_rev (ws : list string) :
  String.rev (concatStrings ws) = concatStrings (reverse (String.rev <$> ws)).
Proof.
  induction ws as [|w ws IH]; [done|].
  rewrite fmap_cons, reverse_cons, concatStrings_app. unfold concatStrings at 1. cbn [foldr].
  fold (concatStrings ws). rewrite string_rev_app, IH.
  unfold concatStrings at 3. simpl. by rewrite string_app_nil_r.
Qed.

Lemma whiteSpaceOnly_app (a b : string) :
  whiteSpaceOnly a -> whiteSpaceOnly b -> whiteSpaceOnly (a +:+ b).
Proof.
  intros (wa & Ha & ->) (wb & Hb & ->). exists (wa ++ wb).
  split; [by apply Forall_app|]. symmetry. apply concatStrings_app.
Qed.

Lemma whiteSpaceOnly_rev (pre : list string) :
  Forall (fun w => w ∈ String.rev <$> App.whiteSpace) pre ->
  whiteSpaceOnly (String.rev (concatStrings pre)).
Proof.
  intros Hpre. exists (reverse (String.rev <$> pre)). split.
  - apply Forall_reverse, Forall_fmap. eapply Forall_impl; [exact Hpre|].
    intros w (w0 & -> & Hin)%list_elem_of_fmap. simpl. by rewrite string_rev_involutive.
  - apply concatStrings_rev.
Qed.

Lemma trimStart_spec s :
  exists pre, whiteSpaceOnly pre /\ s = pre +:+ App.trimStart s
              /\ forall w r, w ∈ App.whiteSpace -> App.trimStart s <> w +:+ r.
Proof.
  destruct (stripAll_spec App.whiteSpace (String.length s) s whiteSpace_nonempty (le_n _))
    as (pre & Hpre & Hs & Hnone).
  exists (concatStrings pre). split; [by exists pre|]. split; [exact Hs|].
  by apply stripFirst_None.
Qed.

Lemma trimEnd_spec s :
  exists post, whiteSpaceOnly post /\ s = App.trimEnd s +:+ post
               /\ forall w r, w ∈ App.whiteSpace -> App.trimEnd s <> r +:+ w.
Proof.
  destruct (stripAll_spec (String.rev <$> App.whiteSpace) (String.length s) (String.rev s)
              whiteSpace_rev_nonempty) as (pre & Hpre & Hs & Hnone).
  { by rewrite string_rev_length. }
  exists (String.rev (concatStrings pre)). split; [by apply whiteSpaceOnly_rev|]. split.
  - unfold App.trimEnd. rewrite <- string_rev_app, <- Hs. by rewrite string_rev_involutive.
  - intros w r Hin Heq. rewrite stripFirst_None in Hnone.
    apply (Hnone (String.rev w) (String.rev r)).
    + apply list_elem_of_fmap. by exists w.
    + unfold App.trimEnd in Heq. rewrite <- string_rev_app, <- Heq.
      by rewrite string_rev_involutive.
Qed.

(** [trim] removes the white space of the two ends, and nothing else. *)
Lemma trim_spec s : trimmedOf (App.trim s) s.
Proof.
  destruct (trimStart_spec s) as (pre & Hpre & Hs & Hstart).
  destruct (trimEnd_spec (App.trimStart s)) as (post & Hpost & Ht & Hend).
  fold (App.trim s) in Ht, Hend.
  split; [|split].
  - exists pre, post. split; [done|]. split; [done|]. by rewrite <- Ht.
  - intros w r Hin Heq. apply (Hstart w (r +:+ post) Hin).
    by rewrite Ht, Heq, string_app_assoc.
  - exact Hend.
Qed.

(** A string is blank for [trim] exactly when it is white space alone. *)
Lemma trim_blank s : App.trim s = "" <-> whiteSpaceOnly s.
Proof.
  split.
  - intros Hb. destruct (trim_spec s) as ((pre & post & Hpre & Hpost & Hs) & _).
    rewrite Hb, string_app_nil_l in Hs. rewrite Hs. by apply whiteSpaceOnly_app.
  - intros (ws & Hws & ->).
    assert (Hstart : App.trimStart (concatStrings ws) = "").
    { unfold App.trimStart.
      rewrite <- (string_app_nil_r (concatStrings ws)) at 2.
      rewrite (stripAll_concat _ _ 0 ws "" whiteSpace_nonempty whiteSpace_prefixFree Hws);
        [done| |done].
      by rewrite string_app_nil_r. }
    unfold App.trim. rewrite Hstart. reflexivity.
Qed.

(** A no-break space (U+00A0) alone is blank, and a line separator
    (U+2028) at the end is trimmed like a space at the start. *)
Example trim_beyond_ascii :
  App.trim (App.utf8 [194%N; 160%N]) = ""
  /\ App.trim (" a b" +:+ App.utf8 [226%N; 128%N; 168%N]) = "a b".
Proof. split; vm_compute; reflexivity. Qed.

Lemma questionCategoryOf_nonempty e : App.questionCategoryOf e <> "".
Proof.
  unfold App.questionCategoryOf.
  destruct (payload_question_category (payload e)) as [c|]; [|done].
  repeat case_decide; done.
Qed.

Lemma exchangeQuestionCategory_lookup ordered id :
  App.exchangeQuestionCategory ordered !! id = categoryFacet ordered id.
Proof.
  unfold App.exchangeQuestionCategory, categoryFacet, lastResponse.
  induction ordered as [|e ordered IH] using rev_ind; [done|].
  rewrite foldl_app, eventsOf_snoc. cbn [foldl].
  destruct (decide (event_type e = llm_response)) as [Hty|Hty].
  - destruct (decide (exchange_id e = id)) as [Hid|Hid]; [subst id|].
    + rewrite lookup_insert_eq, ofType_snoc.
      rewrite decide_True by done. by rewrite last_snoc.
    + rewrite lookup_insert_ne by done. by rewrite app_nil_r.
  - destruct (decide (exchange_id e = id)) as [Hid|Hid]; [subst id|].
    + rewrite ofType_snoc, decide_False by done.
      by rewrite app_nil_r.
    + by rewrite app_nil_r.
Qed.

Lemma exchangeViolationCategories_lookup ordered id :
  App.exchangeViolationCategories ordered !! id =
  match violationFacet ordered id with
  | [] => None
  | cs => Some (list_to_set cs)
  end.
Proof.
  unfold App.exchangeViolationCategories, violationFacet, verdictsOf.
  induction ordered as [|e ordered IH] using rev_ind; [done|].
  rewrite foldl_app, eventsOf_snoc. cbn [foldl].
  set (m := foldl _ ∅ ordered) in *.
  destruct (decide (event_type e = judge_verdict)) as [Hty|Hty].
  - destruct (decide (exchange_id e = id)) as [Hid|Hid]; [subst id|].
    + rewrite ofType_snoc, decide_True by done.
      rewrite fmap_snoc.
      set (cs := App.violationCategoryOf <$> ofType judge_verdict (eventsOf (exchange_id e) ordered)) in *.
      assert (Hset : forall s : gset string,
                {[ App.violationCategoryOf e ]} ∪ s
                = s ∪ {[ App.violationCategoryOf e ]})
        by (intros s; apply (comm_L (∪))).
      assert (Hres : Some (list_to_set (cs ++ [App.violationCategoryOf e]) : gset string)
                     = match cs ++ [App.violationCategoryOf e] with
                       | [] => None
                       | l => Some (list_to_set l)
                       end) by (by destruct cs).
      rewrite <- Hres, list_to_set_app_L. simpl. rewrite union_empty_r_L.
      destruct (m !! exchange_id e) as [s|] eqn:Hm.
      * rewrite lookup_alter_eq, Hm. simpl. rewrite Hset. f_equal. f_equal.
        destruct cs; [done|]. by injection IH as ->.
      * rewrite lookup_alter_eq, lookup_insert_eq. simpl. rewrite Hset.
        f_equal. f_equal. by destruct cs.
    + rewrite app_nil_r.
      destruct (m !! exchange_id e) as [s|] eqn:Hm.
      * by rewrite lookup_alter_ne.
      * by rewrite lookup_alter_ne, lookup_insert_ne.
  - destruct (decide (exchange_id e = id)) as [Hid|Hid]; [subst id|].
    + rewrite ofType_snoc, decide_False by done.
      by rewrite app_nil_r.
    + by rewrite app_nil_r.
Qed.

Lemma existsb_elements_list_to_set (selected : gset string) (cs : list string) :
  existsb (fun c => bool_decide (c ∈ selected)) (elements (list_to_set cs : gset string))
  = existsb (fun c => bool_decide (c ∈ selected)) cs.
Proof.
  apply eq_true_iff_eq. rewrite !existsb_exists. split.
  - intros (c & Hin & Hsel). exists c. split; [|done].
    apply list_elem_of_In, elem_of_elements, elem_of_list_to_set in Hin.
    by apply list_elem_of_In.
  - intros (c & Hin & Hsel). exists c. split; [|done].
    apply list_elem_of_In, elem_of_elements, elem_of_list_to_set.
    by apply list_elem_of_In.
Qed.

Lemma eventPasses_exchangePasses ordered selQ selV e :
  App.eventPasses (App.exchangeQuestionCategory ordered)
                  (App.exchangeViolationCategories ordered) selQ selV e
  = exchangePasses selQ selV ordered (exchange_id e).
Proof.
  unfold App.eventPasses, exchangePasses, filterActive.
  rewrite exchangeQuestionCategory_lookup, exchangeViolationCategories_lookup.
  f_equal.
  - f_equal. unfold categoryFacet.
    destruct (lastResponse ordered (exchange_id e)) as [r|]; [|done]. simpl.
    rewrite decide_False by apply questionCategoryOf_nonempty. done.
  - f_equal. destruct (violationFacet ordered (exchange_id e)) as [|c cs] eqn:E; [done|].
    by rewrite existsb_elements_list_to_set.
Qed.

Lemma exchangePasses_inactive selQ selV ordered id :
  filterActive selQ = false -> filterActive selV = false ->
  exchangePasses selQ selV ordered id = true.
Proof. unfold exchangePasses. by intros -> ->. Qed.

(** C6, as the code has it.  With the category facet of an exchange the
    category of its last response event ("Uncategorized" when that one is
    missing or blank; none at all when the exchange has no response event)
    and its violation facet the categories of its verdict events (each the
    trimmed category of the violation, "policy_violation" when the verdict
    has no violation or a blank category): an exchange passes iff (no
    category filter is active, or it has a category and that one is
    selected) and (no violation filter is active, or one of its violation
    categories is selected); the filtered sequence is the ordered one
    restricted, in order, to the events whose exchange passes, whatever the
    event itself carries.  The last three parts spell the two facets out
    on the events, and what trimmed and blank are: the trimmed text is the
    text without the white space of its two ends, and a text is blank when
    it is white space alone. *)
Theorem filteredEvents_keeps_passing_exchanges :
  forall (ordered : list TimelineEvent) (selQ selV : gset string),
    App.filteredEvents ordered selQ selV
    = List.filter (fun e => exchangePasses selQ selV ordered (exchange_id e)) ordered
    /\ (forall e, e ∈ App.filteredEvents ordered selQ selV
                  <-> e ∈ ordered
                      /\ exchangePasses selQ selV ordered (exchange_id e) = true)
    /\ (forall id,
          exchangePasses selQ selV ordered id = true
          <-> (size selQ = 0%nat
               \/ exists c, categoryFacet ordered id = Some c /\ c ∈ selQ)
              /\ (size selV = 0%nat
                  \/ exists c, c ∈ violationFacet ordered id /\ c ∈ selV))
    /\ (forall id,
          categoryFacet ordered id
          = (fun r =>
               match payload_question_category (payload r) with
               | Some raw => if decide (App.trim raw = "") then "Uncategorized" else raw
               | None => "Uncategorized"
               end) <$> lastResponse ordered id)
    /\ (forall id,
          violationFacet ordered id
          = (fun v =>
               match payload_violation (payload v) with
               | Some found =>
                   if decide (App.trim (category found) = "") then "policy_violation"
                   else App.trim (category found)
               | None => "policy_violation"
               end) <$> verdictsOf ordered id)
    /\ (forall text : string,
          trimmedOf (App.trim text) text
          /\ (App.trim text = "" <-> whiteSpaceOnly text)).
Proof.
  intros ordered selQ selV.
  assert (Heq : App.filteredEvents ordered selQ selV
    = List.filter (fun e => exchangePasses selQ selV ordered (exchange_id e)) ordered).
  { unfold App.filteredEvents.
    fold (filterActive selQ). fold (filterActive selV).
    destruct (negb (filterActive selQ) && negb (filterActive selV)) eqn:Hact.
    - apply andb_true_iff in Hact as [HQ HV].
      apply negb_true_iff in HQ, HV.
      symmetry. apply forallb_filter_id. apply forallb_forall. intros e _.
      by apply exchangePasses_inactive.
    - apply filter_ext_in. intros e _. apply eventPasses_exchangePasses. }
  split; [exact Heq|]. split; [|split; [|split; [|split]]].
  - intros e. rewrite Heq, list_elem_of_In, filter_In, <- list_elem_of_In. done.
  - intros id. unfold exchangePasses, filterActive.
    rewrite andb_true_iff, !orb_true_iff, !negb_true_iff, !bool_decide_eq_false.
    rewrite existsb_exists.
    assert (Hsize : forall s : gset string, ¬ (0 < size s)%nat <-> size s = 0%nat)
      by (intros s; lia).
    rewrite !Hsize.
    split; intros [HQ HV]; (split; [clear HV | clear HQ]).
    + destruct HQ as [HQ|HQ]; [by left|right].
      destruct (categoryFacet ordered id) as [c|]; [|done].
      exists c. split; [done|]. by apply bool_decide_eq_true in HQ.
    + destruct HV as [HV|(c & Hin & Hsel)]; [by left|right].
      exists c. split; [by apply list_elem_of_In|]. by apply bool_decide_eq_true in Hsel.
    + destruct HQ as [HQ|(c & -> & Hsel)]; [by left|right].
      by apply bool_decide_eq_true.
    + destruct HV as [HV|(c & Hin & Hsel)]; [by left|right].
      exists c. split; [by apply list_elem_of_In|]. by apply bool_decide_eq_true.
  - intros id. unfold categoryFacet. apply option_fmap_ext. intros r.
    unfold App.questionCategoryOf.
    destruct (payload_question_category (payload r)) as [raw|]; [|done].
    destruct (decide (raw = "")) as [->|Hraw]; [|done].
    by rewrite decide_True by reflexivity.
  - intros id. unfold violationFacet. apply list_fmap_ext. intros _ v _. done.
  - intros text. split; [apply trim_spec | apply trim_blank].
Qed.

(** C6 fails as stated, in both directions.  First, an exchange whose one
    event is an allow verdict without a violation has no violation
    category in the words of the claim, so it fails the filter on
    "policy_violation"; the code gives every verdict a category, that one
    by default, and keeps the event.  Second, an exchange whose one event
    is a verdict has, in the words of the claim, the category
    "Uncategorized" and passes the filter on it; the code gives an exchange
    without a response event no category and drops the event. *)
Lemma filteredEvents_differs_from_claimed_facets :
  let allowed :=
    [Samples.verdictEvent "ex-1" "2024-01-01T00:00:00.000Z" "allow" None] in
  let flagged :=
    [Samples.verdictEvent "ex-2" "2024-01-01T00:00:00.000Z" "warn"
       (Some {| category := "privacy"; severity := "warn";
                violation_type := None; clause_reference := None;
                description := None |})] in
  (claimedPasses ∅ {[ "policy_violation" ]} allowed "ex-1" = false
   /\ App.filteredEvents allowed ∅ {[ "policy_violation" ]} = allowed)
  /\ (claimedPasses {[ "Uncategorized" ]} ∅ flagged "ex-2" = true
      /\ App.filteredEvents flagged {[ "Uncategorized" ]} ∅ = []).
Proof. cbv zeta. repeat split; vm_compute; reflexivity. Qed.

(* ===================================================================== *)
(** * Properties of the reveal gate *)
(* ===================================================================== *)

Lemma allowRevealProp_demoRun selectedRunId usingDemoData :
  App.allowRevealProp selectedRunId usingDemoData = negb (demoRun selectedRunId usingDemoData).
Proof.
  unfold App.allowRevealProp, demoRun.
  by destruct usingDemoData, (App.truthy selectedRunId).
Qed.

(** A request that passes the three local checks calls the callback and
    issues exactly the audit calls the callback issues. *)
Lemma handleRevealResponse_invokes props group st callback :
  Timeline.onReveal props = Some callback ->
  Timeline.allowReveal props = true -> hasRawResponse group = true ->
  (Timeline.handleRevealResponse props group st).2
  = (callback {| App.rd_exchangeId := Timeline.exchangeId group;
                 App.rd_field := App.field_llm_response |}).1.
Proof.
  intros Hcb Hallow Hraw. unfold Timeline.handleRevealResponse, hasRawResponse in *.
  rewrite Hcb, Hallow. simpl.
  destruct (Timeline.response group) as [rp|]; [|done].
  rewrite Hraw. simpl. by destruct (callback _) as [calls thrown].
Qed.

(** C8, as the code has it.  A reveal request on a group is rejected
    locally, with no audit call and with the map of disclosed flags left as
    it was (a flag that was false stays false):
      - with the "unavailable" error when no reveal callback, the
        collaborator that records the audit, is configured;
      - with the "disabled" error when there is one and the timeline is in
        demo mode ([allowReveal] is false);
      - with a "not ready" error when neither is the case and the response
        has no raw text to disclose.
    An audit call is issued only when none of the three holds.  The run of
    the group, and so whether it is flagged live, plays no part.  For the
    timeline as [App] renders it, demo mode is: the demo data set is shown,
    or no run is selected.  Then the request is rejected as disabled and
    nothing reaches the backend; on any other run, live or historical, a
    request for a response with a raw text issues one audit call, for that
    run, that exchange and the response field, and the flag is set exactly
    when the backend accepts the call. *)
Theorem reveal_rejected_locally :
  forall (props : Timeline.TimelineProps) (group : Timeline.TurnGroup)
         (st : Timeline.RevealState),
    let id := Timeline.exchangeId group in
    let st' := (Timeline.handleRevealResponse props group st).1 in
    let calls := (Timeline.handleRevealResponse props group st).2 in
    (Timeline.onReveal props = None ->
     calls = [] /\ Timeline.revealedMap st' = Timeline.revealedMap st
     /\ Timeline.isResponseRevealed id st' = Timeline.isResponseRevealed id st
     /\ exists msg, revealError id st' = Some msg /\ isUnavailable msg)
    /\ (is_Some (Timeline.onReveal props) -> Timeline.allowReveal props = false ->
        calls = [] /\ Timeline.revealedMap st' = Timeline.revealedMap st
        /\ Timeline.isResponseRevealed id st' = Timeline.isResponseRevealed id st
        /\ exists msg, revealError id st' = Some msg /\ isDisabled msg)
    /\ (is_Some (Timeline.onReveal props) -> Timeline.allowReveal props = true ->
        hasRawResponse group = false ->
        calls = [] /\ Timeline.revealedMap st' = Timeline.revealedMap st
        /\ Timeline.isResponseRevealed id st' = Timeline.isResponseRevealed id st
        /\ exists msg, revealError id st' = Some msg /\ isNotReady msg)
    /\ (calls <> [] ->
        is_Some (Timeline.onReveal props) /\ Timeline.allowReveal props = true
        /\ hasRawResponse group = true)
    /\ (forall r, Timeline.handleRevealResponse props (withRun r group) st
                  = Timeline.handleRevealResponse props group st)
    /\ (forall selectedRunId usingDemoData backend,
          props = Timeline.appTimelineProps selectedRunId usingDemoData backend ->
          (demoRun selectedRunId usingDemoData = true ->
           calls = [] /\ Timeline.isResponseRevealed id st' = Timeline.isResponseRevealed id st
           /\ exists msg, revealError id st' = Some msg /\ isDisabled msg)
          /\ (demoRun selectedRunId usingDemoData = false ->
              hasRawResponse group = true ->
              exists runId call,
                selectedRunId = Some runId
                /\ call = {| App.ac_runId := runId; App.ac_exchangeId := id;
                             App.ac_field := App.field_llm_response |}
                /\ calls = [call]
                /\ (backend call = None -> Timeline.isResponseRevealed id st' = true)
                /\ (backend call <> None ->
                    Timeline.isResponseRevealed id st'
                    = Timeline.isResponseRevealed id st))).
Proof.
  intros props group st id st' calls.
  assert (Hlocal : forall msg,
    Timeline.revealedMap (Timeline.setError id (Some msg) st) = Timeline.revealedMap st
    /\ Timeline.isResponseRevealed id (Timeline.setError id (Some msg) st)
       = Timeline.isResponseRevealed id st
    /\ revealError id (Timeline.setError id (Some msg) st) = Some msg).
  { intros msg. unfold revealError, Timeline.isResponseRevealed, Timeline.setError.
    simpl. by rewrite lookup_insert_eq. }
  split; [|split; [|split; [|split; [|split]]]].
  - intros Hnone. subst st' calls. unfold Timeline.handleRevealResponse.
    rewrite Hnone. fold id. simpl. destruct (Hlocal "Reveal logging unavailable.") as (?&?&?).
    repeat split; [done..|]. by eexists.
  - intros [cb Hcb] Hallow. subst st' calls. unfold Timeline.handleRevealResponse.
    rewrite Hcb, Hallow. fold id. simpl.
    destruct (Hlocal "Reveals disabled in demo mode.") as (?&?&?).
    repeat split; [done..|]. by eexists.
  - intros [cb Hcb] Hallow Hraw. subst st' calls.
    unfold Timeline.handleRevealResponse, hasRawResponse in *.
    rewrite Hcb, Hallow. fold id. simpl.
    destruct (Timeline.response group) as [rp|].
    + rewrite Hraw. simpl.
      destruct (Hlocal "Full response not available.") as (?&?&?).
      repeat split; [done..|]. eexists. split; [done|]. by right.
    + simpl. destruct (Hlocal "Model response not available yet.") as (?&?&?).
      repeat split; [done..|]. eexists. split; [done|]. by left.
  - intros Hcalls. subst calls.
    unfold Timeline.handleRevealResponse, hasRawResponse in *.
    destruct (Timeline.onReveal props) as [cb|]; [|done].
    destruct (Timeline.allowReveal props); [|done]. simpl in *.
    destruct (Timeline.response group) as [rp|]; [|done].
    destruct (App.truthy (payload_pii_raw_text rp)); [|done]. done.
  - intros r. reflexivity.
  - intros selectedRunId usingDemoData backend ->. split.
    + intros Hdemo. subst st' calls. unfold Timeline.handleRevealResponse.
      cbn [Timeline.appTimelineProps Timeline.onReveal Timeline.allowReveal].
      rewrite allowRevealProp_demoRun, Hdemo. fold id. simpl.
      destruct (Hlocal "Reveals disabled in demo mode.") as (?&?&?).
      repeat split; [done..|]. by eexists.
    + intros Hdemo Hraw. subst st' calls.
      unfold Timeline.handleRevealResponse, hasRawResponse in *.
      cbn [Timeline.appTimelineProps Timeline.onReveal Timeline.allowReveal].
      rewrite allowRevealProp_demoRun, Hdemo. fold id. simpl.
      destruct (Timeline.response group) as [rp|]; [|done].
      rewrite Hraw. simpl.
      unfold demoRun in Hdemo. apply orb_false_iff in Hdemo as [Hd Hrun].
      apply negb_false_iff in Hrun. subst usingDemoData.
      unfold App.handleRevealRequest.
      destruct selectedRunId as [runId|]; [|done]. rewrite Hrun. simpl.
      exists runId. eexists. split; [done|]. split; [done|].
      destruct (backend _) as [err|] eqn:Hb; simpl.
      * split; [done|]. split; [done|]. intros _.
        unfold Timeline.isResponseRevealed. done.
      * split; [done|]. split; [|done]. intros _.
        unfold Timeline.isResponseRevealed. simpl. by rewrite lookup_insert_eq.
Qed.

(** The scenario of the demo run: the demo data set is shown, the
    response has a raw text, and the request is rejected as disabled
    before anything reaches the backend. *)
Example reveal_on_demo_run_is_disabled :
  let group :=
    {| Timeline.exchangeId := "ex-1"; Timeline.turnIndex := 0;
       Timeline.createdAt := "2024-01-01T00:00:00.000Z";
       Timeline.tg_run := Samples.sampleRun; Timeline.userPrompt := None;
       Timeline.response :=
         Some (payload (Samples.responseEvent "ex-1" "2024-01-01T00:00:00.000Z"
                          None (Some "raw text")));
       Timeline.judges := [] |} in
  let st := {| Timeline.revealedMap := ∅; Timeline.revealErrors := ∅;
               Timeline.pendingReveal := ∅ |} in
  let result :=
    Timeline.handleRevealResponse
      (Timeline.appTimelineProps (Some "run-1") true (fun _ => None)) group st in
  result.2 = []
  /\ revealError "ex-1" result.1 = Some "Reveals disabled in demo mode."
  /\ Timeline.isResponseRevealed "ex-1" result.1 = false.
Proof. cbv zeta. repeat split; vm_compute; reflexivity. Qed.

(** C8 fails as stated.  A historical run, not flagged live and not a
    demo run, is selected; the response of the exchange has a raw text.
    The request is not rejected: the audit call goes out, and when the
    backend accepts it the error is cleared and the response is
    disclosed. *)
Lemma reveal_on_historical_run_is_not_rejected :
  let group :=
    {| Timeline.exchangeId := "ex-1"; Timeline.turnIndex := 0;
       Timeline.createdAt := "2024-01-01T00:00:00.000Z";
       Timeline.tg_run := Samples.sampleRun; Timeline.userPrompt := None;
       Timeline.response :=
         Some (payload (Samples.responseEvent "ex-1" "2024-01-01T00:00:00.000Z"
                          None (Some "raw text")));
       Timeline.judges := [] |} in
  let st := {| Timeline.revealedMap := ∅; Timeline.revealErrors := ∅;
               Timeline.pendingReveal := ∅ |} in
  let result :=
    Timeline.handleRevealResponse
      (Timeline.appTimelineProps (Some "run-1") false (fun _ => None)) group st in
  App.isLiveRun (Timeline.tg_run group) = false
  /\ Timeline.liveMode [group] = false
  /\ demoRun (Some "run-1") false = false
  /\ result.2 = [{| App.ac_runId := "run-1"; App.ac_exchangeId := "ex-1";
                    App.ac_field := App.field_llm_response |}]
  /\ revealError "ex-1" result.1 = None
  /\ Timeline.isResponseRevealed "ex-1" result.1 = true.
Proof. cbv zeta. repeat split; vm_compute; reflexivity. Qed.

(* ===================================================================== *)
(** * Further properties of the playback controller *)
(* ===================================================================== *)

Lemma playbackStep_indexInRange st ev :
  indexInRange st.1 st.2 -> indexInRange (playbackStep st ev).1 (playbackStep st ev).2.
Proof.
  destruct st as [len s]. unfold indexInRange. simpl. intros Hr.
  destruct ev; simpl;
    unfold App.handlePlay, App.handlePause, App.handleStepForward,
      App.handleStepBack, App.handleReset, App.handleShowAll, App.handleScrub,
      autoplayStep, App.autoplayEffect, App.autoplayTimer, App.lengthEffect;
    repeat (case_decide || case_match || simplify_eq /= ); simpl in *; try lia.
Qed.

(** X10.  Through any series of clicks on the playback controls (play,
    pause, step forward, step back, reset, show all), moves of the slider,
    steps of the autoplay and changes of the length of the filtered
    sequence, each change followed by the effect keyed on that length, the
    playback index stays between -1 and the last position of the filtered
    sequence the handlers see at that time, provided it started there. *)
Theorem playback_index_in_range_always :
  forall (len : nat) (s : App.Playback) (events : list PlaybackEvent),
    indexInRange len s ->
    let st := foldl playbackStep (len, s) events in
    indexInRange st.1 st.2.
Proof.
  intros len s events Hr. cbv zeta.
  change (indexInRange (len, s).1 (len, s).2) in Hr.
  generalize dependent (len, s). clear len s.
  induction events as [|ev events IH]; intros st Hr; [done|].
  apply (IH (playbackStep st ev)). by apply playbackStep_indexInRange.
Qed.

Lemma playback_index_in_range_always_witness :
  let s := {| App.playbackIndex := 1; App.isPlaying := false;
              App.showAllTurns := false |} in
  let events := [ClickPlay; AutoplayStep; FilteredLengthChanged 1; ClickShowAll;
                 FilteredLengthChanged 0; ClickStepBack] in
  indexInRange 3 s
  /\ indexInRange (foldl playbackStep (3%nat, s) events).1
                  (foldl playbackStep (3%nat, s) events).2.
Proof.
  cbv zeta.
  assert (Hr : indexInRange 3 {| App.playbackIndex := 1; App.isPlaying := false;
                                 App.showAllTurns := false |})
    by (unfold indexInRange; simpl; lia).
  split; [exact Hr|].
  exact (playback_index_in_range_always 3 _
           [ClickPlay; AutoplayStep; FilteredLengthChanged 1; ClickShowAll;
            FilteredLengthChanged 0; ClickStepBack] Hr).
Defined.

Lemma autoplayStep_playing len s :
  len <> 0%nat ->
  App.isPlaying s = true -> App.playbackIndex s < Z.of_nat len - 1 ->
  autoplayStep len s =
  {| App.playbackIndex := App.playbackIndex s + 1; App.isPlaying := true;
     App.showAllTurns := App.showAllTurns s |}.
Proof.
  intros Hlen Hp Hlt. unfold autoplayStep, App.autoplayEffect, App.autoplayTimer.
  rewrite Hp. simpl. rewrite decide_False by done.
  destruct (decide _) as [Hge|Hge]; [lia|]. rewrite Hp. f_equal. lia.
Qed.

Lemma autoplayStep_at_end len s :
  App.isPlaying s = true -> Z.of_nat len - 1 <= App.playbackIndex s ->
  autoplayStep len s =
  {| App.playbackIndex := App.playbackIndex s; App.isPlaying := false;
     App.showAllTurns := App.showAllTurns s |}.
Proof.
  intros Hp Hge. unfold autoplayStep, App.autoplayEffect.
  rewrite Hp. simpl. destruct (decide (len = 0%nat)); [done|].
  destruct (decide _); [done|lia].
Qed.

Lemma autoplayStep_stopped len s :
  App.isPlaying s = false -> autoplayStep len s = s.
Proof. intros Hp. unfold autoplayStep, App.autoplayEffect. by rewrite Hp. Qed.

Lemma autoplay_iter_playing len k s :
  len <> 0%nat ->
  App.isPlaying s = true -> App.playbackIndex s + Z.of_nat k <= Z.of_nat len - 1 ->
  Nat.iter k (autoplayStep len) s =
  {| App.playbackIndex := App.playbackIndex s + Z.of_nat k; App.isPlaying := true;
     App.showAllTurns := App.showAllTurns s |}.
Proof.
  intros Hlen Hp. induction k as [|k IH]; intros Hle.
  - simpl. destruct s; simpl in *. subst. f_equal. lia.
  - rewrite Nat.iter_succ, IH by lia.
    rewrite autoplayStep_playing by (simpl; lia). simpl. f_equal. lia.
Qed.

Lemma autoplay_iter_stopped len k s :
  App.isPlaying s = false -> Nat.iter k (autoplayStep len) s = s.
Proof.
  intros Hp. induction k as [|k IH]; [done|].
  by rewrite Nat.iter_succ, IH, autoplayStep_stopped.
Qed.

Lemma autoplay_iter_finished len n s :
  len <> 0%nat ->
  App.isPlaying s = true -> App.playbackIndex s <= Z.of_nat len - 1 ->
  Z.of_nat len - 1 - App.playbackIndex s < Z.of_nat n ->
  Nat.iter n (autoplayStep len) s =
  {| App.playbackIndex := Z.of_nat len - 1; App.isPlaying := false;
     App.showAllTurns := App.showAllTurns s |}.
Proof.
  intros Hlen Hp Hle Hn.
  set (k := Z.to_nat (Z.of_nat len - 1 - App.playbackIndex s)).
  replace n with ((n - S k) + S k)%nat by lia.
  rewrite Nat.iter_add, Nat.iter_succ, (autoplay_iter_playing len k s) by (done || lia).
  rewrite autoplayStep_at_end by (simpl; lia). simpl.
  rewrite autoplay_iter_stopped by done. f_equal. lia.
Qed.

(** X11.  On a filtered sequence that is not empty, Play starts the
    playback at a position of the sequence: the current one when it is
    before the last, the first one (index 0) otherwise.  From there each step of the
    autoplay shows one more event while the last one is not reached; the
    step after that stops the playback, and further steps change nothing.
    So after as many steps as the sequence has events, the index is on
    the last event and the playback has stopped. *)
Theorem autoplay_runs_to_the_end :
  forall (len : nat) (s : App.Playback),
    len <> 0%nat ->
    let started := App.handlePlay len s in
    let start := App.playbackIndex started in
    (App.isPlaying started = true /\ App.showAllTurns started = false
     /\ 0 <= start <= Z.of_nat len - 1
     /\ (0 <= App.playbackIndex s < Z.of_nat len - 1 -> start = App.playbackIndex s)
     /\ (App.playbackIndex s < 0 \/ Z.of_nat len - 1 <= App.playbackIndex s -> start = 0))
    /\ (forall k : nat,
          start + Z.of_nat k <= Z.of_nat len - 1 ->
          Nat.iter k (autoplayStep len) started =
          {| App.playbackIndex := start + Z.of_nat k; App.isPlaying := true;
             App.showAllTurns := false |})
    /\ (forall n : nat,
          Z.of_nat len - 1 - start < Z.of_nat n ->
          Nat.iter n (autoplayStep len) started =
          {| App.playbackIndex := Z.of_nat len - 1; App.isPlaying := false;
             App.showAllTurns := false |})
    /\ (forall n : nat,
          (len <= n)%nat ->
          App.playbackIndex (Nat.iter n (autoplayStep len) started) = Z.of_nat len - 1
          /\ App.isPlaying (Nat.iter n (autoplayStep len) started) = false).
Proof.
  intros len s Hlen started start.
  assert (Hstarted : App.isPlaying started = true /\ App.showAllTurns started = false
                     /\ 0 <= start <= Z.of_nat len - 1
                     /\ (0 <= App.playbackIndex s < Z.of_nat len - 1 ->
                         start = App.playbackIndex s)
                     /\ (App.playbackIndex s < 0 \/ Z.of_nat len - 1 <= App.playbackIndex s ->
                         start = 0)).
  { subst start started. unfold App.handlePlay.
    rewrite decide_False by done. simpl.
    destruct (decide _); repeat split; lia. }
  destruct Hstarted as (Hp & Hall & Hrange & Hkeep & Hfirst).
  split; [done|]. split.
  { intros k Hk. rewrite (autoplay_iter_playing len k started) by done.
    by rewrite Hall. }
  split.
  { intros n Hn. rewrite (autoplay_iter_finished len n started) by (done || lia).
    by rewrite Hall. }
  intros n Hn.
  rewrite (autoplay_iter_finished len n started) by (done || lia || (subst start; lia)).
  done.
Qed.

Lemma autoplay_runs_to_the_end_witness :
  let s := {| App.playbackIndex := 1; App.isPlaying := false;
              App.showAllTurns := true |} in
  3%nat <> 0%nat
  /\ Nat.iter 1 (autoplayStep 3) (App.handlePlay 3 s)
     = {| App.playbackIndex := 2; App.isPlaying := true; App.showAllTurns := false |}
  /\ Nat.iter 2 (autoplayStep 3) (App.handlePlay 3 s)
     = {| App.playbackIndex := 2; App.isPlaying := false; App.showAllTurns := false |}.
Proof.
  cbv zeta. split; [lia|].
  pose proof (autoplay_runs_to_the_end 3
                {| App.playbackIndex := 1; App.isPlaying := false;
                   App.showAllTurns := true |} ltac:(lia)) as (_ & Hk & Hn & _).
  split.
  - apply (Hk 1%nat). vm_compute. discriminate.
  - apply (Hn 2%nat). vm_compute. reflexivity.
Defined.

(** X9.  A control that is enabled does what its label says.  When
    'Prev' is enabled the step back lowers the index by exactly one, when
    'Next' is enabled the step forward raises it by exactly one; an
    enabled 'Play' starts the playback on a position of the sequence, an
    enabled 'Pause' stops it and leaves the index.  Every position the
    slider can take is the index after the scrub to it; the position the
    slider shows is within its range when the index is not past the end,
    and scrubbing to the position shown leaves an index that is not
    negative where it is.  When the controls are disabled (no event), the
    handlers for play, step and scrub do nothing. *)
Theorem enabled_controls_act :
  forall (totalEvents : nat) (s : App.Playback),
    let index := App.playbackIndex s in
    (PlaybackControls.stepBackDisabled totalEvents index = false ->
     App.playbackIndex (App.handleStepBack totalEvents s) = index - 1)
    /\ (PlaybackControls.stepForwardDisabled totalEvents index = false ->
        App.playbackIndex (App.handleStepForward totalEvents s) = index + 1)
    /\ (PlaybackControls.playDisabled totalEvents (App.isPlaying s) = false ->
        App.isPlaying (App.handlePlay totalEvents s) = true
        /\ 0 <= App.playbackIndex (App.handlePlay totalEvents s) <= Z.of_nat totalEvents - 1)
    /\ (PlaybackControls.pauseDisabled totalEvents (App.isPlaying s) = false ->
        App.isPlaying (App.handlePause s) = false
        /\ App.playbackIndex (App.handlePause s) = index)
    /\ (PlaybackControls.disabled totalEvents = false ->
        forall v, 0 <= v <= PlaybackControls.sliderMax totalEvents ->
                  App.playbackIndex (App.handleScrub totalEvents v s) = v)
    /\ (index <= Z.of_nat totalEvents - 1 ->
        0 <= PlaybackControls.sliderValue totalEvents index
          <= PlaybackControls.sliderMax totalEvents)
    /\ (PlaybackControls.disabled totalEvents = false ->
        0 <= index <= Z.of_nat totalEvents - 1 ->
        PlaybackControls.sliderValue totalEvents index = index
        /\ App.playbackIndex
             (App.handleScrub totalEvents
                (PlaybackControls.sliderValue totalEvents index) s) = index)
    /\ (PlaybackControls.disabled totalEvents = true ->
        App.handlePlay totalEvents s = s
        /\ App.handleStepForward totalEvents s = s
        /\ App.handleStepBack totalEvents s = s
        /\ forall v, App.handleScrub totalEvents v s = s).
Proof.
  intros totalEvents s index. subst index.
  unfold PlaybackControls.stepBackDisabled, PlaybackControls.stepForwardDisabled,
    PlaybackControls.playDisabled, PlaybackControls.pauseDisabled,
    PlaybackControls.disabled, PlaybackControls.sliderValue,
    PlaybackControls.sliderMax,
    App.handleStepBack, App.handleStepForward, App.handlePlay, App.handlePause,
    App.handleScrub.
  destruct (decide (totalEvents = 0%nat)) as [Hz|Hz].
  - rewrite !bool_decide_eq_true_2 by done. simpl.
    repeat split; try done; try lia.
  - rewrite !(bool_decide_eq_false_2 (totalEvents = 0%nat)) by done. simpl.
    repeat split; try done; simpl;
      repeat match goal with
             | H : bool_decide _ = false |- _ => apply bool_decide_eq_false in H
             end;
      repeat case_decide; simpl; try lia.
Qed.

Lemma activeEvents_take filtered index :
  App.activeEvents filtered index
  = take (Z.to_nat (App.clamp index (-1) (Z.of_nat (length filtered) - 1) + 1)) filtered.
Proof.
  unfold App.activeEvents, App.clamp.
  destruct (decide (length filtered = 0%nat)) as [Hz|Hz].
  - apply length_zero_iff_nil in Hz as ->. by rewrite take_nil.
  - destruct (decide _) as [Hneg|Hpos]; [|done].
    replace (Z.to_nat _) with 0%nat by lia. done.
Qed.

Lemma activeEvents_in_range filtered index :
  -1 <= index <= Z.of_nat (length filtered) - 1 ->
  App.activeEvents filtered index = take (Z.to_nat (index + 1)) filtered.
Proof.
  intros Hr. rewrite activeEvents_take. unfold App.clamp. do 2 f_equal. lia.
Qed.

Lemma slice_last_one {A} (l : list A) :
  App.slice_last 1 l = match last l with Some x => [x] | None => [] end.
Proof.
  unfold App.slice_last. destruct l as [|x l _] using rev_ind; [done|].
  rewrite last_snoc, length_app. simpl.
  replace (length l + 1 - 1)%nat with (length l) by lia.
  by rewrite drop_app_length.
Qed.

(** X7.  The events up to the playback index form a prefix of the
    filtered sequence with (index clamped to [-1, length-1]) + 1 events;
    what the timeline is given is a suffix of it, and the counter of the
    controls is the number of events the timeline is given.  With 'show
    all' off the timeline is given exactly the event at the index; with a
    negative index it is given nothing; with an index at or past the end
    the window is the whole filtered sequence. *)
Theorem playback_window_and_counter :
  forall (filtered : list TimelineEvent) (index : Z) (showAllTurns : bool),
    let active := App.activeEvents filtered index in
    let display := App.displayEvents active showAllTurns in
    active `prefix_of` filtered
    /\ display `suffix_of` active
    /\ Z.of_nat (length active)
       = App.clamp index (-1) (Z.of_nat (length filtered) - 1) + 1
    /\ App.displayedCount active showAllTurns = Z.of_nat (length display)
    /\ (showAllTurns = false ->
        forall event, filtered !! Z.to_nat index = Some event -> 0 <= index ->
                      display = [event])
    /\ (index < 0 -> display = [])
    /\ (Z.of_nat (length filtered) - 1 <= index -> active = filtered).
Proof.
  intros filtered index showAllTurns active display.
  assert (Hlen : Z.of_nat (length active)
                 = App.clamp index (-1) (Z.of_nat (length filtered) - 1) + 1).
  { subst active. rewrite activeEvents_take, length_take. unfold App.clamp. lia. }
  split; [subst active; rewrite activeEvents_take; apply prefix_take|].
  split.
  { subst display. unfold App.displayEvents, App.slice_last.
    destruct showAllTurns; [done | apply suffix_drop]. }
  split; [done|]. split.
  { subst display. unfold App.displayedCount, App.displayEvents.
    destruct showAllTurns; [done|]. rewrite slice_last_length. lia. }
  split.
  { intros -> event Hev Hpos. subst display. unfold App.displayEvents.
    rewrite slice_last_one. subst active.
    pose proof (lookup_lt_Some _ _ _ Hev) as Hlt.
    rewrite activeEvents_in_range by lia.
    replace (Z.to_nat (index + 1)) with (S (Z.to_nat index)) by lia.
    erewrite take_S_r by done. by rewrite last_snoc. }
  split.
  { intros Hneg. assert (active = []) as Hnil.
    { apply length_zero_iff_nil. unfold App.clamp in Hlen. lia. }
    subst display. rewrite Hnil. by destruct showAllTurns. }
  intros Hge. subst active. rewrite activeEvents_take. apply take_ge.
  unfold App.clamp. lia.
Qed.

(** X8.  With the index in range, a click on an enabled 'Next'
    adds to the playback window exactly the event after the index, and a
    click on an enabled 'Prev' removes from it exactly the event at the
    index. *)
Theorem step_changes_window_by_one_event :
  forall (filtered : list TimelineEvent) (s : App.Playback),
    let len := length filtered in
    let index := App.playbackIndex s in
    -1 <= index <= Z.of_nat len - 1 ->
    (PlaybackControls.stepForwardDisabled len index = false ->
     exists event,
       filtered !! Z.to_nat (index + 1) = Some event
       /\ App.activeEvents filtered (App.playbackIndex (App.handleStepForward len s))
          = App.activeEvents filtered index ++ [event])
    /\ (PlaybackControls.stepBackDisabled len index = false ->
        exists event,
          filtered !! Z.to_nat index = Some event
          /\ App.activeEvents filtered index
             = App.activeEvents filtered (App.playbackIndex (App.handleStepBack len s))
               ++ [event]).
Proof.
  intros filtered s len index Hr.
  unfold PlaybackControls.stepForwardDisabled, PlaybackControls.stepBackDisabled,
    PlaybackControls.disabled.
  split; intros Hen; apply orb_false_iff in Hen as [Hz Hidx];
    apply bool_decide_eq_false in Hz, Hidx.
  - destruct (lookup_lt_is_Some_2 filtered (Z.to_nat (index + 1))) as [event Hev];
      [subst len; lia|].
    exists event. split; [done|].
    unfold App.handleStepForward. rewrite decide_False by done. simpl.
    fold index. rewrite !activeEvents_in_range by (subst len; lia).
    replace (Z.to_nat (Z.min (index + 1) (Z.of_nat len - 1) + 1))
      with (S (Z.to_nat (index + 1))) by lia.
    by erewrite take_S_r by done.
  - destruct (lookup_lt_is_Some_2 filtered (Z.to_nat index)) as [event Hev];
      [subst len; lia|].
    exists event. split; [done|].
    unfold App.handleStepBack. rewrite decide_False by done. simpl.
    fold index. rewrite !activeEvents_in_range by (subst len; lia).
    replace (Z.to_nat (index + 1)) with (S (Z.to_nat index)) by lia.
    replace (Z.to_nat (Z.max (index - 1) (-1) + 1)) with (Z.to_nat index) by lia.
    by erewrite take_S_r by done.
Qed.

Lemma step_changes_window_by_one_event_witness :
  let filtered :=
    [Samples.responseEvent "ex-1" "2024-01-01T00:00:00.000Z" None None;
     Samples.verdictEvent "ex-1" "2024-01-01T00:00:01.000Z" "allow" None;
     Samples.responseEvent "ex-2" "2024-01-01T00:00:02.000Z" None None] in
  let s := {| App.playbackIndex := 0; App.isPlaying := false;
              App.showAllTurns := false |} in
  -1 <= App.playbackIndex s <= Z.of_nat (length filtered) - 1
  /\ (exists event,
        filtered !! Z.to_nat (App.playbackIndex s + 1) = Some event
        /\ App.activeEvents filtered
             (App.playbackIndex (App.handleStepForward (length filtered) s))
           = App.activeEvents filtered (App.playbackIndex s) ++ [event])
  /\ (exists event,
        filtered !! Z.to_nat (App.playbackIndex s) = Some event
        /\ App.activeEvents filtered (App.playbackIndex s)
           = App.activeEvents filtered
               (App.playbackIndex (App.handleStepBack (length filtered) s))
             ++ [event]).
Proof.
  cbv zeta.
  assert (Hr : -1 <= 0 <= Z.of_nat 3 - 1) by lia.
  split; [exact Hr|].
  destruct (step_changes_window_by_one_event
              [Samples.responseEvent "ex-1" "2024-01-01T00:00:00.000Z" None None;
               Samples.verdictEvent "ex-1" "2024-01-01T00:00:01.000Z" "allow" None;
               Samples.responseEvent "ex-2" "2024-01-01T00:00:02.000Z" None None]
              {| App.playbackIndex := 0; App.isPlaying := false;
                 App.showAllTurns := false |} Hr) as [Hforward Hback].
  split; [apply Hforward | apply Hback]; reflexivity.
Defined.

(** X13.  'Show All', from the collapsed view, stops the playback
    and gives the timeline the whole filtered sequence; the click after
    it ('Collapse') keeps the index on the last event and gives the
    timeline that event alone.  A click while 'show all' is on only turns
    it off and stops the playback: the index is not moved. *)
Theorem show_all_then_collapse :
  forall (filtered : list TimelineEvent) (s : App.Playback),
    let len := length filtered in
    let view s := App.displayEvents (App.activeEvents filtered (App.playbackIndex s))
                                    (App.showAllTurns s) in
    (App.showAllTurns s = false ->
     let shown := App.handleShowAll len s in
     let collapsed := App.handleShowAll len shown in
     view shown = filtered
     /\ App.isPlaying shown = false
     /\ App.playbackIndex collapsed = Z.of_nat len - 1
     /\ App.showAllTurns collapsed = false
     /\ view collapsed = match last filtered with Some event => [event] | None => [] end)
    /\ (App.showAllTurns s = true ->
        App.handleShowAll len s
        = {| App.playbackIndex := App.playbackIndex s; App.isPlaying := false;
             App.showAllTurns := false |}).
Proof.
  intros filtered s len view. split.
  - intros Hs. cbv zeta. subst view. unfold App.handleShowAll. rewrite Hs. simpl.
    rewrite (activeEvents_take filtered (Z.of_nat len - 1)).
    unfold App.clamp, App.displayEvents.
    rewrite take_ge by (subst len; lia).
    repeat split. apply slice_last_one.
  - intros Hs. unfold App.handleShowAll. by rewrite Hs.
Qed.

Lemma filteredEvents_length ordered selQ selV :
  (length (App.filteredEvents ordered selQ selV) <= length ordered)%nat.
Proof.
  unfold App.filteredEvents. destruct (_ && _); [done|]. apply List.filter_length_le.
Qed.

(** X12.  The effect keyed on the number of combined events puts
    the playback index on the last combined event.  The filtered sequence
    is never longer than the combined one, and that index is within the
    range of the filtered sequence exactly when no event is filtered out.
    The playback window clamps the index, so all filtered events are
    shown, and the effect keyed on the filtered length, when it runs,
    brings the index back into range.  Until then, with some but not all
    events filtered out, 'Prev' is enabled but a click on it does not
    change what is shown, and the slider shows a value above its
    maximum. *)
Theorem combined_length_effect_index :
  forall (Date_getTime : string -> option Z) (H L : list TimelineEvent)
         (selQ selV : gset string) (s : App.Playback),
    let combined := App.combinedEvents H L in
    let filtered :=
      App.filteredEvents (App.orderedEvents Date_getTime combined) selQ selV in
    let s' := App.combinedLengthEffect (length combined) s in
    let len := length filtered in
    App.playbackIndex s' = Z.of_nat (length combined) - 1
    /\ (len <= length combined)%nat
    /\ (indexInRange len s' <-> len = length combined)
    /\ App.activeEvents filtered (App.playbackIndex s') = filtered
    /\ indexInRange len (App.lengthEffect len s')
    /\ ((0 < len < length combined)%nat ->
        PlaybackControls.stepBackDisabled len (App.playbackIndex s') = false
        /\ App.activeEvents filtered
             (App.playbackIndex (App.handleStepBack len s')) = filtered
        /\ PlaybackControls.sliderMax len
           < PlaybackControls.sliderValue len (App.playbackIndex s')).
Proof.
  intros getTime H L selQ selV s combined filtered s' len.
  assert (Hle : (len <= length combined)%nat).
  { subst len filtered. etrans; [apply filteredEvents_length|].
    unfold App.orderedEvents. by rewrite (array_sort_Permutation getTime combined). }
  assert (Hidx : App.playbackIndex s' = Z.of_nat (length combined) - 1).
  { subst s'. unfold App.combinedLengthEffect. simpl. case_decide; lia. }
  split; [done|]. split; [done|]. split.
  { unfold indexInRange. rewrite Hidx. lia. }
  split.
  { rewrite activeEvents_take. apply take_ge. unfold App.clamp. fold len. lia. }
  split.
  { unfold indexInRange, App.lengthEffect. rewrite Hidx.
    repeat case_decide; simpl; lia. }
  intros Hlt. clearbody s'.
  unfold PlaybackControls.stepBackDisabled, PlaybackControls.disabled,
    PlaybackControls.sliderMax, PlaybackControls.sliderValue, App.handleStepBack.
  rewrite !decide_False by lia. rewrite Hidx.
  rewrite !bool_decide_eq_false_2 by lia.
  split; [done|]. split; [|lia].
  rewrite activeEvents_take. apply take_ge. unfold App.clamp.
  cbn [App.playbackIndex]. fold len. lia.
Qed.

Example combined_length_effect_past_the_filter :
  let H := [Samples.responseEvent "ex-1" "2024-01-01T00:00:00.000Z" (Some "billing") None;
            Samples.responseEvent "ex-2" "2024-01-01T00:00:01.000Z" (Some "privacy") None] in
  let filtered :=
    App.filteredEvents (App.orderedEvents IsoDate.getTime (App.combinedEvents H []))
                       {[ "billing" ]} ∅ in
  let s' := App.combinedLengthEffect (length (App.combinedEvents H []))
              {| App.playbackIndex := 0; App.isPlaying := false;
                 App.showAllTurns := false |} in
  length filtered = 1%nat
  /\ App.playbackIndex s' = 1
  /\ App.playbackIndex (App.handleStepBack (length filtered) s') = 0
  /\ App.activeEvents filtered 1 = App.activeEvents filtered 0.
Proof. cbv zeta. repeat split; vm_compute; reflexivity. Qed.

(* ===================================================================== *)
(** * Properties of the filter panel *)
(* ===================================================================== *)

(** X6.  A click on a pill of the filter panel toggles its category:
    the click after it restores the selection, the category is selected
    after the click exactly when it was not before, no other category
    changes, the number of selected categories moves by one, and among
    the pills rendered from any list of categories exactly those labelled
    with the category change their look.  The question pills and the
    violation pills are toggled alike. *)
Theorem toggle_flips_one_pill :
  forall (category : string) (selected : gset string) (categories : list string),
    let toggled := App.onToggleQuestion category selected in
    App.onToggleQuestion category toggled = selected
    /\ (category ∈ toggled <-> category ∉ selected)
    /\ (forall other, other <> category -> (other ∈ toggled <-> other ∈ selected))
    /\ size toggled
       = (if decide (category ∈ selected) then size selected - 1 else size selected + 1)%nat
    /\ FilterPanel.pills categories toggled
       = (fun pill : string * bool =>
            (pill.1, if decide (pill.1 = category) then negb pill.2 else pill.2))
         <$> FilterPanel.pills categories selected
    /\ App.onToggleViolation category selected = toggled.
Proof.
  intros category selected categories toggled. subst toggled.
  unfold App.onToggleQuestion, App.onToggleViolation.
  destruct (decide (category ∈ selected)) as [Hin|Hin].
  - rewrite decide_False by set_solver.
    split; [apply set_eq; intros x; destruct (decide (x = category)); set_solver|].
    split; [set_solver|]. split; [set_solver|]. split.
    { rewrite size_difference by set_solver. by rewrite size_singleton. }
    split; [|done].
    unfold FilterPanel.pills. rewrite <- list_fmap_compose.
    apply list_fmap_ext. intros _ c _. simpl. f_equal.
    destruct (decide (c = category)) as [->|Hne].
    + rewrite bool_decide_eq_false_2 by set_solver.
      by rewrite bool_decide_eq_true_2.
    + apply bool_decide_ext. set_solver.
  - rewrite decide_True by set_solver.
    split; [apply set_eq; intros x; destruct (decide (x = category)); set_solver|].
    split; [set_solver|]. split; [set_solver|]. split.
    { rewrite size_union by set_solver. rewrite size_singleton. lia. }
    split; [|done].
    unfold FilterPanel.pills. rewrite <- list_fmap_compose.
    apply list_fmap_ext. intros _ c _. simpl. f_equal.
    destruct (decide (c = category)) as [->|Hne].
    + rewrite bool_decide_eq_true_2 by set_solver.
      by rewrite bool_decide_eq_false_2.
    + apply bool_decide_ext. set_solver.
Qed.

Lemma filteredEvents_filter ordered selQ selV :
  App.filteredEvents ordered selQ selV
  = List.filter (fun e => exchangePasses selQ selV ordered (exchange_id e)) ordered.
Proof.
  unfold App.filteredEvents.
  fold (filterActive selQ). fold (filterActive selV).
  destruct (negb (filterActive selQ) && negb (filterActive selV)) eqn:Hact.
  - apply andb_true_iff in Hact as [HQ HV].
    apply negb_true_iff in HQ, HV.
    symmetry. apply forallb_filter_id. apply forallb_forall. intros e _.
    by apply exchangePasses_inactive.
  - apply filter_ext_in. intros e _. apply eventPasses_exchangePasses.
Qed.

Lemma filteredEvents_nonempty ordered selQ selV :
  App.filteredEvents ordered selQ selV <> []
  <-> exists e, e ∈ ordered /\ exchangePasses selQ selV ordered (exchange_id e) = true.
Proof.
  rewrite filteredEvents_filter. split.
  - intros Hne. destruct (List.filter _ ordered) as [|e l] eqn:E; [done|].
    assert (Hin : In e (List.filter
              (fun e => exchangePasses selQ selV ordered (exchange_id e)) ordered))
      by (rewrite E; by left).
    apply filter_In in Hin as [Hin Hp]. exists e. by rewrite list_elem_of_In.
  - intros (e & Hin & Hp) Hnil.
    assert (Hin' : In e (List.filter
              (fun e => exchangePasses selQ selV ordered (exchange_id e)) ordered))
      by (apply filter_In; by rewrite <- list_elem_of_In).
    by rewrite Hnil in Hin'.
Qed.

Lemma last_elem_of {A} (l : list A) x : last l = Some x -> x ∈ l.
Proof.
  destruct l as [|y l _] using rev_ind; [done|].
  rewrite last_snoc. intros [= ->]. set_solver.
Qed.

Lemma lastResponse_elem_of ordered id r :
  lastResponse ordered id = Some r -> r ∈ ordered /\ exchange_id r = id.
Proof.
  unfold lastResponse, ofType, eventsOf. intros Hl.
  apply last_elem_of in Hl.
  apply list_elem_of_filter in Hl as [_ Hl].
  by apply list_elem_of_filter in Hl as [? ?].
Qed.

Lemma verdictsOf_elem_of ordered id v :
  v ∈ verdictsOf ordered id -> v ∈ ordered /\ exchange_id v = id.
Proof.
  unfold verdictsOf, ofType, eventsOf. intros Hl.
  apply list_elem_of_filter in Hl as [_ Hl].
  by apply list_elem_of_filter in Hl as [? ?].
Qed.

Lemma unitsLe_total (a b : list N) : App.unitsLe a b = true \/ App.unitsLe b a = true.
Proof.
  revert b. induction a as [|x a IH]; intros [|y b]; simpl; auto.
  destruct (IH b) as [H|H]; rewrite H, ?andb_true_r;
    destruct (N.ltb_spec x y), (N.ltb_spec y x), (N.eqb_spec x y), (N.eqb_spec y x);
    simpl; auto; lia.
Qed.

Lemma codeUnitLe_total : Total App.codeUnitLe.
Proof. intros a b. apply unitsLe_total. Qed.

(** The order is that of the code units, not of the code points or of the
    bytes: U+1F600, a pair of surrogates from U+D83D on, comes before
    U+FF21, although its code point and its bytes are the greater ones. *)
Example sortStrings_code_units :
  let fullwidthA := App.utf8 [239%N; 188%N; 161%N] in
  let grinningFace := App.utf8 [240%N; 159%N; 152%N; 128%N] in
  App.codeUnits fullwidthA = [65313%N]
  /\ App.codeUnits grinningFace = [55357%N; 56832%N]
  /\ App.sortStrings [fullwidthA; "b"; grinningFace; "B"; "ab"]
     = ["B"; "ab"; "b"; grinningFace; fullwidthA].
Proof. cbv zeta. repeat split; vm_compute; reflexivity. Qed.

Lemma sortStrings_elem_of l c : c ∈ App.sortStrings l <-> c ∈ l.
Proof. unfold App.sortStrings. by rewrite merge_sort_Permutation. Qed.

Lemma categoryFacet_nonempty ordered id c :
  categoryFacet ordered id = Some c -> c <> "".
Proof.
  unfold categoryFacet. destruct (lastResponse ordered id) as [r|]; [|done].
  intros [= <-]. apply questionCategoryOf_nonempty.
Qed.

Lemma availableQuestionCategories_elem_of ordered c :
  c ∈ App.availableQuestionCategories (App.exchangeQuestionCategory ordered)
  <-> exists id, categoryFacet ordered id = Some c.
Proof.
  unfold App.availableQuestionCategories.
  rewrite sortStrings_elem_of, elem_of_elements, elem_of_list_to_set.
  rewrite list_elem_of_In, filter_In, <- list_elem_of_In.
  rewrite list_elem_of_fmap. split.
  - intros [([id c'] & -> & Hin) _]. exists id.
    apply elem_of_map_to_list in Hin. by rewrite <- exchangeQuestionCategory_lookup.
  - intros (id & Hf). split.
    + exists (id, c). split; [done|]. apply elem_of_map_to_list.
      by rewrite exchangeQuestionCategory_lookup.
    + apply negb_true_iff, bool_decide_eq_false.
      by eapply categoryFacet_nonempty.
Qed.

Lemma availableViolationCategories_elem_of ordered c :
  c ∈ App.availableViolationCategories (App.exchangeViolationCategories ordered)
  <-> exists id, c ∈ violationFacet ordered id.
Proof.
  unfold App.availableViolationCategories.
  rewrite sortStrings_elem_of, elem_of_elements, elem_of_union_list.
  split.
  - intros (s & Hs & Hc). apply list_elem_of_fmap in Hs as ([id s'] & -> & Hin).
    apply elem_of_map_to_list in Hin.
    rewrite exchangeViolationCategories_lookup in Hin. exists id.
    destruct (violationFacet ordered id) as [|c0 cs]; [done|].
    injection Hin as <-. cbn [snd] in Hc.
    change ({[c0]} ∪ list_to_set cs : gset string)
      with (list_to_set (c0 :: cs) : gset string) in Hc.
    by apply elem_of_list_to_set in Hc.
  - intros (id & Hc).
    exists (list_to_set (violationFacet ordered id)). split.
    + apply list_elem_of_fmap. exists (id, list_to_set (violationFacet ordered id)).
      split; [done|]. apply elem_of_map_to_list.
      rewrite exchangeViolationCategories_lookup.
      destruct (violationFacet ordered id); [by apply elem_of_nil in Hc | done].
    + by apply elem_of_list_to_set.
Qed.

Lemma sortStrings_NoDup (s : gset string) : NoDup (App.sortStrings (elements s)).
Proof.
  unfold App.sortStrings. rewrite merge_sort_Permutation. apply NoDup_elements.
Qed.

(** X5.  The pills of the filter panel are the categories
    that occur: a question category is offered exactly when it is the
    category facet of some exchange, a violation category exactly when
    some verdict of some exchange carries it.  Each list is sorted, in
    the order of [sort()] on strings (by UTF-16 code units), and without
    repeats.  Selecting one category alone leaves a filtered
    sequence that is not empty exactly when that category is offered. *)
Theorem offered_categories_select_something :
  forall ordered : list TimelineEvent,
    let offeredQ := App.availableQuestionCategories (App.exchangeQuestionCategory ordered) in
    let offeredV :=
      App.availableViolationCategories (App.exchangeViolationCategories ordered) in
    (forall c, c ∈ offeredQ <-> exists id, categoryFacet ordered id = Some c)
    /\ (forall c, c ∈ offeredV <-> exists id, c ∈ violationFacet ordered id)
    /\ NoDup offeredQ /\ NoDup offeredV
    /\ Sorted App.codeUnitLe offeredQ /\ Sorted App.codeUnitLe offeredV
    /\ (forall c, c ∈ offeredQ <-> App.filteredEvents ordered {[ c ]} ∅ <> [])
    /\ (forall c, c ∈ offeredV <-> App.filteredEvents ordered ∅ {[ c ]} <> []).
Proof.
  intros ordered offeredQ offeredV.
  split; [apply availableQuestionCategories_elem_of|].
  split; [apply availableViolationCategories_elem_of|].
  split; [apply sortStrings_NoDup|]. split; [apply sortStrings_NoDup|].
  split; [apply Sorted_merge_sort, codeUnitLe_total|].
  split; [apply Sorted_merge_sort, codeUnitLe_total|].
  assert (HpassQ : forall c id, exchangePasses {[ c ]} ∅ ordered id = true
                               <-> categoryFacet ordered id = Some c).
  { intros c id. unfold exchangePasses, filterActive.
    rewrite size_singleton, size_empty. simpl. rewrite andb_true_r.
    destruct (categoryFacet ordered id) as [c'|]; [|done].
    rewrite bool_decide_eq_true, elem_of_singleton. split; congruence. }
  assert (HpassV : forall c id, exchangePasses ∅ {[ c ]} ordered id = true
                               <-> c ∈ violationFacet ordered id).
  { intros c id. unfold exchangePasses, filterActive.
    rewrite size_singleton, size_empty. simpl. rewrite existsb_exists. split.
    - intros (c' & Hin & Hc). apply bool_decide_eq_true, elem_of_singleton in Hc.
      subst c'. by apply list_elem_of_In.
    - intros Hin. exists c. split; [by apply list_elem_of_In|].
      apply bool_decide_eq_true. by apply elem_of_singleton. }
  split.
  - intros c. subst offeredQ.
    rewrite availableQuestionCategories_elem_of, filteredEvents_nonempty. split.
    + intros (id & Hf). pose proof Hf as Hf'. unfold categoryFacet in Hf'.
      destruct (lastResponse ordered id) as [r|] eqn:Hr; [|done].
      apply lastResponse_elem_of in Hr as [Hin Hid].
      exists r. split; [done|]. apply HpassQ. by rewrite Hid.
    + intros (e & _ & Hp). exists (exchange_id e). by apply HpassQ.
  - intros c. subst offeredV.
    rewrite availableViolationCategories_elem_of, filteredEvents_nonempty. split.
    + intros (id & Hc). pose proof Hc as Hc'. unfold violationFacet in Hc'.
      apply list_elem_of_fmap in Hc' as (v & _ & Hv).
      apply verdictsOf_elem_of in Hv as [Hin Hid].
      exists v. split; [done|]. apply HpassV. by rewrite Hid.
    + intros (e & _ & Hp). exists (exchange_id e). by apply HpassV.
Qed.

(* ===================================================================== *)
(** * Properties of the safety findings *)
(* ===================================================================== *)

Lemma summaries_get_None key m :
  App.summaries_get key m = None <-> key ∉ m.*1.
Proof.
  unfold App.summaries_get. induction m as [|[k v] m IH]; simpl.
  - split; [intros _; apply not_elem_of_nil | done].
  - rewrite not_elem_of_cons. case_bool_decide as Hk; simpl.
    + split; [done | intros [Hne _]; congruence].
    + rewrite IH. split; [intros ?; split; [congruence | done] | by intros [_ ?]].
Qed.

Lemma summaries_get_set_eq key v m :
  App.summaries_get key (App.summaries_set key v m) = Some v.
Proof.
  unfold App.summaries_get. induction m as [|[k w] m IH]; simpl.
  - by rewrite bool_decide_eq_true_2.
  - destruct (decide (k = key)) as [->|Hne]; simpl.
    + by rewrite bool_decide_eq_true_2.
    + by rewrite bool_decide_eq_false_2.
Qed.

Lemma summaries_get_set_ne key key' v m :
  key' <> key ->
  App.summaries_get key' (App.summaries_set key v m) = App.summaries_get key' m.
Proof.
  intros Hne. unfold App.summaries_get. induction m as [|[k w] m IH]; simpl.
  - by rewrite bool_decide_eq_false_2.
  - destruct (decide (k = key)) as [->|Hk]; simpl.
    + by rewrite !bool_decide_eq_false_2.
    + case_bool_decide; [done|]. apply IH.
Qed.

Lemma summaries_set_keys key v m :
  (App.summaries_set key v m).*1
  = if decide (key ∈ m.*1) then m.*1 else m.*1 ++ [key].
Proof.
  induction m as [|[k w] m IH].
  - cbn [App.summaries_set fmap list_fmap fst app].
    case_decide as Hin; [by apply elem_of_nil in Hin | done].
  - cbn [App.summaries_set fst]. destruct (decide (k = key)) as [->|Hk].
    + clear IH. rewrite !fmap_cons. cbn [fst].
      case_decide as Hin; [done|]. exfalso. apply Hin. by left.
    + rewrite !fmap_cons, IH. clear IH. cbn [fst].
      destruct (decide (key ∈ m.*1)) as [Hin|Hin].
      * case_decide as Hin'; [done|]. exfalso. apply Hin'. by right.
      * case_decide as Hin'; [|done].
        apply elem_of_cons in Hin' as [->|Hin']; done.
Qed.

Lemma totalCount_set key v m :
  totalCount (App.summaries_set key v m).*2
  = totalCount m.*2 + App.count v
    - default 0 (App.count <$> App.summaries_get key m).
Proof.
  unfold App.summaries_get. induction m as [|[k w] m IH].
  - unfold totalCount. simpl. lia.
  - cbn [App.summaries_set fst find]. destruct (decide (k = key)) as [->|Hk].
    + rewrite bool_decide_eq_true_2 by done. unfold totalCount. simpl. lia.
    + rewrite bool_decide_eq_false_2 by done.
      rewrite !fmap_cons. unfold totalCount in *. cbn [foldr snd].
      rewrite IH. lia.
Qed.

Lemma violationsOf_snoc relevant event :
  violationsOf (relevant ++ [event])
  = violationsOf relevant
    ++ match payload_violation (payload event) with Some v => [v] | None => [] end.
Proof.
  unfold violationsOf. rewrite omap_app. simpl.
  by destruct (payload_violation (payload event)).
Qed.

Lemma summaryOf_snoc key violations v :
  summaryOf key (violations ++ [v])
  = if decide (App.violationKey v = key) then
      Some match summaryOf key violations with
           | Some existing =>
               {| App.summary_violation := App.summary_violation existing;
                  App.count := App.count existing + 1 |}
           | None => {| App.summary_violation := v; App.count := 1 |}
           end
    else summaryOf key violations.
Proof.
  unfold summaryOf. rewrite filter_app, filter_cons, filter_nil.
  destruct (decide (App.violationKey v = key)) as [Hk|Hk].
  - destruct (filter _ violations) as [|first rest]; simpl; [done|].
    do 2 f_equal. rewrite length_app. simpl. lia.
  - by rewrite app_nil_r.
Qed.

Lemma summaryOf_None key violations :
  summaryOf key violations = None <-> key ∉ App.violationKey <$> violations.
Proof.
  unfold summaryOf. rewrite list_elem_of_fmap. split.
  - intros Hs (v & -> & Hin).
    assert (Hv : v ∈ filter (fun v0 => App.violationKey v0 = App.violationKey v) violations)
      by (by apply list_elem_of_filter).
    destruct (filter _ violations); [by apply elem_of_nil in Hv | done].
  - intros Hnot. destruct (filter _ violations) as [|first rest] eqn:E; [done|].
    exfalso. apply Hnot. exists first.
    assert (Hv : first ∈ filter (fun v0 => App.violationKey v0 = key) violations)
      by (rewrite E; by left).
    apply list_elem_of_filter in Hv as [? ?]. done.
Qed.

(** What the loop has built after the relevant events [relevant]. *)
Lemma foldl_summarize relevant :
  let summaries := foldl App.summarize [] relevant in
  summaries.*1 = firstSeen (App.violationKey <$> violationsOf relevant)
  /\ (forall key, App.summaries_get key summaries = summaryOf key (violationsOf relevant))
  /\ totalCount summaries.*2 = Z.of_nat (length (violationsOf relevant)).
Proof.
  cbv zeta. induction relevant as [|event relevant IH] using rev_ind.
  - repeat split.
  - destruct IH as (Hkeys & Hget & Htotal).
    rewrite foldl_app, violationsOf_snoc. cbn [foldl].
    set (summaries := foldl App.summarize [] relevant) in *.
    unfold App.summarize.
    destruct (payload_violation (payload event)) as [v|]; [|by rewrite app_nil_r].
    set (key := App.violationKey v).
    assert (Hnew : App.summaries_set key
                     match App.summaries_get key summaries with
                     | Some existing =>
                         {| App.summary_violation := App.summary_violation existing;
                            App.count := App.count existing + 1 |}
                     | None => {| App.summary_violation := v; App.count := 1 |}
                     end summaries
                   = match App.summaries_get key summaries with
                     | Some existing =>
                         App.summaries_set key
                           {| App.summary_violation := App.summary_violation existing;
                              App.count := App.count existing + 1 |} summaries
                     | None =>
                         App.summaries_set key
                           {| App.summary_violation := v; App.count := 1 |} summaries
                     end) by (by destruct (App.summaries_get key summaries)).
    rewrite <- Hnew. clear Hnew. split; [|split].
    + rewrite summaries_set_keys, fmap_snoc, firstSeen_snoc, Hkeys.
      fold key. destruct (decide (key ∈ firstSeen _)) as [Hin|Hin].
      * rewrite decide_True; [done | by apply firstSeen_elem_of].
      * rewrite decide_False; [done | by rewrite <- firstSeen_elem_of].
    + intros key'. rewrite summaryOf_snoc. fold key.
      destruct (decide (key = key')) as [<-|Hne].
      * by rewrite summaries_get_set_eq, Hget.
      * by rewrite summaries_get_set_ne.
    + rewrite totalCount_set, Htotal, length_app. simpl.
      destruct (App.summaries_get key summaries); simpl; lia.
Qed.

Lemma summaries_get_elem_of key summary m :
  NoDup m.*1 -> (key, summary) ∈ m -> App.summaries_get key m = Some summary.
Proof.
  unfold App.summaries_get. induction m as [|[k w] m IH]; simpl.
  - intros _ Hin. by apply elem_of_nil in Hin.
  - rewrite NoDup_cons. intros [Hk Hnd] Hin.
    apply elem_of_cons in Hin as [[= <- <-]|Hin].
    + by rewrite bool_decide_eq_true_2.
    + case_bool_decide as Hkk; [|by apply IH]. simpl in Hkk. subst k.
      exfalso. apply Hk. apply list_elem_of_fmap. by exists (key, summary).
Qed.

(** X15.  The safety findings summarise the verdicts the
    timeline is given: the relevant events are the verdict events among
    the displayed ones, whether 'show all' is on or off.  The map built
    from them has one entry per key of a finding, in the order in which
    the keys first occur; the entry of a key carries the members of the
    first finding with that key and counts all findings with it, so every
    counter is at least 1 and the counters add up to the number of
    verdicts with a finding.  With 'show all' off there is at most one
    entry. *)
Theorem safety_summaries_count_findings :
  forall (showAllTurns : bool) (active : list TimelineEvent),
    let display := App.displayEvents active showAllTurns in
    let relevant := App.relevantEvents showAllTurns active display in
    let violations := violationsOf relevant in
    let summaries := foldl App.summarize [] relevant in
    relevant = ofType judge_verdict display
    /\ App.summarizedViolations showAllTurns active display = summaries.*2
    /\ summaries.*1 = firstSeen (App.violationKey <$> violations)
    /\ NoDup summaries.*1
    /\ (forall key, App.summaries_get key summaries = summaryOf key violations)
    /\ (forall key summary,
          (key, summary) ∈ summaries ->
          exists first rest,
            filter (fun v => App.violationKey v = key) violations = first :: rest
            /\ App.summary_violation summary = first
            /\ App.count summary = Z.of_nat (length (first :: rest))
            /\ 1 <= App.count summary)
    /\ totalCount summaries.*2 = Z.of_nat (length violations)
    /\ (showAllTurns = false -> (length summaries <= 1)%nat).
Proof.
  intros showAllTurns active display relevant violations summaries.
  destruct (foldl_summarize relevant) as (Hkeys & Hget & Htotal).
  fold summaries violations in Hkeys, Hget, Htotal.
  assert (Hnd : NoDup summaries.*1) by (rewrite Hkeys; apply firstSeen_NoDup).
  split.
  { subst relevant display. unfold App.relevantEvents, App.displayEvents, ofType.
    rewrite List_filter_bool_decide. by destruct showAllTurns. }
  split; [done|]. split; [done|]. split; [done|]. split; [done|]. split.
  { intros key summary Hin.
    pose proof (summaries_get_elem_of _ _ _ Hnd Hin) as Hs.
    rewrite Hget in Hs. unfold summaryOf in Hs.
    destruct (filter _ violations) as [|first rest]; [done|].
    injection Hs as <-. exists first, rest. simpl. repeat split; lia. }
  split; [done|].
  intros ->.
  assert (Hlen : (length violations <= 1)%nat).
  { subst violations relevant display.
    unfold violationsOf, App.relevantEvents, App.displayEvents.
    rewrite slice_last_one. destruct (last active) as [event|]; simpl; [|lia].
    destruct (bool_decide _); simpl; [|lia].
    destruct (payload_violation _); simpl; lia. }
  rewrite <- (length_fmap fst), Hkeys.
  destruct violations as [|v [|v' vs]]; simpl in *; [lia | lia | lia].
Qed.

Lemma bar_separated_inj a a' r r' :
  hasBar a = false -> hasBar a' = false ->
  a +:+ "|" +:+ r = a' +:+ "|" +:+ r' -> a = a' /\ r = r'.
Proof.
  revert a'. induction a as [|c a IH]; intros [|c' a'];
    repeat (rewrite string_app_nil_l || rewrite string_app_cons); simpl.
  - intros _ _ Heq. by injection Heq as ->.
  - intros _ Hbar Heq. injection Heq as <- _. done.
  - intros Hbar _ Heq. injection Heq as -> _. done.
  - intros Hbar Hbar' Heq. injection Heq as -> Heq.
    apply orb_false_iff in Hbar as [_ Hbar]. apply orb_false_iff in Hbar' as [_ Hbar'].
    destruct (IH a' Hbar Hbar' Heq) as [-> ->]. done.
Qed.

(** X16.  The key of a finding joins its five members with a bar.
    When the first four members of two findings hold no bar, the keys are
    equal exactly when the findings have the same members (a missing
    member counting as an empty one).  A bar in a member breaks this: the
    findings (category 'privacy|consent', severity 'warn') and (category
    'privacy', severity 'consent|warn') have one key, and two verdicts
    carrying them are summarised as one finding counted twice, under the
    category of the first. *)
Theorem violation_key_collisions :
  (forall v v' : ViolationDetail,
     barFree v -> barFree v' ->
     (App.violationKey v = App.violationKey v' <-> sameFinding v v'))
  /\ (let v := {| category := "privacy|consent"; severity := "warn";
                  violation_type := None; clause_reference := None;
                  description := None |} in
      let v' := {| category := "privacy"; severity := "consent|warn";
                   violation_type := None; clause_reference := None;
                   description := None |} in
      let active := [Samples.verdictEvent "ex-1" "2024-01-01T00:00:00.000Z" "warn" (Some v);
                     Samples.verdictEvent "ex-2" "2024-01-01T00:00:01.000Z" "warn" (Some v')] in
      category v <> category v'
      /\ App.violationKey v = App.violationKey v'
      /\ App.summarizedViolations true active (App.displayEvents active true)
         = [{| App.summary_violation := v; App.count := 2 |}]).
Proof.
  split.
  - intros v v' (Hc & Hs & Ht & Hr) (Hc' & Hs' & Ht' & Hr'). unfold App.violationKey.
    split.
    + intros Hkey.
      apply bar_separated_inj in Hkey as [Hcat Hkey]; [|done..].
      apply bar_separated_inj in Hkey as [Hsev Hkey]; [|done..].
      apply bar_separated_inj in Hkey as [Hty Hkey]; [|done..].
      apply bar_separated_inj in Hkey as [Hcl Hkey]; [|done..].
      done.
    + intros (-> & -> & -> & -> & ->). done.
  - cbv zeta. split; [discriminate|]. split; vm_compute; reflexivity.
Qed.

(* ===================================================================== *)
(** * Properties of the live console *)
(* ===================================================================== *)

Lemma existsb_elem_of {A} (f : A -> bool) (l : list A) :
  existsb f l = true <-> exists x, x ∈ l /\ f x = true.
Proof.
  rewrite existsb_exists. split; intros (x & Hin & Hf); exists x;
    (split; [by apply list_elem_of_In | done]).
Qed.

Lemma find_elem_of {A} (f : A -> bool) (l : list A) x :
  List.find f l = Some x -> x ∈ l /\ f x = true.
Proof. intros Hf. apply find_some in Hf as [Hin Hfx]. by rewrite list_elem_of_In. Qed.

Lemma find_is_Some {A} (f : A -> bool) (l : list A) x :
  x ∈ l -> f x = true -> is_Some (List.find f l).
Proof.
  intros Hin Hfx. destruct (List.find f l) eqn:E; [done|].
  apply list_elem_of_In in Hin. pose proof (find_none _ _ E _ Hin). congruence.
Qed.

Lemma scenarioOptionEffect_cases data scenario :
  App.scenarioOptionEffect data scenario
  = match default [] (Api.scenarios <$> data) with
    | [] => scenario
    | first :: rest =>
        if scenarioListed (first :: rest) scenario then scenario
        else Some (Api.scenario_option_id first)
    end.
Proof.
  unfold App.scenarioOptionEffect, scenarioListed.
  destruct (default [] (Api.scenarios <$> data)) as [|first rest]; [done|].
  destruct (App.truthy scenario); simpl; [|done].
  by destruct (bool_decide _ || _).
Qed.

Lemma judgeOptionEffect_cases data judge :
  App.judgeOptionEffect data judge
  = match default [] (Api.judges <$> data) with
    | [] => judge
    | first :: rest =>
        if judgeValid (first :: rest) judge then judge
        else match judgeFallback (first :: rest) with
             | Some option => Some (Api.judge_option_id option)
             | None => judge
             end
    end.
Proof.
  unfold App.judgeOptionEffect, judgeValid, judgeFallback.
  destruct (default [] (Api.judges <$> data)) as [|first rest]; [done|].
  by destruct (App.truthy judge).
Qed.

Lemma judgeFallback_elem_of judges :
  judges <> [] -> exists option, judgeFallback judges = Some option /\ option ∈ judges.
Proof.
  intros Hne. unfold judgeFallback, Api.orElse.
  destruct (List.find _ judges) as [n|] eqn:En.
  { exists n. split; [done|]. by apply find_elem_of in En as [? _]. }
  destruct (List.find Api.available judges) as [a|] eqn:Ea.
  { exists a. split; [done|]. by apply find_elem_of in Ea as [? _]. }
  destruct judges as [|first rest]; [done|]. exists first. split; [done | by left].
Qed.

Lemma scenarioListed_true scenarios selected :
  scenarioListed scenarios selected = true
  <-> exists option, option ∈ scenarios /\ Api.scenario_option_id option <> ""
                     /\ selected = Some (Api.scenario_option_id option).
Proof.
  unfold scenarioListed. rewrite andb_true_iff, existsb_elem_of. split.
  - intros [Ht (option & Hin & Heq)]. apply bool_decide_eq_true in Heq. subst selected.
    exists option. split; [done|]. split; [|done].
    simpl in Ht. by apply negb_true_iff, bool_decide_eq_false in Ht.
  - intros (option & Hin & Hid & ->). split.
    + simpl. by rewrite bool_decide_eq_false_2.
    + exists option. split; [done|]. by apply bool_decide_eq_true.
Qed.

Lemma judgeValid_true judges selected :
  judgeValid judges selected = true
  <-> exists option, option ∈ judges /\ Api.judge_option_id option <> ""
                     /\ Api.available option = true
                     /\ selected = Some (Api.judge_option_id option).
Proof.
  unfold judgeValid. rewrite andb_true_iff, existsb_elem_of. split.
  - intros [Ht (option & Hin & Heq)]. apply andb_true_iff in Heq as [Heq Hav].
    apply bool_decide_eq_true in Heq. subst selected.
    exists option. split; [done|]. split; [|done].
    simpl in Ht. by apply negb_true_iff, bool_decide_eq_false in Ht.
  - intros (option & Hin & Hid & Hav & ->). split.
    + simpl. by rewrite bool_decide_eq_false_2.
    + exists option. split; [done|].
      apply andb_true_iff. split; [by apply bool_decide_eq_true | done].
Qed.

(** X17.  The effect that settles the console selections
    reaches a fixed point in one run: run again on its own result it
    changes nothing.  With no scenario listed the selected scenario is
    left alone, and so is the judge with no judge listed.  Otherwise the
    selected scenario afterwards is the id of a listed scenario, the
    selected judge the id of a listed judge; a selection that was the id
    of a listed scenario, or of a listed judge that is available, is
    kept.  The judge selected afterwards is available, or is the one
    called 'none', or no listed judge is available. *)
Theorem console_options_effect_settles :
  forall (data : option Api.ConsoleOptions) (scenario judge : option string),
    let scenarios := default [] (Api.scenarios <$> data) in
    let judges := default [] (Api.judges <$> data) in
    let scenario' := App.scenarioOptionEffect data scenario in
    let judge' := App.judgeOptionEffect data judge in
    App.scenarioOptionEffect data scenario' = scenario'
    /\ App.judgeOptionEffect data judge' = judge'
    /\ (scenarios = [] -> scenario' = scenario)
    /\ (judges = [] -> judge' = judge)
    /\ (scenarios <> [] ->
        exists option, option ∈ scenarios
                       /\ scenario' = Some (Api.scenario_option_id option))
    /\ (judges <> [] ->
        exists option, option ∈ judges /\ judge' = Some (Api.judge_option_id option))
    /\ (forall option, option ∈ scenarios ->
          Api.scenario_option_id option <> "" ->
          scenario = Some (Api.scenario_option_id option) -> scenario' = scenario)
    /\ (forall option, option ∈ judges ->
          Api.judge_option_id option <> "" -> Api.available option = true ->
          judge = Some (Api.judge_option_id option) -> judge' = judge)
    /\ (judges <> [] ->
        (exists option, option ∈ judges /\ Api.available option = true
                        /\ judge' = Some (Api.judge_option_id option))
        \/ judge' = Some "none"
        \/ Forall (fun option => Api.available option = false) judges).
Proof.
  intros data scenario judge scenarios judges scenario' judge'.
  subst scenario' judge'.
  rewrite !scenarioOptionEffect_cases, !judgeOptionEffect_cases.
  fold scenarios judges.
  split.
  { destruct scenarios as [|first rest] eqn:Es; [done|].
    destruct (scenarioListed _ scenario) eqn:Hl; [by rewrite Hl|].
    by destruct (scenarioListed _ (Some _)). }
  split.
  { destruct judges as [|first rest] eqn:Ej; [done|].
    destruct (judgeValid _ judge) eqn:Hv; [by rewrite Hv|].
    destruct (judgeFallback_elem_of (first :: rest) ltac:(done)) as (option & -> & _).
    by destruct (judgeValid _ (Some _)). }
  split; [by intros ->|]. split; [by intros ->|]. split.
  { intros Hne. destruct scenarios as [|first rest] eqn:Es; [done|].
    destruct (scenarioListed _ scenario) eqn:Hl.
    - apply scenarioListed_true in Hl as (option & Hin & _ & Heq). by exists option.
    - exists first. split; [by left | done]. }
  split.
  { intros Hne. destruct judges as [|first rest] eqn:Ej; [done|].
    destruct (judgeValid _ judge) eqn:Hv.
    - apply judgeValid_true in Hv as (option & Hin & _ & _ & Heq). by exists option.
    - destruct (judgeFallback_elem_of (first :: rest) ltac:(done)) as (option & -> & Hin).
      by exists option. }
  split.
  { intros option Hin Hid ->. destruct scenarios as [|first rest] eqn:Es; [done|].
    assert (Hl : scenarioListed (first :: rest) (Some (Api.scenario_option_id option))
                 = true) by (apply scenarioListed_true; by exists option).
    by rewrite Hl. }
  split.
  { intros option Hin Hid Hav ->. destruct judges as [|first rest] eqn:Ej; [done|].
    assert (Hv : judgeValid (first :: rest) (Some (Api.judge_option_id option)) = true)
      by (apply judgeValid_true; by exists option).
    by rewrite Hv. }
  intros Hne. destruct judges as [|first rest] eqn:Ej; [done|].
  destruct (judgeValid _ judge) eqn:Hv.
  { left. apply judgeValid_true in Hv as (option & Hin & _ & Hav & Heq). by exists option. }
  unfold judgeFallback, Api.orElse.
  destruct (List.find _ (first :: rest)) as [n|] eqn:En.
  { right. left. apply find_elem_of in En as [_ Hn].
    apply bool_decide_eq_true in Hn. by rewrite Hn. }
  destruct (List.find Api.available (first :: rest)) as [a|] eqn:Ea.
  { left. apply find_elem_of in Ea as [Hin Hav]. by exists a. }
  right. right. apply Forall_forall. intros option Hin.
  apply list_elem_of_In in Hin. pose proof (find_none _ _ Ea _ Hin) as Hno.
  by destruct (Api.available option).
Qed.

Lemma handleSubmit_cases options scenario judge onSubmit st :
  let scenarios := default [] (Api.scenarios <$> options) in
  LiveConsole.handleSubmit options scenario judge onSubmit st
  = if decide (App.trim (LiveConsole.prompt st) = "") then (st, [])
    else if negb (scenarioListed scenarios scenario) then
      ({| LiveConsole.prompt := LiveConsole.prompt st;
          LiveConsole.status := Some "Select a base LLM before sending." |}, [])
    else if negb (App.truthy judge) then
      ({| LiveConsole.prompt := LiveConsole.prompt st;
          LiveConsole.status := Some "Select a judge option before sending." |}, [])
    else
      let params := {| Api.prompt := LiveConsole.prompt st;
                       Api.scenarioId := default "" scenario;
                       Api.judgeId := default "" judge |} in
      match onSubmit params with
      | None =>
          ({| LiveConsole.prompt := "";
              LiveConsole.status := Some "Submitted for evaluation" |}, [params])
      | Some _ =>
          ({| LiveConsole.prompt := LiveConsole.prompt st;
              LiveConsole.status := Some "Failed to submit prompt" |}, [params])
      end.
Proof.
  cbv zeta. unfold LiveConsole.handleSubmit, scenarioListed.
  destruct (decide _); [done|].
  destruct scenario as [scenarioId|]; [|done].
  assert (Hex : match options with
                | Some o =>
                    existsb (fun option =>
                               bool_decide (Api.scenario_option_id option = scenarioId))
                            (Api.scenarios o)
                | None => false
                end
                = existsb (fun option =>
                             bool_decide (Some (Api.scenario_option_id option)
                                          = Some scenarioId))
                          (default [] (Api.scenarios <$> options))).
  { destruct options as [o|]; [|done]. simpl.
    induction (Api.scenarios o) as [|x l IH]; [done|]. simpl. rewrite IH. f_equal.
    apply bool_decide_ext. split; congruence. }
  rewrite Hex. clear Hex.
  destruct (App.truthy (Some scenarioId)); simpl; [|done].
  destruct (existsb _ _); simpl; [|done].
  destruct judge as [judgeId|]; [|done].
  by destruct (App.truthy (Some judgeId)).
Qed.

(** X18.  A submission of the console form calls [onSubmit] at most
    once, with the prompt as typed and the selected ids.  It calls it
    exactly when the prompt is not blank, the selected scenario is a
    listed one and a judge is selected.  A blank prompt, which is one of
    nothing but the white space [trim] strips, changes nothing at all;
    when nothing is sent the prompt is kept; when the call resolves the
    prompt is emptied and the status is 'Submitted for evaluation'; when
    it throws the prompt is kept and the status is 'Failed to submit
    prompt'. *)
Theorem console_submit_guards :
  forall (options : option Api.ConsoleOptions) (scenario judge : option string)
         (onSubmit : Api.ConsoleSubmitParams -> option string)
         (st : LiveConsole.ConsoleState),
    let result := LiveConsole.handleSubmit options scenario judge onSubmit st in
    let scenarios := default [] (Api.scenarios <$> options) in
    (App.trim (LiveConsole.prompt st) = "" <-> whiteSpaceOnly (LiveConsole.prompt st))
    /\ (result.2 = []
     \/ exists params,
          result.2 = [params]
          /\ Api.prompt params = LiveConsole.prompt st
          /\ scenario = Some (Api.scenarioId params)
          /\ judge = Some (Api.judgeId params))
    /\ (result.2 <> [] <->
        App.trim (LiveConsole.prompt st) <> ""
        /\ (exists option, option ∈ scenarios
                           /\ Api.scenario_option_id option <> ""
                           /\ scenario = Some (Api.scenario_option_id option))
        /\ App.truthy judge = true)
    /\ (App.trim (LiveConsole.prompt st) = "" -> result = (st, []))
    /\ (result.2 = [] -> LiveConsole.prompt result.1 = LiveConsole.prompt st)
    /\ (forall params, result.2 = [params] ->
          result.1
          = match onSubmit params with
            | None => {| LiveConsole.prompt := "";
                         LiveConsole.status := Some "Submitted for evaluation" |}
            | Some _ => {| LiveConsole.prompt := LiveConsole.prompt st;
                           LiveConsole.status := Some "Failed to submit prompt" |}
            end).
Proof.
  intros options scenario judge onSubmit st result scenarios.
  split; [apply trim_blank|].
  subst result. rewrite handleSubmit_cases. cbv zeta. fold scenarios.
  destruct (decide (App.trim (LiveConsole.prompt st) = "")) as [Hblank|Hblank].
  { simpl. split; [by left|]. split; [|done].
    split; [done | by intros [? _]]. }
  destruct (scenarioListed scenarios scenario) eqn:Hl; simpl.
  2:{ split; [by left|]. split; [|done]. split; [done|].
      intros (_ & Hex & _). apply scenarioListed_true in Hex. congruence. }
  destruct (App.truthy judge) eqn:Hj; simpl.
  2:{ split; [by left|]. split; [|done]. split; [done|]. by intros (_ & _ & ?). }
  apply scenarioListed_true in Hl as (option & Hin & Hid & ->).
  destruct judge as [judgeId|]; [|done]. simpl.
  destruct (onSubmit _) eqn:Hs; simpl.
  - split; [right; by eexists|]. split.
    { split; [|done]. intros _. split; [done|]. split; [by exists option | done]. }
    split; [done|]. split; [done|]. intros params [= <-]. by rewrite Hs.
  - split; [right; by eexists|]. split.
    { split; [|done]. intros _. split; [done|]. split; [by exists option | done]. }
    split; [done|]. split; [done|]. intros params [= <-]. by rewrite Hs.
Qed.

Lemma judgeOption_NoDup (o : Api.ConsoleOptions) option :
  NoDup (Api.judge_option_id <$> Api.judges o) -> option ∈ Api.judges o ->
  LiveConsole.judgeOption (Some o) (Some (Api.judge_option_id option)) = Some option.
Proof.
  unfold LiveConsole.judgeOption. simpl.
  induction (Api.judges o) as [|x l IH]; simpl.
  - intros _ Hin. by apply elem_of_nil in Hin.
  - rewrite NoDup_cons. intros [Hx Hnd] Hin.
    apply elem_of_cons in Hin as [->|Hin].
    + by rewrite bool_decide_eq_true_2.
    + case_bool_decide as Heq; [|by apply IH].
      exfalso. apply Hx. injection Heq as ->. by apply list_elem_of_fmap_2.
Qed.

(** X19.  Once the console options are loaded with at least
    one scenario and one judge, ids that are not empty and judge ids that
    are distinct, the selections the options effect leaves are accepted
    by the form: a prompt that is not blank is sent with them, whatever
    was selected before.  The send button is enabled for them exactly
    when some listed judge is available or is called 'none'. *)
Theorem console_ready_after_options_effect :
  forall (o : Api.ConsoleOptions) (scenario judge : option string)
         (onSubmit : Api.ConsoleSubmitParams -> option string)
         (st : LiveConsole.ConsoleState),
    Api.scenarios o <> [] -> Api.judges o <> [] ->
    Forall (fun option => Api.scenario_option_id option <> "") (Api.scenarios o) ->
    Forall (fun option => Api.judge_option_id option <> "") (Api.judges o) ->
    NoDup (Api.judge_option_id <$> Api.judges o) ->
    App.trim (LiveConsole.prompt st) <> "" ->
    let scenario' := App.scenarioOptionEffect (Some o) scenario in
    let judge' := App.judgeOptionEffect (Some o) judge in
    (exists params,
       (LiveConsole.handleSubmit (Some o) scenario' judge' onSubmit st).2 = [params]
       /\ scenario' = Some (Api.scenarioId params)
       /\ judge' = Some (Api.judgeId params))
    /\ (LiveConsole.canSubmit (Some o) scenario' judge' = true
        <-> exists option,
              option ∈ Api.judges o
              /\ (Api.judge_option_id option = "none" \/ Api.available option = true)).
Proof.
  intros o scenario judge onSubmit st Hs Hj Hsid Hjid Hnd Hprompt scenario' judge'.
  assert (Hscn : exists option, option ∈ Api.scenarios o
                   /\ scenario' = Some (Api.scenario_option_id option)).
  { subst scenario'. rewrite scenarioOptionEffect_cases. simpl.
    destruct (Api.scenarios o) as [|first rest] eqn:Es; [done|].
    destruct (scenarioListed _ scenario) eqn:Hl.
    - apply scenarioListed_true in Hl as (option & Hin & _ & Heq). by exists option.
    - exists first. split; [by left | done]. }
  destruct Hscn as (sopt & Hsin & Hseq).
  assert (Hsopt : Api.scenario_option_id sopt <> "")
    by (by eapply Forall_forall in Hsid).
  assert (Hjdg : exists option, option ∈ Api.judges o
                   /\ judge' = Some (Api.judge_option_id option)
                   /\ ((exists x, x ∈ Api.judges o
                          /\ (Api.judge_option_id x = "none" \/ Api.available x = true)) ->
                       Api.judge_option_id option = "none" \/ Api.available option = true)).
  { subst judge'. rewrite judgeOptionEffect_cases. simpl.
    destruct (Api.judges o) as [|first rest] eqn:Ej; [done|].
    destruct (judgeValid _ judge) eqn:Hv.
    { apply judgeValid_true in Hv as (option & Hin & _ & Hav & Heq).
      exists option. split; [done|]. split; [done|]. intros _. by right. }
    unfold judgeFallback, Api.orElse.
    destruct (List.find _ (first :: rest)) as [n|] eqn:En.
    { apply find_elem_of in En as [Hin Hn]. apply bool_decide_eq_true in Hn.
      exists n. split; [done|]. split; [done|]. intros _. by left. }
    destruct (List.find Api.available (first :: rest)) as [a|] eqn:Ea.
    { apply find_elem_of in Ea as [Hin Hav].
      exists a. split; [done|]. split; [done|]. intros _. by right. }
    exists first. split; [by left|]. split; [done|].
    intros (x & Hin & [Hx|Hx]); exfalso; apply list_elem_of_In in Hin.
    - pose proof (find_none _ _ En _ Hin) as Hno. simpl in Hno.
      by rewrite bool_decide_eq_true_2 in Hno.
    - pose proof (find_none _ _ Ea _ Hin) as Hno. congruence. }
  destruct Hjdg as (jopt & Hjin & Hjeq & Hjav).
  assert (Hjopt : Api.judge_option_id jopt <> "")
    by (by eapply Forall_forall in Hjid).
  split.
  - rewrite handleSubmit_cases. cbv zeta. rewrite decide_False by done.
    assert (Hl : scenarioListed (default [] (Api.scenarios <$> Some o)) scenario' = true)
      by (apply scenarioListed_true; by exists sopt).
    rewrite Hl, Hjeq. simpl. rewrite bool_decide_eq_false_2 by done. simpl.
    rewrite Hseq. simpl. destruct (onSubmit _); by eexists.
  - unfold LiveConsole.canSubmit. rewrite Hseq, Hjeq.
    rewrite judgeOption_NoDup by done. simpl.
    rewrite !bool_decide_eq_false_2 by done. simpl.
    rewrite orb_true_iff, bool_decide_eq_true. split.
    + intros Hok. by exists jopt.
    + intros Hex. by apply Hjav.
Qed.

Lemma console_ready_after_options_effect_witness :
  let o := {| Api.scenarios :=
                [{| Api.scenario_option_id := "A"; Api.scenario_option_label := "Base";
                    Api.model := "gemma3-4B-128k"; Api.use_rag := false |}];
              Api.judges :=
                [{| Api.judge_option_id := "medgemma"; Api.judge_option_label := "MedGemma";
                    Api.available := false; Api.judge_option_description := None |};
                 {| Api.judge_option_id := "none"; Api.judge_option_label := "No judge";
                    Api.available := true; Api.judge_option_description := None |}] |} in
  let st := {| LiveConsole.prompt := "What does APP 6 allow?";
               LiveConsole.status := None |} in
  App.scenarioOptionEffect (Some o) None = Some "A"
  /\ App.judgeOptionEffect (Some o) (Some "medgemma") = Some "none"
  /\ (exists params,
        (LiveConsole.handleSubmit (Some o) (Some "A") (Some "none") (fun _ => None) st).2
        = [params])
  /\ LiveConsole.canSubmit (Some o) (Some "A") (Some "none") = true.
Proof.
  cbv zeta.
  split; [reflexivity|]. split; [reflexivity|].
  pose proof (console_ready_after_options_effect
    {| Api.scenarios :=
         [{| Api.scenario_option_id := "A"; Api.scenario_option_label := "Base";
             Api.model := "gemma3-4B-128k"; Api.use_rag := false |}];
       Api.judges :=
         [{| Api.judge_option_id := "medgemma"; Api.judge_option_label := "MedGemma";
             Api.available := false; Api.judge_option_description := None |};
          {| Api.judge_option_id := "none"; Api.judge_option_label := "No judge";
             Api.available := true; Api.judge_option_description := None |}] |}
    None (Some "medgemma") (fun _ => None)
    {| LiveConsole.prompt := "What does APP 6 allow?"; LiveConsole.status := None |}
    ltac:(discriminate) ltac:(discriminate)
    ltac:(repeat constructor; discriminate)
    ltac:(repeat constructor; discriminate)
    ltac:(simpl; repeat constructor; set_solver)
    ltac:(vm_compute; discriminate)) as [(params & Hp & _) Hcan].
  split.
  - exists params. exact Hp.
  - apply Hcan.
    exists {| Api.judge_option_id := "none"; Api.judge_option_label := "No judge";
              Api.available := true; Api.judge_option_description := None |}.
    split; [apply list_elem_of_further, list_elem_of_here | by left].
Defined.

(* ===================================================================== *)
(** * Further properties of the reveal handler *)
(* ===================================================================== *)

(** One request with the callback [App] passes: either nothing is sent
    and the disclosed flags stay, or one call is sent for this exchange
    and the flag of this exchange is set exactly when the backend took
    the call. *)
Lemma handleRevealResponse_app selectedRunId usingDemoData backend group st :
  let props := Timeline.appTimelineProps selectedRunId usingDemoData backend in
  let result := Timeline.handleRevealResponse props group st in
  let id := Timeline.exchangeId group in
  (result.2 = [] /\ Timeline.revealedMap result.1 = Timeline.revealedMap st)
  \/ exists runId,
       selectedRunId = Some runId /\ runId <> "" /\ usingDemoData = false
       /\ hasRawResponse group = true
       /\ let call := {| App.ac_runId := runId; App.ac_exchangeId := id;
                         App.ac_field := App.field_llm_response |} in
          result.2 = [call]
          /\ ((backend call = None
               /\ Timeline.isResponseRevealed id result.1 = true
               /\ forall other, other <> id ->
                    Timeline.revealedMap result.1 !! other
                    = Timeline.revealedMap st !! other)
              \/ (backend call <> None
                  /\ Timeline.revealedMap result.1 = Timeline.revealedMap st)).
Proof.
  cbv zeta. unfold Timeline.handleRevealResponse, Timeline.appTimelineProps.
  cbn [Timeline.onReveal Timeline.allowReveal]. unfold App.allowRevealProp.
  destruct usingDemoData; simpl; [by left|].
  destruct (App.truthy selectedRunId) eqn:Ht; simpl; [|by left].
  unfold hasRawResponse.
  destruct (Timeline.response group) as [responsePayload|]; [|by left].
  destruct (App.truthy (payload_pii_raw_text responsePayload)) eqn:Hraw; simpl;
    [|by left].
  destruct selectedRunId as [runId|]; [|done].
  unfold App.handleRevealRequest. rewrite Ht. simpl.
  right. exists runId. split; [done|]. split.
  { simpl in Ht. by apply negb_true_iff, bool_decide_eq_false in Ht. }
  split; [done|]. split; [done|]. split; [done|].
  destruct (backend _) eqn:Hb; simpl.
  - right. by split.
  - left. split; [done|]. split.
    + unfold Timeline.isResponseRevealed. simpl. by rewrite lookup_insert_eq.
    + intros other Hne. by rewrite lookup_insert_ne.
Qed.

Lemma revealClicks_snoc props clicked group st :
  revealClicks props (clicked ++ [group]) st
  = let before := revealClicks props clicked st in
    let result := Timeline.handleRevealResponse props group before.1 in
    (result.1, before.2 ++ result.2).
Proof. unfold revealClicks. by rewrite foldl_app. Qed.

(** X20.  Starting from cleared reveal state, after any series
    of clicks on 'Reveal full response' with the callback [App] passes to
    the timeline: an exchange whose response is disclosed has an audit
    call for it in the log that the backend accepted, made for the
    selected run while no demo data was shown; every audit call sent is
    for the selected run, for the response field, and for a clicked
    exchange that has raw text; and the card of an exchange with no
    accepted audit call shows its redacted text. *)
Theorem no_disclosure_without_audit :
  forall (selectedRunId : option string) (usingDemoData : bool)
         (backend : App.AuditCall -> option string)
         (clicked : list Timeline.TurnGroup),
    let props := Timeline.appTimelineProps selectedRunId usingDemoData backend in
    let result := revealClicks props clicked Timeline.clearedRevealState in
    (forall id,
       Timeline.isResponseRevealed id result.1 = true ->
       exists runId,
         selectedRunId = Some runId /\ usingDemoData = false
         /\ {| App.ac_runId := runId; App.ac_exchangeId := id;
               App.ac_field := App.field_llm_response |} ∈ result.2
         /\ backend {| App.ac_runId := runId; App.ac_exchangeId := id;
                       App.ac_field := App.field_llm_response |} = None)
    /\ (forall call,
          call ∈ result.2 ->
          selectedRunId = Some (App.ac_runId call)
          /\ App.ac_field call = App.field_llm_response
          /\ exists group, group ∈ clicked
                           /\ Timeline.exchangeId group = App.ac_exchangeId call
                           /\ hasRawResponse group = true)
    /\ (forall group,
          (forall call, call ∈ result.2 ->
                        App.ac_exchangeId call = Timeline.exchangeId group ->
                        backend call <> None) ->
          Timeline.responseText group result.1 = redactedText group).
Proof.
  intros selectedRunId usingDemoData backend clicked props result.
  assert (Hinv :
    (forall id,
       Timeline.isResponseRevealed id result.1 = true ->
       exists runId,
         selectedRunId = Some runId /\ usingDemoData = false
         /\ {| App.ac_runId := runId; App.ac_exchangeId := id;
               App.ac_field := App.field_llm_response |} ∈ result.2
         /\ backend {| App.ac_runId := runId; App.ac_exchangeId := id;
                       App.ac_field := App.field_llm_response |} = None)
    /\ (forall call,
          call ∈ result.2 ->
          selectedRunId = Some (App.ac_runId call)
          /\ App.ac_field call = App.field_llm_response
          /\ exists group, group ∈ clicked
                           /\ Timeline.exchangeId group = App.ac_exchangeId call
                           /\ hasRawResponse group = true)).
  { subst result. induction clicked as [|group clicked IH] using rev_ind.
    - split; [done|]. intros call Hin. by apply elem_of_nil in Hin.
    - rewrite revealClicks_snoc. cbv zeta.
      destruct IH as [IHrev IHcalls].
      set (before := revealClicks props clicked Timeline.clearedRevealState) in *.
      pose proof (handleRevealResponse_app selectedRunId usingDemoData backend
                    group before.1) as Hstep.
      cbv zeta in Hstep. fold props in Hstep.
      set (step := Timeline.handleRevealResponse props group before.1) in *.
      cbn [fst snd].
      destruct Hstep as [[Hnone Hsame]|(runId & Hrun & _ & Hdemo & Hraw & Hcall & Hflag)].
      + rewrite Hnone, app_nil_r. split.
        * intros id Hrev. apply IHrev.
          unfold Timeline.isResponseRevealed in *. by rewrite <- Hsame.
        * intros call Hin. destruct (IHcalls call Hin) as (? & ? & g & Hg & ?).
          repeat split; try done. exists g. split; [|done]. set_solver.
      + rewrite Hcall. split.
        * intros id Hrev.
          destruct (decide (id = Timeline.exchangeId group)) as [->|Hne].
          -- destruct Hflag as [(Hb & _ & _)|(Hb & Hsame)].
             ++ exists runId. repeat split; try done. set_solver.
             ++ destruct (IHrev (Timeline.exchangeId group)) as (r & ? & ? & ? & ?).
                { unfold Timeline.isResponseRevealed in *. by rewrite <- Hsame. }
                exists r. repeat split; try done. set_solver.
          -- destruct (IHrev id) as (r & ? & ? & ? & ?).
             { unfold Timeline.isResponseRevealed in *.
               destruct Hflag as [(_ & _ & Hother)|(_ & Hsame)].
               - by rewrite <- Hother.
               - by rewrite <- Hsame. }
             exists r. repeat split; try done. set_solver.
        * intros call Hin. apply elem_of_app in Hin as [Hin|Hin].
          -- destruct (IHcalls call Hin) as (? & ? & g & Hg & ?).
             repeat split; try done. exists g. split; [|done]. set_solver.
          -- apply list_elem_of_singleton in Hin as ->. simpl.
             repeat split; try done. exists group. split; [set_solver | done]. }
  destruct Hinv as [Hrev Hcalls]. split; [done|]. split; [done|].
  intros group Hnot. unfold Timeline.responseText, redactedText.
  destruct (Timeline.response group) as [responsePayload|]; [|done].
  destruct (Timeline.isResponseRevealed _ result.1) eqn:Hr; [|done].
  exfalso. destruct (Hrev _ Hr) as (runId & _ & _ & Hin & Hb).
  by apply (Hnot _ Hin).
Qed.

(** X21.  A reveal request changes the reveal state of its
    own exchange only: the disclosed flags, errors and pending flags of
    every other exchange are as before.  A response that was disclosed
    stays disclosed.  A request never leaves its exchange pending unless
    it was rejected locally while already pending.  A response becomes
    disclosed only when the callback was called, returned without
    throwing, the reveal was allowed and raw text was there; the error of
    the exchange is then cleared.  When the callback throws, the error is
    'Failed to log reveal. Please retry.', the exchange is not pending
    and no disclosed flag has changed. *)
Theorem reveal_touches_one_exchange :
  forall (props : Timeline.TimelineProps) (group : Timeline.TurnGroup)
         (st : Timeline.RevealState),
    let id := Timeline.exchangeId group in
    let result := Timeline.handleRevealResponse props group st in
    (forall other, other <> id ->
       Timeline.revealedMap result.1 !! other = Timeline.revealedMap st !! other
       /\ Timeline.revealErrors result.1 !! other = Timeline.revealErrors st !! other
       /\ Timeline.pendingReveal result.1 !! other = Timeline.pendingReveal st !! other)
    /\ (Timeline.isResponseRevealed id st = true ->
        Timeline.isResponseRevealed id result.1 = true)
    /\ (Timeline.isRevealPending id result.1 = true ->
        Timeline.isRevealPending id st = true
        /\ result.2 = [] /\ is_Some (revealError id result.1))
    /\ (Timeline.isResponseRevealed id result.1 = true ->
        Timeline.isResponseRevealed id st = false ->
        revealError id result.1 = None
        /\ Timeline.isRevealPending id result.1 = false
        /\ hasRawResponse group = true
        /\ Timeline.allowReveal props = true
        /\ exists callback,
             Timeline.onReveal props = Some callback
             /\ callback {| App.rd_exchangeId := id;
                            App.rd_field := App.field_llm_response |}
                = (result.2, None))
    /\ (forall callback calls message,
          Timeline.onReveal props = Some callback ->
          Timeline.allowReveal props = true -> hasRawResponse group = true ->
          callback {| App.rd_exchangeId := id; App.rd_field := App.field_llm_response |}
          = (calls, Some message) ->
          result.2 = calls
          /\ revealError id result.1 = Some "Failed to log reveal. Please retry."
          /\ Timeline.isRevealPending id result.1 = false
          /\ Timeline.revealedMap result.1 = Timeline.revealedMap st).
Proof.
  intros props group st id result. subst result.
  unfold Timeline.handleRevealResponse, hasRawResponse. fold id.
  destruct (Timeline.onReveal props) as [callback|]; simpl.
  2:{ split.
      { intros other Hne. simpl. by rewrite lookup_insert_ne. }
      split; [done|]. split.
      { intros Hp. split; [done|]. split; [done|].
        unfold revealError. simpl. by rewrite lookup_insert_eq. }
      split; [intros Hr Hn; unfold Timeline.isResponseRevealed in *; simpl in *;
              congruence|].
      done. }
  destruct (Timeline.allowReveal props); simpl.
  2:{ split.
      { intros other Hne. simpl. by rewrite lookup_insert_ne. }
      split; [done|]. split.
      { intros Hp. split; [done|]. split; [done|].
        unfold revealError. simpl. by rewrite lookup_insert_eq. }
      split; [intros Hr Hn; unfold Timeline.isResponseRevealed in *; simpl in *;
              congruence|].
      done. }
  destruct (Timeline.response group) as [responsePayload|]; simpl.
  2:{ split.
      { intros other Hne. simpl. by rewrite lookup_insert_ne. }
      split; [done|]. split.
      { intros Hp. split; [done|]. split; [done|].
        unfold revealError. simpl. by rewrite lookup_insert_eq. }
      split; [intros Hr Hn; unfold Timeline.isResponseRevealed in *; simpl in *;
              congruence|].
      done. }
  destruct (App.truthy (payload_pii_raw_text responsePayload)); simpl.
  2:{ split.
      { intros other Hne. simpl. by rewrite lookup_insert_ne. }
      split; [done|]. split.
      { intros Hp. split; [done|]. split; [done|].
        unfold revealError. simpl. by rewrite lookup_insert_eq. }
      split; [intros Hr Hn; unfold Timeline.isResponseRevealed in *; simpl in *;
              congruence|].
      done. }
  destruct (callback _) as [calls [message|]] eqn:Hcb; simpl.
  - split.
    { intros other Hne. by rewrite !lookup_insert_ne. }
    split; [done|]. split.
    { unfold Timeline.isRevealPending. simpl. by rewrite lookup_insert_eq. }
    split; [intros Hr Hn; unfold Timeline.isResponseRevealed in *; simpl in *;
            congruence|].
    intros cb calls' message' [= <-] _ _ Hcb'. rewrite Hcb in Hcb'.
    injection Hcb' as <- <-. split; [done|]. split.
    { unfold revealError. simpl. by rewrite lookup_insert_eq. }
    split; [|done]. unfold Timeline.isRevealPending. simpl. by rewrite lookup_insert_eq.
  - split.
    { intros other Hne. by rewrite !lookup_insert_ne. }
    split.
    { intros _. unfold Timeline.isResponseRevealed. simpl. by rewrite lookup_insert_eq. }
    split.
    { unfold Timeline.isRevealPending. simpl. by rewrite lookup_insert_eq. }
    split.
    { intros _ _. split.
      { unfold revealError. simpl. by rewrite lookup_insert_eq. }
      split.
      { unfold Timeline.isRevealPending. simpl. by rewrite lookup_insert_eq. }
      split; [done|]. split; [done|]. by exists callback. }
    intros cb calls' message' [= <-] _ _ Hcb'. rewrite Hcb in Hcb'. done.
Qed.

(* ===================================================================== *)
(** * Further properties of the adapter *)
(* ===================================================================== *)

Lemma toTimelineEvent_created_at now raw :
  created_at (Api.toTimelineEvent now raw) = default now (Api.raw_created_at raw).
Proof. unfold Api.toTimelineEvent. by destruct (decide _). Qed.

Lemma toTimelineEvent_clock now1 now2 raw :
  is_Some (Api.raw_created_at raw) ->
  Api.toTimelineEvent now2 raw = Api.toTimelineEvent now1 raw.
Proof. intros [t Ht]. unfold Api.toTimelineEvent, Api.nullish. by rewrite Ht. Qed.

Lemma toTimelineEvent_same_exchange now1 now2 raw :
  exchange_id (Api.toTimelineEvent now2 raw) = exchange_id (Api.toTimelineEvent now1 raw)
  /\ event_type (Api.toTimelineEvent now2 raw) = event_type (Api.toTimelineEvent now1 raw).
Proof. unfold Api.toTimelineEvent. by destruct (decide _). Qed.

Lemma onEvent_contains prev e : logicalKey e ∈ logicalKey <$> App.onEvent prev e.
Proof.
  destruct (decide (logicalKey e ∈ logicalKey <$> prev)) as [Hin|Hin].
  - by rewrite onEvent_duplicate.
  - rewrite onEvent_new by done. unfold App.slice_last.
    apply list_elem_of_fmap. exists e. split; [done|].
    rewrite drop_app_le by (rewrite length_app; simpl; lia).
    apply elem_of_app. right. by left.
Qed.

Lemma foldl_push_seen H e :
  e ∈ H -> App.event_key e ∈ (foldl App.push (∅, []) H).1.
Proof.
  intros Hin.
  pose proof (foldl_push_pushInv H (∅, []) pushInv_init) as [Hseen _].
  rewrite Hseen. apply elem_of_list_to_set.
  destruct (firstWithKey (App.event_key e) (foldl App.push (∅, []) H).2) as [e'|] eqn:E.
  - apply firstWithKey_Some in E as [Hin' Hk]. rewrite <- Hk.
    by apply list_elem_of_fmap_2.
  - rewrite foldl_push_first in E by apply pushInv_init. simpl in E.
    apply firstWithKey_None in E. exfalso. apply E. by apply list_elem_of_fmap_2.
Qed.

Lemma event_key_created_at e1 e2 :
  event_type e1 = event_type e2 -> exchange_id e1 = exchange_id e2 ->
  App.event_key e1 = App.event_key e2 -> created_at e1 = created_at e2.
Proof.
  unfold App.event_key. intros -> ->.
  generalize (event_type_name (event_type e2)). intros a.
  induction a as [|c a IH]; repeat (rewrite string_app_nil_l || rewrite string_app_cons).
  - intros [= Heq]. revert Heq. generalize (exchange_id e2). intros b.
    induction b as [|c b IH];
      repeat (rewrite string_app_nil_l || rewrite string_app_cons).
    + by intros [= ?].
    + intros [= ?]. by apply IH.
  - intros [= ?]. by apply IH.
Qed.

(** X1.  An event the backend both lists in the timeline and
    streams.  When the backend stamps it with created_at, the adapter
    gives the same event whatever the clock reads, a second delivery to
    the stream buffer is absorbed, and merged with a fetched timeline that
    holds it the streamed copy adds nothing.  When the backend leaves
    created_at out, each copy is stamped with the time at which it was
    adapted: two copies adapted at different times are both buffered and
    both merged, they belong to one exchange, and for a verdict the
    exchange carries two verdicts and the violations-flagged metric
    counts it twice. *)
Theorem event_in_history_and_stream :
  forall (raw : Api.RawEvent) (now1 now2 : string),
    let fetched := Api.toTimelineEvent now1 raw in
    let streamed := Api.toTimelineEvent now2 raw in
    (is_Some (Api.raw_created_at raw) ->
     streamed = fetched
     /\ (forall prev, App.onEvent (App.onEvent prev fetched) streamed
                      = App.onEvent prev fetched)
     /\ (forall (now : string) (raws : list Api.RawEvent) (live : list TimelineEvent),
           raw ∈ raws ->
           App.combinedEvents (Api.normalizeBatch now raws) (streamed :: live)
           = App.combinedEvents (Api.normalizeBatch now raws) live))
    /\ (Api.raw_created_at raw = None -> now1 <> now2 ->
        App.onEvent [fetched] streamed = [fetched; streamed]
        /\ App.combinedEvents [fetched] [streamed] = [fetched; streamed]
        /\ exchange_id streamed = exchange_id fetched
        /\ (Api.raw_event_type raw = Some "judge_verdict" ->
            App.violationCount (App.metrics [fetched; streamed])
            = 2 * App.violationCount (App.metrics [fetched])
            /\ (length <$> (Timeline.judges <$> Timeline.groups [fetched; streamed]))
               = [2%nat])).
Proof.
  intros raw now1 now2 fetched streamed. split.
  - intros Hsome.
    assert (Heq : streamed = fetched) by (by apply toTimelineEvent_clock).
    split; [done|]. split.
    + intros prev. rewrite Heq. apply onEvent_duplicate, onEvent_contains.
    + intros now raws live Hin. unfold App.combinedEvents. cbn [foldl].
      rewrite push_seen; [done | apply foldl_push_pushInv, pushInv_init |].
      apply foldl_push_seen. unfold Api.normalizeBatch.
      replace streamed with (Api.toTimelineEvent now raw)
        by (by apply toTimelineEvent_clock).
      apply list_elem_of_In, in_map. by apply list_elem_of_In.
  - intros Hnone Hclock.
    destruct (toTimelineEvent_same_exchange now1 now2 raw) as [Hid Hty].
    fold fetched streamed in Hid, Hty.
    assert (Hcreated : created_at streamed <> created_at fetched).
    { subst fetched streamed. rewrite !toTimelineEvent_created_at, Hnone. simpl.
      congruence. }
    assert (Hkey : App.event_key streamed <> App.event_key fetched).
    { intros Heq. by apply Hcreated, event_key_created_at. }
    split.
    { rewrite onEvent_new.
      - rewrite slice_last_all; [done | simpl; lia].
      - simpl. rewrite list_elem_of_singleton. unfold logicalKey. congruence. }
    split.
    { unfold App.combinedEvents. cbn [foldl].
      rewrite (push_fresh (∅, []) fetched) by set_solver. cbn [fst snd app].
      rewrite push_fresh; [done|]. cbn [fst]. set_solver. }
    split; [done|].
    intros Hverdict.
    destruct (toTimelineEvent_verdict now1 raw Hverdict) as [Hty1 [v Hv]].
    assert (Hpayload : payload streamed = payload fetched).
    { subst fetched streamed. unfold Api.toTimelineEvent. by destruct (decide _). }
    fold fetched in Hty1, Hv. rewrite Hty1 in Hty. rewrite Hv in Hpayload.
    clearbody fetched streamed.
    destruct fetched as [run1 id1 turn1 ty1 payload1 created1].
    destruct streamed as [run2 id2 turn2 ty2 payload2 created2].
    simpl in *. subst.
    split.
    + unfold App.metrics. simpl. unfold App.countVerdict. simpl.
      repeat case_decide; simpl; lia.
    + unfold Timeline.groups. simpl. unfold Timeline.groupStep at 2. simpl.
      rewrite lookup_empty. simpl. unfold Timeline.groupStep. simpl.
      rewrite lookup_insert_eq. simpl. done.
Qed.

Lemma ofType_nil t evs :
  Forall (fun e => event_type e <> t) evs -> ofType t evs = [].
Proof.
  intros Hall. unfold ofType. induction Hall as [|e evs He _ IH]; [done|].
  rewrite filter_cons, decide_False by done. exact IH.
Qed.

Lemma groups_describes evs :
  Forall (describes evs) (Timeline.groups evs).
Proof.
  destruct (groups_groupingInv evs) as (g & -> & _ & Hdesc & _). exact Hdesc.
Qed.

(** X2.  Events that come out of the adapter are response or
    verdict events, never user prompts.  So every group of a timeline
    built from them has no user prompt: its query card shows the prompt
    preview of its response, or 'Awaiting submission…' when there is
    none, and its category chip is the category of its response. *)
Theorem adapter_events_carry_no_prompt :
  forall events : list TimelineEvent,
    (forall e, e ∈ events -> exists now raw, e = Api.toTimelineEvent now raw) ->
    Forall (fun e => event_type e = llm_response \/ event_type e = judge_verdict) events
    /\ Forall (fun group =>
         Timeline.userPrompt group = None
         /\ Timeline.promptText group
            = default "Awaiting submission…"
                (Timeline.response group ≫= payload_prompt_preview)
         /\ Timeline.questionCategory group
            = Timeline.response group ≫= payload_question_category)
       (Timeline.groups events).
Proof.
  intros events Hadapter.
  assert (Htypes : Forall (fun e => event_type e = llm_response
                                    \/ event_type e = judge_verdict) events).
  { apply Forall_forall. intros e Hin. destruct (Hadapter e Hin) as (now & raw & ->).
    unfold Api.toTimelineEvent. destruct (decide _); [by right | by left]. }
  split; [done|].
  eapply Forall_impl; [apply groups_describes|].
  intros group (first & lastEvent & _ & _ & _ & _ & _ & Hprompt & _ & _).
  cbv zeta in Hprompt.
  rewrite ofType_nil in Hprompt.
  2:{ apply Forall_forall. intros e Hin.
      apply list_elem_of_filter in Hin as [_ Hin].
      eapply Forall_forall in Htypes; [|done]. destruct Htypes as [-> | ->]; done. }
  simpl in Hprompt. unfold Timeline.promptText, Timeline.questionCategory.
  by rewrite Hprompt.
Qed.

Lemma adapter_events_carry_no_prompt_witness :
  let raw := {| Api.raw_created_at := Some "2024-01-01T00:00:00.000Z";
                Api.raw_run := None; Api.raw_exchange_id := Some "ex-1";
                Api.raw_turn_index := Some 0;
                Api.raw_event_type := Some "user_prompt";
                Api.raw_payload := None |} in
  let events := [Api.toTimelineEvent "" raw] in
  (forall e, e ∈ events -> exists now raw, e = Api.toTimelineEvent now raw)
  /\ Forall (fun e => event_type e = llm_response \/ event_type e = judge_verdict) events
  /\ Forall (fun group =>
         Timeline.userPrompt group = None
         /\ Timeline.promptText group
            = default "Awaiting submission…"
                (Timeline.response group ≫= payload_prompt_preview)
         /\ Timeline.questionCategory group
            = Timeline.response group ≫= payload_question_category)
       (Timeline.groups events).
Proof.
  cbv zeta.
  assert (Hadapter : forall e,
            e ∈ [Api.toTimelineEvent ""
                   {| Api.raw_created_at := Some "2024-01-01T00:00:00.000Z";
                      Api.raw_run := None; Api.raw_exchange_id := Some "ex-1";
                      Api.raw_turn_index := Some 0;
                      Api.raw_event_type := Some "user_prompt";
                      Api.raw_payload := None |}] ->
            exists now raw, e = Api.toTimelineEvent now raw).
  { intros e Hin. apply list_elem_of_singleton in Hin. by eexists _, _. }
  split; [exact Hadapter|].
  exact (adapter_events_carry_no_prompt _ Hadapter).
Defined.

Lemma groups_singleton e :
  Timeline.groups [e] = [Timeline.absorb e (Timeline.newGroup e)].
Proof.
  unfold Timeline.groups. cbn [foldl]. unfold Timeline.groupStep.
  cbn [Timeline.map Timeline.collection]. by rewrite lookup_empty.
Qed.

(** X3.  When the backend sends a response with raw
    text but no redacted text, the adapter stores the raw text as the
    redacted text as well (it is preferred to [final_text]).  The card of
    that exchange then shows the raw text in every reveal state, before
    any reveal is requested or audited. *)
Theorem unredacted_response_is_shown_raw :
  forall (now : string) (raw : Api.RawEvent) (p : Api.RawPayload) (text : string)
         (st : Timeline.RevealState),
    Api.raw_event_type raw <> Some "judge_verdict" ->
    Api.raw_payload raw = Some p ->
    Api.raw_pii_redacted_text p = None ->
    Api.raw_pii_raw_text p = Some text ->
    exists group,
      Timeline.groups [Api.toTimelineEvent now raw] = [group]
      /\ Timeline.responseText group st = text
      /\ redactedText group = text
      /\ hasRawResponse group = negb (bool_decide (text = "")).
Proof.
  intros now raw p text st Hty Hp Hred Hraw.
  eexists. split; [apply groups_singleton|].
  unfold Timeline.responseText, redactedText, hasRawResponse, Api.toTimelineEvent.
  unfold Api.nullish. rewrite Hp. cbn [default].
  destruct (decide (default "audit_record" (Api.raw_event_type raw) = "judge_verdict"))
    as [Heq|Hne].
  { exfalso. apply Hty. destruct (Api.raw_event_type raw); simpl in Heq; congruence. }
  cbn. rewrite Hred, Hraw. cbn.
  split; [|done]. by destruct (_ && _).
Qed.

Lemma unredacted_response_is_shown_raw_witness :
  let p := {| Api.raw_source := None; Api.raw_verdict := None; Api.raw_score := None;
              Api.raw_rationale_redacted := None; Api.raw_rationale_raw := None;
              Api.raw_violation := None; Api.raw_latency_ms := None;
              Api.raw_question_category := None; Api.raw_prompt_preview := None;
              Api.raw_completion_preview := None; Api.raw_token_usage := None;
              Api.raw_context_tokens := None; Api.raw_pii_redacted_text := None;
              Api.raw_pii_raw_text := Some "Patient Jane Roe, born 1 May 1980";
              Api.raw_final_text := Some "Patient [NAME], born [DATE]";
              Api.raw_pii_fields := Some ["name"; "dob"] |} in
  let raw := {| Api.raw_created_at := Some "2024-01-01T00:00:00.000Z";
                Api.raw_run := None; Api.raw_exchange_id := Some "ex-1";
                Api.raw_turn_index := Some 0;
                Api.raw_event_type := Some "llm_response";
                Api.raw_payload := Some p |} in
  Api.raw_event_type raw <> Some "judge_verdict"
  /\ exists group,
       Timeline.groups [Api.toTimelineEvent "" raw] = [group]
       /\ Timeline.responseText group Timeline.clearedRevealState
          = "Patient Jane Roe, born 1 May 1980"
       /\ redactedText group = "Patient Jane Roe, born 1 May 1980"
       /\ hasRawResponse group = negb (bool_decide ("Patient Jane Roe, born 1 May 1980" = "")).
Proof.
  cbv zeta. split; [discriminate|].
  eapply unredacted_response_is_shown_raw; [discriminate | reflexivity..].
Defined.

(* ===================================================================== *)
(** * Merging again *)
(* ===================================================================== *)

Section MergeAgain.

Variable Date_getTime : string -> option Z.

Lemma sortCompare_swap a b :
  ~ App.sortCompare Date_getTime a b <= 0 -> App.sortCompare Date_getTime b a <= 0.
Proof.
  unfold App.sortCompare, App.compareCreatedAt.
  destruct (Date_getTime (created_at a)), (Date_getTime (created_at b)); simpl; lia.
Qed.

Lemma insertSorted_inOrder x l :
  Sorted (inOrder Date_getTime) l ->
  Sorted (inOrder Date_getTime) (App.insertSorted Date_getTime x l).
Proof.
  induction l as [|y l IH]; intros Hs; simpl.
  - repeat constructor.
  - apply Sorted_inv in Hs as [Hs Hhd].
    destruct (decide _) as [Hle|Hgt].
    + constructor; [by constructor|]. by constructor.
    + constructor; [by apply IH|].
      destruct l as [|z l]; simpl.
      * constructor. by apply sortCompare_swap.
      * destruct (decide _); constructor; [by apply sortCompare_swap|].
        by inversion Hhd.
Qed.

Lemma array_sort_inOrder l :
  Sorted (inOrder Date_getTime) (App.array_sort Date_getTime l).
Proof.
  unfold App.array_sort. induction l as [|x l IH]; simpl; [constructor|].
  by apply insertSorted_inOrder.
Qed.

Lemma array_sort_of_inOrder l :
  Sorted (inOrder Date_getTime) l -> App.array_sort Date_getTime l = l.
Proof.
  unfold App.array_sort. induction l as [|x l IH]; intros Hs; simpl; [done|].
  apply Sorted_inv in Hs as [Hs Hhd]. rewrite IH by done.
  destruct l as [|y l]; simpl; [done|].
  inversion Hhd; subst. by rewrite decide_True.
Qed.

Lemma array_sort_idempotent l :
  App.array_sort Date_getTime (App.array_sort Date_getTime l)
  = App.array_sort Date_getTime l.
Proof. apply array_sort_of_inOrder, array_sort_inOrder. Qed.

End MergeAgain.

Lemma foldl_push_all_seen evs st :
  (forall e, e ∈ evs -> App.event_key e ∈ st.1) -> foldl App.push st evs = st.
Proof.
  induction evs as [|e evs IH]; intros Hseen; simpl; [done|].
  unfold App.push at 2. rewrite decide_True by (apply Hseen; by left).
  apply IH. intros e' Hin. apply Hseen. by right.
Qed.

Lemma foldl_push_all_fresh evs st :
  st.1 = list_to_set (App.event_key <$> st.2) ->
  NoDup (App.event_key <$> st.2 ++ evs) ->
  foldl App.push st evs
  = (list_to_set (App.event_key <$> st.2 ++ evs), st.2 ++ evs).
Proof.
  revert st. induction evs as [|e evs IH]; intros [seen merged] Hseen Hnd; simpl in *.
  - rewrite app_nil_r. by rewrite Hseen.
  - assert (Hfresh : App.event_key e ∉ seen).
    { rewrite Hseen, elem_of_list_to_set. rewrite fmap_app in Hnd.
      apply NoDup_app in Hnd as (_ & Hdis & _). intros Hin.
      apply (Hdis _ Hin). simpl. by left. }
    rewrite push_fresh by done. simpl.
    rewrite IH; simpl.
    + by rewrite <- app_assoc.
    + rewrite Hseen, fmap_app, list_to_set_app_L. simpl.
      rewrite union_empty_r_L. apply (comm_L (∪)).
    + by rewrite <- app_assoc.
Qed.

Lemma combinedEvents_keys H L k :
  k ∈ App.event_key <$> App.combinedEvents H L <-> k ∈ App.event_key <$> H ++ L.
Proof.
  pose proof (combinedEvents_first H L k) as Hf.
  destruct (firstWithKey k (H ++ L)) as [e|] eqn:E.
  - apply firstWithKey_Some in Hf as [Hin1 Hk1].
    apply firstWithKey_Some in E as [Hin2 Hk2].
    split; intros _; rewrite <- ?Hk1, <- ?Hk2.
    + rewrite Hk2, <- Hk2. by apply list_elem_of_fmap_2.
    + rewrite Hk2, <- Hk1. by apply list_elem_of_fmap_2.
  - apply firstWithKey_None in Hf, E. tauto.
Qed.

Lemma combinedEvents_settled H L :
  NoDup (App.event_key <$> H) ->
  (forall e, e ∈ L -> App.event_key e ∈ App.event_key <$> H) ->
  App.combinedEvents H L = H.
Proof.
  intros Hnd Hseen. unfold App.combinedEvents.
  rewrite (foldl_push_all_fresh H (∅, [])) by done. simpl.
  rewrite foldl_push_all_seen; [done|].
  intros e Hin. simpl. apply elem_of_list_to_set. by apply Hseen.
Qed.

(** X4.  The result of the reconciliation merge is settled.  When
    every created-at string of the two feeds is a date the host can parse
    (the comparator of the sort is then consistent, and the sorted result
    is the one stable ordering): no two neighbours of the result are out
    of order; and merging it again, as the historical feed, with live
    events whose keys it already holds gives it back unchanged: in
    particular with no live event, with the same live feed, and with the
    events of the historical feed it came from. *)
Theorem merge_again_changes_nothing :
  forall (Date_getTime : string -> option Z) (H L : list TimelineEvent),
    Forall (fun e => is_Some (Date_getTime (created_at e))) (H ++ L) ->
    let out := App.merge Date_getTime H L in
    Sorted (inOrder Date_getTime) out
    /\ (forall L' : list TimelineEvent,
          (forall e, e ∈ L' ->
             exists e0, e0 ∈ H ++ L /\ App.event_key e0 = App.event_key e) ->
          App.merge Date_getTime out L' = out)
    /\ App.merge Date_getTime out [] = out
    /\ App.merge Date_getTime out L = out
    /\ App.merge Date_getTime out H = out.
Proof.
  intros getTime H L _ out.
  assert (Hperm : out ≡ₚ App.combinedEvents H L) by apply array_sort_Permutation.
  assert (Hagain : forall L' : list TimelineEvent,
            (forall e, e ∈ L' ->
               exists e0, e0 ∈ H ++ L /\ App.event_key e0 = App.event_key e) ->
            App.merge getTime out L' = out).
  { intros L' Hseen. unfold App.merge at 1. rewrite combinedEvents_settled.
    - apply array_sort_idempotent.
    - rewrite Hperm. apply combinedEvents_NoDup.
    - intros e Hin. destruct (Hseen e Hin) as (e0 & Hin0 & <-).
      rewrite Hperm. apply combinedEvents_keys. by apply list_elem_of_fmap_2. }
  split; [apply array_sort_inOrder|]. split; [exact Hagain|].
  split; [|split]; apply Hagain; intros e Hin.
  - by apply elem_of_nil in Hin.
  - exists e. split; [|done]. apply elem_of_app. by right.
  - exists e. split; [|done]. apply elem_of_app. by left.
Qed.

(** The settled merge applies: a history of two events out of order and a
    live feed that repeats one of them and adds a third. *)
Lemma merge_again_changes_nothing_witness :
  let H := [Samples.verdictEvent "ex-1" "2024-01-01T00:00:02.000Z" "allow" None;
            Samples.responseEvent "ex-1" "2024-01-01T00:00:01.000Z" None None] in
  let L := [Samples.responseEvent "ex-1" "2024-01-01T00:00:01.000Z" None None;
            Samples.responseEvent "ex-2" "2024-01-01T00:00:03.000Z" None None] in
  Forall (fun e => is_Some (IsoDate.getTime (created_at e))) (H ++ L)
  /\ App.merge IsoDate.getTime (App.merge IsoDate.getTime H L) L
     = App.merge IsoDate.getTime H L.
Proof.
  cbv zeta.
  assert (Hdates : Forall (fun e => is_Some (IsoDate.getTime (created_at e)))
    ([Samples.verdictEvent "ex-1" "2024-01-01T00:00:02.000Z" "allow" None;
      Samples.responseEvent "ex-1" "2024-01-01T00:00:01.000Z" None None]
     ++ [Samples.responseEvent "ex-1" "2024-01-01T00:00:01.000Z" None None;
         Samples.responseEvent "ex-2" "2024-01-01T00:00:03.000Z" None None])).
  { repeat constructor; vm_compute; eexists; reflexivity. }
  split; [exact Hdates|].
  exact (proj1 (proj2 (proj2 (proj2
    (merge_again_changes_nothing IsoDate.getTime _ _ Hdates))))).
Defined.

(* ===================================================================== *)
(** * Further properties of the metrics *)
(* ===================================================================== *)

Lemma metrics_counts active :
  App.metrics active =
  {| App.judgeAgreement :=
       if decide (totalVerdictCount active = 0) then "pending"
       else App.roundedToString
              (((App.number_of_Z (verdictCount "allow" active)
                 + App.number_of_Z (verdictCount "warn" active) * App.point_four)
                / App.number_of_Z (totalVerdictCount active)) * 100)%float +:+ "%";
     App.violationCount := verdictCount "warn" active + verdictCount "block" active |}.
Proof.
  unfold App.metrics, totalVerdictCount, verdictCount.
  rewrite List_filter_bool_decide.
  fold (ofType judge_verdict active). rewrite foldl_countVerdict.
  cbn [App.allowCount App.warnCount App.blockCount].
  rewrite !Z.add_0_l. reflexivity.
Qed.

Lemma verdictCount_app v l1 l2 :
  verdictCount v (l1 ++ l2) = verdictCount v l1 + verdictCount v l2.
Proof.
  unfold verdictCount, ofType. rewrite !filter_app, length_app. lia.
Qed.

Lemma totalVerdictCount_app l1 l2 :
  totalVerdictCount (l1 ++ l2) = totalVerdictCount l1 + totalVerdictCount l2.
Proof.
  unfold totalVerdictCount, ofType. rewrite !filter_app, length_app. lia.
Qed.

Lemma verdictCount_cons v e l :
  verdictCount v (e :: l)
  = (if decide (event_type e = judge_verdict /\ payload_verdict (payload e) = Some v)
     then 1 else 0) + verdictCount v l.
Proof.
  unfold verdictCount, ofType. rewrite filter_cons.
  destruct (decide (event_type e = judge_verdict)) as [Hty|Hty].
  - rewrite filter_cons.
    destruct (decide (payload_verdict (payload e) = Some v)) as [Hv|Hv].
    + rewrite decide_True by done. simpl. lia.
    + rewrite decide_False by tauto. lia.
  - rewrite decide_False by tauto. lia.
Qed.

Lemma totalVerdictCount_cons e l :
  totalVerdictCount (e :: l)
  = (if decide (event_type e = judge_verdict) then 1 else 0) + totalVerdictCount l.
Proof.
  unfold totalVerdictCount, ofType. rewrite filter_cons.
  destruct (decide _); simpl; lia.
Qed.

(** X14.  A verdict that is none of 'allow', 'warn' and 'block'
    (the adapter keeps whatever string the backend sent) counts in the
    number of verdicts but in none of the three counters.  The judge
    agreement of a window that holds such a verdict is the one the window
    would have if that verdict were 'block', and it is not 'pending'; but
    the verdict is not among the violations flagged, which count one less
    than with 'block'. *)
Theorem unknown_verdict_lowers_agreement :
  forall (before after : list TimelineEvent) (e : TimelineEvent) (v : string),
    event_type e = judge_verdict ->
    payload_verdict (payload e) = Some v ->
    v <> "allow" -> v <> "warn" -> v <> "block" ->
    let window := before ++ e :: after in
    let blocked := before ++ withVerdict "block" e :: after in
    App.judgeAgreement (App.metrics window) = App.judgeAgreement (App.metrics blocked)
    /\ App.judgeAgreement (App.metrics window) <> "pending"
    /\ App.violationCount (App.metrics blocked)
       = App.violationCount (App.metrics window) + 1
    /\ verdictCount "allow" window + verdictCount "warn" window
       + verdictCount "block" window < totalVerdictCount window.
Proof.
  intros before after e v Hty Hv Hallow Hwarn Hblock window blocked.
  assert (Hpayload : exists j, payload e = VerdictPayload j /\ verdict j = v).
  { destruct (payload e) as [?|?|j]; try done. exists j. split; [done|].
    simpl in Hv. congruence. }
  destruct Hpayload as (j & Hj & Hjv).
  assert (Hcount : forall s,
            verdictCount s window
            = verdictCount s before + verdictCount s after
              + (if decide (s = v) then 1 else 0)).
  { intros s. subst window. rewrite verdictCount_app, verdictCount_cons.
    destruct (decide (s = v)) as [->|Hne].
    - rewrite decide_True by done. lia.
    - rewrite decide_False; [lia|]. intros [_ Hs]. congruence. }
  assert (Hty' : event_type (withVerdict "block" e) = judge_verdict) by done.
  assert (Hv' : payload_verdict (payload (withVerdict "block" e)) = Some "block").
  { unfold withVerdict. cbn [payload]. by rewrite Hj. }
  set (e' := withVerdict "block" e) in *. clearbody e'.
  assert (Hcount' : forall s,
            verdictCount s blocked
            = verdictCount s before + verdictCount s after
              + (if decide (s = "block") then 1 else 0)).
  { intros s. subst blocked. rewrite verdictCount_app, verdictCount_cons.
    destruct (decide (s = "block")) as [->|Hne].
    - rewrite decide_True by done. lia.
    - rewrite decide_False; [lia|]. intros [_ Hs]. congruence. }
  assert (Htotal : totalVerdictCount window
                   = totalVerdictCount before + totalVerdictCount after + 1).
  { subst window. rewrite totalVerdictCount_app, totalVerdictCount_cons.
    rewrite decide_True by done. lia. }
  assert (Htotal' : totalVerdictCount blocked = totalVerdictCount window).
  { rewrite Htotal. subst blocked. rewrite totalVerdictCount_app, totalVerdictCount_cons.
    rewrite decide_True by done. lia. }
  assert (Hle : forall l,
            verdictCount "allow" l + verdictCount "warn" l + verdictCount "block" l
            <= totalVerdictCount l).
  { intros l. induction l as [|x l IH].
    - unfold verdictCount, totalVerdictCount. simpl. lia.
    - rewrite !verdictCount_cons, totalVerdictCount_cons.
      destruct (decide (event_type x = judge_verdict)) as [Hx|Hx].
      + repeat case_decide; try lia;
          repeat match goal with H : _ /\ _ |- _ => destruct H end; congruence.
      + repeat case_decide; try lia;
          repeat match goal with H : _ /\ _ |- _ => destruct H end; congruence. }
  assert (Hnonneg : 0 <= totalVerdictCount before /\ 0 <= totalVerdictCount after)
    by (unfold totalVerdictCount; lia).
  rewrite !metrics_counts. cbn [App.judgeAgreement App.violationCount].
  rewrite Htotal', !Hcount, !Hcount'.
  rewrite !(decide_False (P := "allow" = v)), !(decide_False (P := "warn" = v)),
    !(decide_False (P := "block" = v)) by congruence.
  rewrite !(decide_False (P := "allow" = "block")),
    !(decide_False (P := "warn" = "block")), !(decide_True (P := "block" = "block"))
    by done.
  split; [done|]. split.
  { rewrite decide_False by lia. apply append_percent_not_pending. }
  split; [lia|].
  pose proof (Hle before). pose proof (Hle after). lia.
Qed.

Lemma unknown_verdict_lowers_agreement_witness :
  let e := Samples.verdictEvent "ex-1" "2024-01-01T00:00:00.000Z" "ALLOW" None in
  (event_type e = judge_verdict /\ payload_verdict (payload e) = Some "ALLOW")
  /\ App.judgeAgreement (App.metrics ([] ++ e :: []))
     = App.judgeAgreement (App.metrics ([] ++ withVerdict "block" e :: []))
  /\ App.judgeAgreement (App.metrics ([] ++ e :: [])) <> "pending"
  /\ App.violationCount (App.metrics ([] ++ withVerdict "block" e :: []))
     = App.violationCount (App.metrics ([] ++ e :: [])) + 1
  /\ verdictCount "allow" ([] ++ e :: []) + verdictCount "warn" ([] ++ e :: [])
     + verdictCount "block" ([] ++ e :: []) < totalVerdictCount ([] ++ e :: []).
Proof.
  cbv zeta. split; [by split|].
  apply (unknown_verdict_lowers_agreement [] []
           (Samples.verdictEvent "ex-1" "2024-01-01T00:00:00.000Z" "ALLOW" None)
           "ALLOW"); [reflexivity | reflexivity | discriminate..].
Defined.

Example unknown_verdict_shows_zero_percent :
  App.metrics [Samples.verdictEvent "ex-1" "2024-01-01T00:00:00.000Z" "ALLOW" None]
  = {| App.judgeAgreement := "0%"; App.violationCount := 0 |}.
Proof. vm_compute. reflexivity. Qed.

(* ===================================================================== *)
(** * Properties of the verdict card *)
(* ===================================================================== *)

(** X23.  The verdict card of a group takes its tone from the
    last verdict of the exchange alone: [primaryJudge] is the payload of
    the last verdict event of the exchange, [severity] its verdict, and
    the card has a warning tone exactly when that last verdict is 'block'
    or 'warn'.  An exchange blocked by one judge and then allowed by
    another is drawn with the plain tone. *)
Theorem judge_card_follows_last_verdict :
  (forall events : list TimelineEvent,
     Forall (fun group =>
       let verdicts :=
         ofType judge_verdict (eventsOf (Timeline.exchangeId group) events) in
       Timeline.primaryJudge group = payload <$> last verdicts
       /\ Timeline.severity group
          = (last verdicts ≫= fun e => payload_verdict (payload e))
       /\ (Timeline.judgeTone group <> "border-gray-100 bg-white" <->
           exists e, last verdicts = Some e
                     /\ (payload_verdict (payload e) = Some "block"
                         \/ payload_verdict (payload e) = Some "warn")))
       (Timeline.groups events))
  /\ Timeline.judgeTone
       <$> Timeline.groups
             [Samples.verdictEvent "ex-1" "2024-01-01T00:00:00.000Z" "block" None;
              Samples.verdictEvent "ex-1" "2024-01-01T00:00:01.000Z" "allow" None]
     = ["border-gray-100 bg-white"].
Proof.
  split; [|vm_compute; reflexivity].
  intros events. eapply Forall_impl; [apply groups_describes|].
  intros group (first & lastEvent & _ & _ & _ & _ & _ & _ & _ & Hjudges).
  cbv zeta in *.
  set (verdicts := ofType judge_verdict (eventsOf (Timeline.exchangeId group) events)) in *.
  assert (Hprimary : Timeline.primaryJudge group = payload <$> last verdicts).
  { unfold Timeline.primaryJudge. by rewrite Hjudges, fmap_last. }
  assert (Hseverity : Timeline.severity group
                      = (last verdicts ≫= fun e => payload_verdict (payload e))).
  { unfold Timeline.severity. rewrite Hprimary. by destruct (last verdicts). }
  split; [done|]. split; [done|].
  unfold Timeline.judgeTone. rewrite Hseverity.
  destruct (last verdicts) as [e|]; simpl.
  - repeat case_decide; split; try done.
    + intros _. exists e. split; [done | by left].
    + intros _. exists e. split; [done | by right].
    + intros (e' & [= <-] & [?|?]); congruence.
  - repeat case_decide; try done. split; [done|]. by intros (e' & ? & _).
Qed.

(* ===================================================================== *)
(** * Properties of the card stages *)
(* ===================================================================== *)

Lemma stageOr0_recorded stages id id' :
  Timeline.stageOr0 (recorded stages id) id' = Timeline.stageOr0 stages id'.
Proof.
  unfold recorded, Timeline.stageOr0. destruct (stages !! id) eqn:E; [done|].
  destruct (decide (id = id')) as [<-|Hne].
  - by rewrite lookup_insert_eq, E.
  - by rewrite lookup_insert_ne.
Qed.

Lemma armGroup_spec st timers index group :
  let id := Timeline.exchangeId group in
  Timeline.armGroup (st, timers) (index, group)
  = ({| Timeline.stageMap :=
          match Timeline.stageRef st !! id with
          | None => <[ id := 0 ]> (Timeline.stageMap st)
          | Some _ => Timeline.stageMap st
          end;
        Timeline.stageRef := recorded (Timeline.stageRef st) id;
        Timeline.pendingStageRef :=
          if armsResponse st group then {[ id ]} ∪ Timeline.pendingStageRef st
          else Timeline.pendingStageRef st;
        Timeline.pendingJudgeRef :=
          if armsJudge st group then {[ id ]} ∪ Timeline.pendingJudgeRef st
          else Timeline.pendingJudgeRef st |},
     timers
     ++ (if armsResponse st group
         then [{| Timeline.timer_kind := Timeline.ResponseTimer; Timeline.timer_id := id;
                  Timeline.timer_delay := 260 + Z.of_nat index * 120 |}]
         else [])
     ++ (if armsJudge st group
         then [{| Timeline.timer_kind := Timeline.JudgeTimer; Timeline.timer_id := id;
                  Timeline.timer_delay := 260 + Z.of_nat index * 120 + 320 |}]
         else [])).
Proof.
  cbv zeta. unfold Timeline.armGroup, armsResponse, armsJudge.
  set (id := Timeline.exchangeId group).
  pose proof (stageOr0_recorded (Timeline.stageRef st) id id) as Hrec.
  unfold recorded in *.
  destruct (Timeline.stageRef st !! id) eqn:Href; cbn [Timeline.stageRef Timeline.pendingStageRef Timeline.pendingJudgeRef Timeline.stageMap].
  - destruct (bool_decide (is_Some _) && _ && _);
      cbn [Timeline.stageRef Timeline.pendingStageRef Timeline.pendingJudgeRef Timeline.stageMap];
      destruct (bool_decide (0 < _)%nat && _ && _); rewrite ?app_nil_r, <- ?app_assoc;
      destruct st; reflexivity.
  - rewrite Hrec.
    destruct (bool_decide (is_Some _) && _ && _);
      cbn [Timeline.stageRef Timeline.pendingStageRef Timeline.pendingJudgeRef Timeline.stageMap];
      rewrite ?Hrec;
      destruct (bool_decide (0 < _)%nat && _ && _); rewrite ?app_nil_r, <- ?app_assoc;
      reflexivity.
Qed.

Lemma stagesConsistent_cleared : stagesConsistent Timeline.clearedStageState.
Proof. split; [done|]. intros id v Hl. simpl in Hl. by rewrite lookup_empty in Hl. Qed.

Lemma settleGroup_consistent st group :
  stagesConsistent st -> stagesConsistent (Timeline.settleGroup st group).
Proof.
  intros [Heq Hv]. split; simpl; [by rewrite Heq|].
  intros id v. destruct (decide (id = Timeline.exchangeId group)) as [->|Hne].
  - rewrite lookup_insert_eq. intros [= <-]. lia.
  - rewrite lookup_insert_ne by done. apply Hv.
Qed.

Lemma foldl_settleGroup_consistent groups st :
  stagesConsistent st -> stagesConsistent (foldl Timeline.settleGroup st groups).
Proof.
  revert st. induction groups as [|g groups IH]; intros st Hc; [done|].
  cbn [foldl]. by apply IH, settleGroup_consistent.
Qed.

Lemma foldl_settleGroup_pending groups st :
  Timeline.pendingStageRef (foldl Timeline.settleGroup st groups) = Timeline.pendingStageRef st
  /\ Timeline.pendingJudgeRef (foldl Timeline.settleGroup st groups)
     = Timeline.pendingJudgeRef st.
Proof.
  revert st. induction groups as [|g groups IH]; intros st; simpl; [done|].
  destruct (IH (Timeline.settleGroup st g)) as [-> ->]. done.
Qed.

Lemma foldl_settleGroup_lookup groups st id :
  Timeline.stageMap (foldl Timeline.settleGroup st groups) !! id
  = if decide (id ∈ Timeline.exchangeId <$> groups) then Some 2
    else Timeline.stageMap st !! id.
Proof.
  revert st. induction groups as [|g groups IH]; intros st.
  - cbn [foldl]. destruct (decide _) as [Hin|_]; [by apply elem_of_nil in Hin | done].
  - cbn [foldl]. rewrite IH. rewrite fmap_cons. clear IH.
    destruct (decide (id ∈ Timeline.exchangeId <$> groups)) as [Hin|Hin].
    + rewrite decide_True; [done | by right].
    + simpl. destruct (decide (id = Timeline.exchangeId g)) as [->|Hne].
      * rewrite lookup_insert_eq. rewrite decide_True; [done | by left].
      * rewrite lookup_insert_ne by done.
        rewrite decide_False; [done|]. rewrite not_elem_of_cons. done.
Qed.

Lemma armGroup_consistent acc indexed :
  stagesConsistent acc.1 -> stagesConsistent (Timeline.armGroup acc indexed).1.
Proof.
  destruct acc as [st timers], indexed as [index group]. intros [Heq Hv].
  rewrite armGroup_spec. cbv zeta. simpl in *. unfold recorded. split; simpl.
  - rewrite <- Heq. by destruct (Timeline.stageMap st !! _).
  - intros id v. destruct (Timeline.stageRef st !! _) eqn:E; [apply Hv|].
    destruct (decide (id = Timeline.exchangeId group)) as [->|Hne].
    + rewrite lookup_insert_eq. intros [= <-]. lia.
    + rewrite lookup_insert_ne by done. apply Hv.
Qed.

Lemma foldl_armGroup_consistent indexed acc :
  stagesConsistent acc.1 -> stagesConsistent (foldl Timeline.armGroup acc indexed).1.
Proof.
  revert acc. induction indexed as [|x indexed IH]; intros acc Hc; [done|].
  cbn [foldl]. by apply IH, armGroup_consistent.
Qed.

Lemma stageEffect_consistent groups liveMode st :
  stagesConsistent st -> stagesConsistent (Timeline.stageEffect groups liveMode st).1.
Proof.
  intros Hc. unfold Timeline.stageEffect. destruct groups as [|g groups]; [done|].
  destruct liveMode; cbn [negb].
  - apply foldl_armGroup_consistent. exact Hc.
  - pose proof (foldl_settleGroup_consistent (g :: groups) st Hc) as [Heq Hv].
    split; done.
Qed.

Lemma timerCallback_consistent timer st :
  stagesConsistent st -> stagesConsistent (Timeline.timerCallback timer st).
Proof.
  intros [Heq Hv]. unfold Timeline.timerCallback, Timeline.stageOr0.
  set (id := Timeline.timer_id timer). rewrite <- Heq.
  destruct (Timeline.timer_kind timer); split; simpl.
  - destruct (Timeline.stageMap st !! id) as [e|] eqn:E; simpl; [|done].
    destruct (decide _) as [Hge|Hlt]; [|done].
    symmetry. apply insert_id. rewrite E. f_equal. lia.
  - intros id' v.
    destruct (Timeline.stageMap st !! id) as [e|] eqn:E; simpl.
    + pose proof (Hv id e E).
      destruct (decide _); [apply Hv|].
      destruct (decide (id' = id)) as [->|Hne].
      * rewrite lookup_insert_eq. intros [= <-]. lia.
      * rewrite lookup_insert_ne by done. apply Hv.
    + destruct (decide (id' = id)) as [->|Hne].
      * rewrite lookup_insert_eq. intros [= <-]. lia.
      * rewrite lookup_insert_ne by done. apply Hv.
  - destruct (Timeline.stageMap st !! id) as [e|] eqn:E; simpl; [|done].
    destruct (decide _) as [Hge|Hlt]; [|done].
    symmetry. apply insert_id. rewrite E. f_equal. pose proof (Hv id e E). lia.
  - intros id' v.
    destruct (Timeline.stageMap st !! id) as [e|] eqn:E; simpl.
    + destruct (decide _); [apply Hv|].
      destruct (decide (id' = id)) as [->|Hne].
      * rewrite lookup_insert_eq. intros [= <-]. lia.
      * rewrite lookup_insert_ne by done. apply Hv.
    + destruct (decide (id' = id)) as [->|Hne].
      * rewrite lookup_insert_eq. intros [= <-]. lia.
      * rewrite lookup_insert_ne by done. apply Hv.
Qed.

Lemma stageStep_consistent m ev :
  stagesConsistent (sm_state m) -> stagesConsistent (sm_state (stageStep m ev)).
Proof.
  intros Hc. destruct ev as [changed groups liveMode|n]; simpl.
  - apply stageEffect_consistent. destruct changed; [apply stagesConsistent_cleared | done].
  - destruct (sm_timers m !! n); simpl; [by apply timerCallback_consistent | done].
Qed.

Lemma stageSteps_consistent events m :
  stagesConsistent (sm_state m) ->
  stagesConsistent (sm_state (foldl stageStep m events)).
Proof.
  revert m. induction events as [|ev events IH]; intros m Hc; simpl; [done|].
  by apply IH, stageStep_consistent.
Qed.

Lemma timerCallback_monotone timer st id :
  stagesConsistent st ->
  Timeline.stageOr0 (Timeline.stageMap st) id
  <= Timeline.stageOr0 (Timeline.stageMap (Timeline.timerCallback timer st)) id.
Proof.
  intros [Heq Hv]. unfold Timeline.timerCallback, Timeline.stageOr0.
  set (tid := Timeline.timer_id timer). rewrite <- Heq.
  destruct (Timeline.timer_kind timer); simpl;
    (destruct (Timeline.stageMap st !! tid) as [e|] eqn:E; simpl;
     [ destruct (decide _); [lia|] | ];
     (destruct (decide (id = tid)) as [->|Hne];
      [ rewrite lookup_insert_eq, ?E; simpl;
        try (pose proof (Hv tid e E)); lia
      | rewrite lookup_insert_ne by done; lia ])).
Qed.

Lemma armGroup_armedResponsesPending acc indexed :
  armedResponsesPending acc -> armedResponsesPending (Timeline.armGroup acc indexed).
Proof.
  destruct acc as [st timers], indexed as [index group]. intros Hinv.
  rewrite armGroup_spec. cbv zeta. intros timer Hin Hkind. cbn [fst snd] in *.
  cbn [Timeline.pendingStageRef Timeline.stageRef]. rewrite stageOr0_recorded.
  apply elem_of_app in Hin as [Hin|Hin].
  { destruct (Hinv timer Hin Hkind) as [Hp Hs]. split; [|done].
    destruct (armsResponse st group); set_solver. }
  apply elem_of_app in Hin as [Hin|Hin].
  - destruct (armsResponse st group) eqn:Harm; [|by apply elem_of_nil in Hin].
    apply list_elem_of_singleton in Hin as ->. simpl. split; [set_solver|].
    unfold armsResponse in Harm. apply andb_true_iff in Harm as [Harm _].
    apply andb_true_iff in Harm as [_ Harm]. by apply bool_decide_eq_true in Harm.
  - destruct (armsJudge st group); [|by apply elem_of_nil in Hin].
    apply list_elem_of_singleton in Hin as ->. done.
Qed.

Lemma foldl_armGroup_armedResponsesPending indexed acc :
  armedResponsesPending acc -> armedResponsesPending (foldl Timeline.armGroup acc indexed).
Proof.
  revert acc. induction indexed as [|x indexed IH]; intros acc Hc; [done|].
  cbn [foldl]. by apply IH, armGroup_armedResponsesPending.
Qed.

Lemma armGroup_lostInLoop id acc indexed :
  lostInLoop id acc -> lostInLoop id (Timeline.armGroup acc indexed).
Proof.
  destruct acc as [st timers], indexed as [index group]. intros (Hp & Hno & Hs).
  rewrite armGroup_spec. cbv zeta. cbn [fst snd] in *. split; [|split].
  - cbn [fst Timeline.pendingStageRef]. destruct (armsResponse st group); set_solver.
  - intros (timer & Hin & Hkind & Hid).
    apply elem_of_app in Hin as [Hin|Hin]; [apply Hno; by exists timer|].
    apply elem_of_app in Hin as [Hin|Hin].
    + destruct (armsResponse st group) eqn:Harm; [|by apply elem_of_nil in Hin].
      apply list_elem_of_singleton in Hin as ->. simpl in Hid.
      unfold armsResponse in Harm. apply andb_true_iff in Harm as [_ Harm].
      apply negb_true_iff, bool_decide_eq_false in Harm. congruence.
    + destruct (armsJudge st group); [|by apply elem_of_nil in Hin].
      apply list_elem_of_singleton in Hin as ->. done.
  - cbn [fst Timeline.stageMap]. destruct (Timeline.stageRef st !! _); [done|].
    destruct (decide (id = Timeline.exchangeId group)) as [->|Hne].
    + by rewrite lookup_insert_eq.
    + by rewrite lookup_insert_ne.
Qed.

Lemma foldl_armGroup_lostInLoop id indexed acc :
  lostInLoop id acc -> lostInLoop id (foldl Timeline.armGroup acc indexed).
Proof.
  revert acc. induction indexed as [|x indexed IH]; intros acc Hc; [done|].
  cbn [foldl]. by apply IH, armGroup_lostInLoop.
Qed.

Lemma stageEffect_live_lost id groups st :
  id ∈ Timeline.pendingStageRef st -> Timeline.stageMap st !! id <> Some 1 ->
  lostInLoop id (Timeline.stageEffect groups true st).
Proof.
  intros Hp Hs.
  assert (Hinit : lostInLoop id (st, [])).
  { split; [done|]. split; [|done]. intros (t & Hin & _). by apply elem_of_nil in Hin. }
  unfold Timeline.stageEffect. destruct groups as [|g groups]; [done|].
  cbn [negb]. by apply foldl_armGroup_lostInLoop.
Qed.

Lemma timerFired_lost id m n :
  lostInLoop id (sm_state m, sm_timers m) ->
  lostInLoop id (sm_state (stageStep m (TimerFired n)),
                 sm_timers (stageStep m (TimerFired n))).
Proof.
  intros (Hp & Hno & Hs). cbn [stageStep fst snd] in *.
  destruct (sm_timers m !! n) as [timer|] eqn:Hn; [|done].
  assert (Hin : timer ∈ sm_timers m) by (by eapply list_elem_of_lookup_2).
  cbn [sm_state sm_timers]. split; [|split].
  - unfold Timeline.timerCallback.
    destruct (Timeline.timer_kind timer) eqn:Hk; cbn [fst Timeline.pendingStageRef];
      [|done].
    apply elem_of_difference. split; [done|]. rewrite not_elem_of_singleton.
    intros ->. apply Hno. by exists timer.
  - intros (t & Ht & Hkind & Hid). apply Hno. exists t. split; [|done].
    eapply sublist_subseteq; [apply sublist_delete | done].
  - unfold Timeline.timerCallback.
    destruct (Timeline.timer_kind timer) eqn:Hk; cbn [fst Timeline.stageMap].
    + assert (Hne : id <> Timeline.timer_id timer)
        by (intros ->; apply Hno; by exists timer).
      destruct (Timeline.stageMap (sm_state m) !! Timeline.timer_id timer) as [e|].
      * destruct (decide (e >= _)); [done|]. by rewrite lookup_insert_ne.
      * by rewrite lookup_insert_ne.
    + destruct (Timeline.stageMap (sm_state m) !! Timeline.timer_id timer) as [e|] eqn:E.
      * destruct (decide (e >= 2)); [done|].
        destruct (decide (id = Timeline.timer_id timer)) as [->|Hne].
        -- by rewrite lookup_insert_eq.
        -- by rewrite lookup_insert_ne.
      * destruct (decide (id = Timeline.timer_id timer)) as [->|Hne].
        -- by rewrite lookup_insert_eq.
        -- by rewrite lookup_insert_ne.
Qed.

Lemma stageStep_lost id m ev :
  staysLive ev = true ->
  lostInLoop id (sm_state m, sm_timers m) ->
  lostInLoop id (sm_state (stageStep m ev), sm_timers (stageStep m ev)).
Proof.
  intros Hlive Hlost. destruct ev as [changed groups liveMode|n].
  - simpl in Hlive. apply andb_true_iff in Hlive as [Hc ->].
    apply negb_true_iff in Hc as ->. destruct Hlost as (Hp & _ & Hs).
    cbn [stageStep sm_state sm_timers].
    pose proof (stageEffect_live_lost id groups (sm_state m) Hp Hs) as Hl.
    by destruct (Timeline.stageEffect groups true (sm_state m)).
  - by apply timerFired_lost.
Qed.

Lemma stageSteps_lost id events m :
  forallb staysLive events = true ->
  lostInLoop id (sm_state m, sm_timers m) ->
  lostInLoop id (sm_state (foldl stageStep m events),
                 sm_timers (foldl stageStep m events)).
Proof.
  revert m. induction events as [|ev events IH]; intros m Hlive Hlost; [done|].
  cbn [forallb] in Hlive. apply andb_true_iff in Hlive as [Hev Hlive].
  cbn [foldl]. apply IH; [done|]. by apply stageStep_lost.
Qed.

(** X25.  In live mode the response stage of an exchange can
    be lost.  When a render has armed the response timer of an exchange
    and the groups change before the timer fires, the cleanup clears the
    timer but the exchange stays in [pendingStageRef].  From then on, as
    long as live mode stays on and the run key does not change, no
    response timer is armed for the exchange again, whatever renders and
    timers follow: its stage never becomes 1, so its card is drawn at
    stage 0 until a judge timer takes it to stage 2, and its response
    card never gets the highlight of stage 1. *)
Theorem cancelled_response_timer_is_lost :
  forall (earlier : list StageEvent) (changed : bool)
         (groups groups' : list Timeline.TurnGroup) (id : string)
         (later : list StageEvent),
    let armed :=
      stageStep (foldl stageStep mountedStage earlier) (Rendered changed groups true) in
    let final := foldl stageStep (stageStep armed (Rendered false groups' true)) later in
    responseTimerArmed id (sm_timers armed) ->
    forallb staysLive later = true ->
    responseStageLost id final
    /\ Timeline.stageMap (sm_state final) !! id <> Some 1
    /\ forall group,
         Timeline.exchangeId group = id ->
         (Timeline.stage group true (sm_state final) = 0
          \/ Timeline.stage group true (sm_state final) = 2)
         /\ Timeline.llmStageClass (Timeline.stage group true (sm_state final))
            <> "ring-2 ring-primary-400/70 shadow-lg shadow-primary-300/40".
Proof.
  intros earlier changed groups groups' id later armed final Harmed Hlive.
  set (before := foldl stageStep mountedStage earlier) in *.
  assert (Hcons : stagesConsistent (sm_state armed)).
  { subst armed. apply stageStep_consistent. subst before.
    apply stageSteps_consistent, stagesConsistent_cleared. }
  assert (Hpend : armedResponsesPending (sm_state armed, sm_timers armed)).
  { subst armed. cbn [stageStep sm_state sm_timers].
    set (st := if changed then _ else _).
    unfold Timeline.stageEffect. destruct groups as [|g groups].
    - intros t Hin. by apply elem_of_nil in Hin.
    - cbn [negb].
      pose proof (foldl_armGroup_armedResponsesPending
                    (imap (fun index group => (index, group)) (g :: groups)) (st, []))
        as Hl.
      destruct (foldl Timeline.armGroup _ _) as [st' timers']. apply Hl.
      intros t Hin. by apply elem_of_nil in Hin. }
  destruct Harmed as (timer & Hin & Hkind & Hid).
  destruct (Hpend timer Hin Hkind) as [Hp Hstage]. rewrite Hid in Hp, Hstage.
  cbn [fst] in Hp, Hstage.
  assert (Hnot1 : Timeline.stageMap (sm_state armed) !! id <> Some 1).
  { destruct Hcons as [Heq _]. rewrite Heq. unfold Timeline.stageOr0 in Hstage.
    intros Hl. rewrite Hl in Hstage. simpl in Hstage. lia. }
  assert (Hlost : lostInLoop id (sm_state final, sm_timers final)).
  { subst final. apply stageSteps_lost; [done|].
    cbn [stageStep sm_state sm_timers].
    pose proof (stageEffect_live_lost id groups' (sm_state armed) Hp Hnot1) as Hl.
    by destruct (Timeline.stageEffect groups' true (sm_state armed)). }
  destruct Hlost as (Hpending & Hnone & Hstage1). cbn [fst snd] in *.
  split; [by split|]. split; [done|].
  intros group Hgroup. unfold Timeline.stage, Timeline.llmStageClass. rewrite Hgroup.
  assert (Hfinal : stagesConsistent (sm_state final)).
  { subst final. apply stageSteps_consistent, stageStep_consistent. exact Hcons. }
  destruct Hfinal as [_ Hvalues].
  destruct (Timeline.stageMap (sm_state final) !! id) as [v|] eqn:Hv; simpl.
  - pose proof (Hvalues id v Hv) as Hrange.
    assert (Hv1 : v <> 1) by congruence.
    split; [lia|]. repeat case_decide; try done; lia.
  - split; [by left | done].
Qed.

(** X24.  Whatever renders and timers the timeline has gone through
    since it was mounted, with groups whose exchange ids are no names of
    properties of [Object.prototype]: the two copies of the stages,
    [stageMap] and [stageRef], agree, and every stage is 0, 1 or 2; the
    firing of a timer lowers the stage of no exchange; a render of such
    groups with live mode off and at least one group leaves no timer
    armed, no exchange pending and every rendered group at stage 2; a
    render with no group arms no timer and leaves the state as it is
    (cleared, when the run key has changed). *)
Theorem stages_stay_consistent :
  forall events : list StageEvent,
    forallb plainEvent events = true ->
    let m := foldl stageStep mountedStage events in
    stagesConsistent (sm_state m)
    /\ (forall n id,
          Timeline.stageOr0 (Timeline.stageMap (sm_state m)) id
          <= Timeline.stageOr0
               (Timeline.stageMap (sm_state (stageStep m (TimerFired n)))) id)
    /\ (forall changed groups,
          groups <> [] -> plainGroups groups = true ->
          let settled := stageStep m (Rendered changed groups false) in
          sm_timers settled = []
          /\ Timeline.pendingStageRef (sm_state settled) = ∅
          /\ Timeline.pendingJudgeRef (sm_state settled) = ∅
          /\ forall group liveMode,
               group ∈ groups ->
               Timeline.stage group liveMode (sm_state settled) = 2)
    /\ (forall changed liveMode,
          stageStep m (Rendered changed [] liveMode)
          = {| sm_state := if changed then Timeline.clearedStageState else sm_state m;
               sm_timers := [] |}).
Proof.
  intros events _ m.
  assert (Hcons : stagesConsistent (sm_state m)).
  { subst m. apply stageSteps_consistent, stagesConsistent_cleared. }
  split; [done|]. split.
  { intros n id. cbn [stageStep].
    destruct (sm_timers m !! n) as [timer|]; [|done].
    cbn [sm_state]. by apply timerCallback_monotone. }
  split; [|done].
  intros changed groups Hne _ settled. subst settled. cbn [stageStep sm_state sm_timers].
  set (st := if changed then _ else _).
  unfold Timeline.stageEffect. destruct groups as [|g groups]; [done|].
  cbn [negb fst snd Timeline.pendingStageRef Timeline.pendingJudgeRef].
  split; [done|]. split; [done|]. split; [done|].
  intros group liveMode Hin. unfold Timeline.stage. cbn [Timeline.stageMap].
  rewrite (foldl_settleGroup_lookup (g :: groups) st).
  rewrite decide_True; [done|]. by apply list_elem_of_fmap_2.
Qed.

(** The stages stay consistent: an exchange with a response and a verdict
    is rendered live, its response timer fires, and it is rendered again
    with live mode off. *)
Lemma stages_stay_consistent_witness :
  let judged :=
    Timeline.groups
      [Samples.responseEvent "ex-1" "2024-01-01T00:00:00.000Z" None None;
       Samples.verdictEvent "ex-1" "2024-01-01T00:00:01.000Z" "allow" None] in
  let events := [Rendered true judged true; TimerFired 0] in
  let m := foldl stageStep mountedStage events in
  forallb plainEvent events = true
  /\ Timeline.stageMap (sm_state m) !! "ex-1" = Some 1
  /\ stagesConsistent (sm_state m)
  /\ sm_timers (stageStep m (Rendered false judged false)) = [].
Proof.
  cbv zeta.
  assert (Hplain : forallb plainEvent
    [Rendered true
       (Timeline.groups
          [Samples.responseEvent "ex-1" "2024-01-01T00:00:00.000Z" None None;
           Samples.verdictEvent "ex-1" "2024-01-01T00:00:01.000Z" "allow" None]) true;
     TimerFired 0] = true) by (vm_compute; reflexivity).
  destruct (stages_stay_consistent _ Hplain) as (Hcons & _ & Hsettled & _).
  split; [exact Hplain|]. split; [vm_compute; reflexivity|]. split; [exact Hcons|].
  refine (proj1 (Hsettled false _ _ _)); [discriminate | vm_compute; reflexivity].
Defined.

Lemma cancelled_response_timer_is_lost_witness :
  let answered :=
    {| Timeline.exchangeId := "ex-1"; Timeline.turnIndex := 0;
       Timeline.createdAt := "2024-01-01T00:00:00.000Z";
       Timeline.tg_run := Samples.sampleRun; Timeline.userPrompt := None;
       Timeline.response :=
         Some (payload (Samples.responseEvent "ex-1" "2024-01-01T00:00:00.000Z"
                          None None));
       Timeline.judges := [] |} in
  let armed := stageStep (foldl stageStep mountedStage []) (Rendered true [answered] true) in
  let final :=
    foldl stageStep (stageStep armed (Rendered false [answered] true)) [TimerFired 0] in
  sm_timers armed
  = [{| Timeline.timer_kind := Timeline.ResponseTimer; Timeline.timer_id := "ex-1";
        Timeline.timer_delay := 260 |}]
  /\ responseStageLost "ex-1" final
  /\ Timeline.stage answered true (sm_state final) = 0.
Proof.
  cbv zeta.
  set (answered :=
    {| Timeline.exchangeId := "ex-1"; Timeline.turnIndex := 0;
       Timeline.createdAt := "2024-01-01T00:00:00.000Z";
       Timeline.tg_run := Samples.sampleRun; Timeline.userPrompt := None;
       Timeline.response :=
         Some (payload (Samples.responseEvent "ex-1" "2024-01-01T00:00:00.000Z"
                          None None));
       Timeline.judges := [] |}).
  assert (Harmed :
    sm_timers (stageStep (foldl stageStep mountedStage []) (Rendered true [answered] true))
    = [{| Timeline.timer_kind := Timeline.ResponseTimer; Timeline.timer_id := "ex-1";
          Timeline.timer_delay := 260 |}]) by (vm_compute; reflexivity).
  split; [exact Harmed|].
  destruct (cancelled_response_timer_is_lost [] true [answered] [answered] "ex-1"
              [TimerFired 0]) as (Hlost & _ & Hstage).
  - rewrite Harmed. eexists. split; [apply list_elem_of_here|]. split; reflexivity.
  - reflexivity.
  - split; [exact Hlost|]. vm_compute. reflexivity.
Defined.

(* ===================================================================== *)
(** * The run key and the reveal state *)
(* ===================================================================== *)

(** X22.  Reset empties the timeline, and an empty timeline has the
    run key 'none'.  So when a run whose id is not 'none' is shown and
    Reset is clicked, the effect keyed on the run key clears the reveal
    state: no response is disclosed any more and every card shows its
    redacted text again.  A render that keeps the run key keeps the
    reveal state. *)
Theorem reset_forgets_disclosures :
  forall (filtered : list TimelineEvent) (s : App.Playback) (st : Timeline.RevealState)
         (first : TimelineEvent),
    let shown s := App.displayEvents (App.activeEvents filtered (App.playbackIndex s))
                                     (App.showAllTurns s) in
    head (shown s) = Some first ->
    run_id (run first) <> "none" ->
    let cleared := Timeline.runKeyEffect (Timeline.runKey (shown s))
                     (shown (App.handleReset s)) st in
    shown (App.handleReset s) = []
    /\ Timeline.runKey (shown s) = run_id (run first)
    /\ cleared = Timeline.clearedRevealState
    /\ (forall id, Timeline.isResponseRevealed id cleared = false)
    /\ (forall group, Timeline.responseText group cleared = redactedText group)
    /\ (forall events, Timeline.runKey events = Timeline.runKey (shown s) ->
          Timeline.runKeyEffect (Timeline.runKey (shown s)) events st = st).
Proof.
  intros filtered s st first shown Hhead Hrun cleared.
  assert (Hempty : shown (App.handleReset s) = []).
  { subst shown. cbn [App.handleReset App.playbackIndex App.showAllTurns].
    unfold App.activeEvents. destruct (decide _); [done|].
    rewrite decide_True by lia. done. }
  assert (Hkey : Timeline.runKey (shown s) = run_id (run first)).
  { unfold Timeline.runKey. by destruct (shown s) as [|e l]; [|injection Hhead as ->]. }
  assert (Hcleared : cleared = Timeline.clearedRevealState).
  { subst cleared. unfold Timeline.runKeyEffect. rewrite Hempty, Hkey.
    rewrite decide_False; [done|]. simpl. congruence. }
  split; [done|]. split; [done|]. split; [done|]. rewrite Hcleared. split.
  { intros id. unfold Timeline.isResponseRevealed. simpl. by rewrite lookup_empty. }
  split.
  { intros group. unfold Timeline.responseText, redactedText, Timeline.isResponseRevealed.
    simpl. rewrite lookup_empty. by destruct (Timeline.response group). }
  intros events Hsame. unfold Timeline.runKeyEffect. by rewrite decide_True.
Qed.

Lemma reset_forgets_disclosures_witness :
  let filtered :=
    [Samples.responseEvent "ex-1" "2024-01-01T00:00:00.000Z" None (Some "raw text")] in
  let s := {| App.playbackIndex := 0; App.isPlaying := false;
              App.showAllTurns := false |} in
  let st := Timeline.setResponseRevealed "ex-1" Timeline.clearedRevealState in
  let shown s := App.displayEvents (App.activeEvents filtered (App.playbackIndex s))
                                   (App.showAllTurns s) in
  (head (shown s) = head filtered /\ Timeline.isResponseRevealed "ex-1" st = true)
  /\ shown (App.handleReset s) = []
  /\ Timeline.runKeyEffect (Timeline.runKey (shown s)) (shown (App.handleReset s)) st
     = Timeline.clearedRevealState.
Proof.
  cbv zeta. split; [split; reflexivity|].
  destruct (reset_forgets_disclosures
              [Samples.responseEvent "ex-1" "2024-01-01T00:00:00.000Z" None
                 (Some "raw text")]
              {| App.playbackIndex := 0; App.isPlaying := false;
                 App.showAllTurns := false |}
              (Timeline.setResponseRevealed "ex-1" Timeline.clearedRevealState)
              (Samples.responseEvent "ex-1" "2024-01-01T00:00:00.000Z" None
                 (Some "raw text")))
    as (Hempty & _ & Hcleared & _); [reflexivity | discriminate |].
  split; [exact Hempty | exact Hcleared].
Defined.
